(** * mapbox-clustering: grid clustering, DBSCAN and the clustered marker layer

    A shallow embedding of [src/lib/grid.ts], [src/lib/dbscan.ts] and
    [src/lib/index.ts].

    Conventions of the embedding.
    - A JavaScript [number] is an exact rational ([Q]).  Rounding, signed
      zeros and NaN inputs are outside the model; the two places where the
      code can produce a non-finite number from finite inputs (a division by
      a zero [cellSize], a missing vector component) are written out, see
      [floor_div].
    - An array is a [list]; reads are stdpp lookups [l !! i] ([None] is
      JavaScript's [undefined]) and in-range writes are [<[i:=v]> l].
    - A JavaScript object used as a dictionary, and a [Map], are association
      lists in insertion order, which is the order [Object.entries] and
      [Map.prototype.entries] enumerate non-index keys in.
    - A call that can throw returns an [outcome]. *)

From Stdlib Require Import QArith Qround Qabs ZArith Lia String.
From stdpp Require Import base list strings pretty sorting relations.

(** ** Shared data model *)

Inductive outcome (A : Type) : Type :=
| Returned (a : A)
| Thrown (message : string)
| Unfinished.
Arguments Returned {A} a.
Arguments Thrown {A} message.
Arguments Unfinished {A}.

Record LatLng : Type := { lat : Q; lng : Q }.

(** [T extends { lat: number; lng: number }] *)
Class Located (T : Type) : Type := { lat_of : T → Q; lng_of : T → Q }.

Global Instance LatLng_Located : Located LatLng :=
  {| lat_of := lat; lng_of := lng |}.

(** The record both clusterers return: [{ id, center, points }]. *)
Record Cluster (T : Type) : Type :=
  { c_id : string; c_center : LatLng; c_points : list T }.
Arguments c_id {T} _.
Arguments c_center {T} _.
Arguments c_points {T} _.

(** [arr.length] as a number. *)
Definition length_number {A : Type} (l : list A) : Q :=
  inject_Z (Z.of_nat (length l)).

(** The accumulation both clusterers use for [center]:
    [latlng = {lat: 0, lng: 0}], one [+=] per point, one [/= points.length]. *)
Definition sum_latlng {A : Type} (coord : A → LatLng) (points : list A) : LatLng :=
  fold_left
    (λ latlng point,
       {| lat := (lat latlng + lat (coord point))%Q;
          lng := (lng latlng + lng (coord point))%Q |})
    points {| lat := 0; lng := 0 |}.

Definition mean_latlng {A : Type} (coord : A → LatLng) (points : list A) : LatLng :=
  let latlng := sum_latlng coord points in
  {| lat := (lat latlng / length_number points)%Q;
     lng := (lng latlng / length_number points)%Q |}.

(** The same mean written as a sum over the list of coordinates, the form
    the specification uses: sum divided by member count. *)
Definition Qsum (l : list Q) : Q := fold_left Qplus l 0%Q.

(** ** grid.ts *)

Module Grid.

(** The value of [Math.floor(x / cellSize)].  [x] is [None] when the vector
    has no such component ([undefined / c] is NaN); a finite [x] divided by
    zero is NaN or an infinity, and [Math.floor] keeps those.  The quotient
    of finite numbers is the exact one: the code floors the quotient rounded
    to a double, which can sit on the other side of a cell boundary or
    overflow, so where a boundary falls is not read off this definition. *)
Inductive floored : Type :=
| FlNaN
| FlInfinity
| FlNegInfinity
| FlInt (z : Z).

Definition floor_div (x : option Q) (c : Q) : floored :=
  match x with
  | None => FlNaN
  | Some x =>
      if Qeq_bool c 0 then
        if Qeq_bool x 0 then FlNaN
        else if Qle_bool 0 x then FlInfinity else FlNegInfinity
      else FlInt (Qfloor (x / c))
  end.

(** Template-literal conversion of a floored number (integers below 1e21
    print as plain decimals). *)
Definition floored_to_string (f : floored) : string :=
  match f with
  | FlNaN => "NaN"%string
  | FlInfinity => "Infinity"%string
  | FlNegInfinity => "-Infinity"%string
  | FlInt z => pretty z
  end.

Section grid.
Context {T : Type} `{Located T}.

Record GridOptions : Type :=
  { cellSize : Q;
    vector : T → list Q }.

(** [`${Math.floor(x / cellSize)};${Math.floor(y / cellSize)}`] with
    [const [x, y] = options.vector(point)]. *)
Definition groupID (options : GridOptions) (point : T) : string :=
  let v := vector options point in
  (floored_to_string (floor_div (v !! 0%nat) (cellSize options)) ++ ";" ++
   floored_to_string (floor_div (v !! 1%nat) (cellSize options)))%string.

(** [buckets[groupID] ||= []; buckets[groupID].push(point)].  Every key
    contains a semicolon, so it is neither an array index nor a property
    of [Object.prototype]: a key is new exactly when no earlier point
    produced it, and new keys go last. *)
Fixpoint bucket_push (buckets : list (string * list T)) (id : string) (point : T)
  : list (string * list T) :=
  match buckets with
  | [] => [(id, [point])]
  | (k, points) :: rest =>
      if String.eqb k id then (k, points ++ [point]) :: rest
      else (k, points) :: bucket_push rest id point
  end.

Definition fill_buckets (options : GridOptions) (data : list T)
  (buckets : list (string * list T)) : list (string * list T) :=
  fold_left (λ buckets point, bucket_push buckets (groupID options point) point)
    data buckets.

Definition to_cluster (entry : string * list T) : Cluster T :=
  {| c_id := entry.1;
     c_center := mean_latlng (λ p, {| lat := lat_of p; lng := lng_of p |}) entry.2;
     c_points := entry.2 |}.

(** [grid] has no [throw] and calls nothing that throws on numbers. *)
Definition grid (data : list T) (options : GridOptions) : outcome (list (Cluster T)) :=
  let buckets := fill_buckets options data [] in
  Returned (map to_cluster buckets).

End grid.
Arguments GridOptions T : clear implicits.

End Grid.

(** ** dbscan.ts *)

Module Dbscan.

Definition Qlt_bool (x y : Q) : bool := negb (Qle_bool y x).

(** [queueIncludes]: a linear scan with [===] on indices. *)
Fixpoint queueIncludes (arr : list nat) (x : nat) : bool :=
  match arr with
  | [] => false
  | y :: arr' => if Nat.eqb y x then true else queueIncludes arr' x
  end.

(** The [Map<number, T[]>] of [groupByCluster]:
    [if (!map.has(lbl)) map.set(lbl, []); map.get(lbl)!.push(item)]. *)
Fixpoint map_push {A : Type} (map : list (Z * list A)) (lbl : Z) (item : A)
  : list (Z * list A) :=
  match map with
  | [] => [(lbl, [item])]
  | (k, arr) :: rest =>
      if Z.eqb k lbl then (k, arr ++ [item]) :: rest
      else (k, arr) :: map_push rest lbl item
  end.

(** The loop of [groupByCluster] from index [i] on.  [labels] is as long as
    [items] at the only call site, so [labels[i]] is never [undefined]. *)
Fixpoint group_loop {A : Type} (i : nat) (items : list A) (labels : list Z)
  (map : list (Z * list A)) : list (Z * list A) :=
  match items with
  | [] => map
  | item :: items' =>
      let map' :=
        match labels !! i with
        | Some lbl => if Z.ltb lbl 0 then map else map_push map lbl item
        | None => map
        end in
      group_loop (S i) items' labels map'
  end.

Definition entry_le {A : Type} (a b : Z * list A) : Prop := (a.1 ≤ b.1)%Z.

Global Instance entry_le_dec {A : Type} (a b : Z * list A) : Decision (entry_le a b).
Proof. unfold entry_le. apply _. Defined.

(** [Array.from(map.entries()).sort((a, b) => a[0] - b[0]).map(([, arr]) => arr)].
    The keys of a [Map] are distinct, so every correct sort gives this order. *)
Definition groupByCluster {A : Type} (items : list A) (labels : list Z) : list (list A) :=
  (merge_sort entry_le (group_loop 0 items labels [])).*2.

Section dbscan.
Context {T : Type}.

(** [Math.sqrt] on the model's numbers; the default distance is the only
    caller. *)
Variable Math_sqrt : Q → Q.

Definition DistanceFn : Type := T → T → Q.

Record DbscanOptions : Type :=
  { eps : Q;
    minPts : Q;
    vector : T → list Q;
    coord : T → LatLng;
    distance : option DistanceFn }.

Definition euclidean (a b : list Q) : Q :=
  Math_sqrt
    (fold_left (λ sum ab, let d := (ab.1 - ab.2)%Q in (sum + d * d)%Q) (zip a b) 0%Q).

Definition buildDistance (opts : DbscanOptions) : DistanceFn :=
  match distance opts with
  | Some d => d
  | None => λ a b, euclidean (vector opts a) (vector opts b)
  end.

(** The arrays the closures of [dbscan] share.  [borderPoints] and [noise]
    are written after the main loop only and are functions of the final
    [labels] and [corePoints]; see [borderPoints] and [noise] below. *)
Record State : Type :=
  { visited : list bool;
    labels : list Z;
    corePoints : list bool;
    neighborsCache : list (option (list nat));
    clusters : list (list nat) }.

Definition set_visited (j : nat) (st : State) : State :=
  {| visited := <[j:=true]> (visited st); labels := labels st;
     corePoints := corePoints st; neighborsCache := neighborsCache st;
     clusters := clusters st |}.

Definition set_label (j : nat) (lbl : Z) (st : State) : State :=
  {| visited := visited st; labels := <[j:=lbl]> (labels st);
     corePoints := corePoints st; neighborsCache := neighborsCache st;
     clusters := clusters st |}.

Definition set_core (j : nat) (st : State) : State :=
  {| visited := visited st; labels := labels st;
     corePoints := <[j:=true]> (corePoints st); neighborsCache := neighborsCache st;
     clusters := clusters st |}.

Definition set_cache (i : nat) (res : list nat) (st : State) : State :=
  {| visited := visited st; labels := labels st;
     corePoints := corePoints st; neighborsCache := <[i:=Some res]> (neighborsCache st);
     clusters := clusters st |}.

(** [clusters[clusterId] = []]: [clusterId] equals [clusters.length] at the
    only call site, so the assignment appends. *)
Definition open_cluster (st : State) : State :=
  {| visited := visited st; labels := labels st;
     corePoints := corePoints st; neighborsCache := neighborsCache st;
     clusters := clusters st ++ [[]] |}.

(** [clusters[cid].push(j)] *)
Definition push_cluster (cid j : nat) (st : State) : State :=
  {| visited := visited st; labels := labels st;
     corePoints := corePoints st; neighborsCache := neighborsCache st;
     clusters := alter (λ c, c ++ [j]) cid (clusters st) |}.

Definition is_visited (st : State) (j : nat) : bool :=
  match visited st !! j with Some true => true | _ => false end.

(** [labels[j] === -1] *)
Definition is_unlabeled (st : State) (j : nat) : bool :=
  match labels st !! j with Some l => Z.eqb l (-1) | None => false end.

Section run.
Variable points : list T.
Variable options : DbscanOptions.

(** The test of the loop body of [regionQuery] for one [j]. *)
Definition within_eps (i j : nat) : bool :=
  if Nat.eqb i j then Qle_bool 0 (eps options)
  else
    match points !! i, points !! j with
    | Some pi, Some pj => Qle_bool (buildDistance options pi pj) (eps options)
    | _, _ => false
    end.

(** The uncached body of [regionQuery]: [for (j = 0; j < n; j++)] pushing
    every [j] that passes the test. *)
Definition scan_neighbors (i : nat) : list nat :=
  List.filter (within_eps i) (seq 0 (length points)).

Definition regionQuery (i : nat) (st : State) : list nat * State :=
  match neighborsCache st !! i with
  | Some (Some res) => (res, st)
  | _ => let res := scan_neighbors i in (res, set_cache i res st)
  end.

(** [for (k ...) if (!queueIncludes(queue, nb)) queue.push(nb)] *)
Definition enqueue_new (queue jNeigh : list nat) : list nat :=
  fold_left (λ queue nb, if queueIncludes queue nb then queue else queue ++ [nb])
    jNeigh queue.

(** One iteration of the [for (q ...)] loop of [expandCluster], for the
    dequeued index [j]. *)
Definition expand_step (cid j : nat) (queue : list nat) (st : State)
  : list nat * State :=
  let '(queue1, st1) :=
    if negb (is_visited st j) then
      let st := set_visited j st in
      let '(jNeigh, st) := regionQuery j st in
      if Qle_bool (minPts options) (length_number jNeigh + 1) then
        (enqueue_new queue jNeigh, set_core j st)
      else (queue, st)
    else (queue, st) in
  if is_unlabeled st1 j then
    (queue1, push_cluster cid j (set_label j (Z.of_nat cid) st1))
  else (queue1, st1).

(** The loop [for (let q = 0; q < queue.length; q++)], from position [q].
    The queue grows while it is read, so the recursion is on [fuel].  The
    result carries [q] and the queue at the exit of the loop; a run that
    starts at [q = 0] has performed exactly that many iterations. *)
Fixpoint expand_loop (fuel cid q : nat) (queue : list nat) (st : State)
  : option (nat * list nat * State) :=
  match queue !! q with
  | None => Some (q, queue, st)
  | Some j =>
      match fuel with
      | O => None
      | S fuel' =>
          let '(queue', st') := expand_step cid j queue st in
          expand_loop fuel' cid (S q) queue' st'
      end
  end.

Definition expandCluster (fuel seedIndex : nat) (seedNeighbors : list nat) (cid : nat)
  (st : State) : option (nat * list nat * State) :=
  let st := set_label seedIndex (Z.of_nat cid) st in
  let st := set_core seedIndex st in
  let st := push_cluster cid seedIndex st in
  let queue := seedNeighbors in
  expand_loop fuel cid 0 queue st.

(** The body of the main loop for one [i]; the second component is
    [clusterId]. *)
Definition visit (fuel i : nat) (s : State * nat) : option (State * nat) :=
  let '(st, clusterId) := s in
  if is_visited st i then Some (st, clusterId)
  else
    let st := set_visited i st in
    let '(neigh, st) := regionQuery i st in
    if Qlt_bool (length_number neigh + 1) (minPts options) then
      Some (set_label i (-1) st, clusterId)
    else
      match expandCluster fuel i neigh clusterId (open_cluster st) with
      | Some (_, _, st') => Some (st', S clusterId)
      | None => None
      end.

Fixpoint main_loop (fuel : nat) (indices : list nat) (s : State * nat)
  : option (State * nat) :=
  match indices with
  | [] => Some s
  | i :: indices' =>
      match visit fuel i s with
      | Some s' => main_loop fuel indices' s'
      | None => None
      end
  end.

Definition initial : State :=
  let n := length points in
  {| visited := replicate n false;
     labels := replicate n (-1)%Z;
     corePoints := replicate n false;
     neighborsCache := replicate n None;
     clusters := [] |}.

(** Lines 57 to 98: the arrays after the main loop, and [clusterId]. *)
Definition scan (fuel : nat) : option (State * nat) :=
  main_loop fuel (seq 0 (length points)) (initial, 0%nat).

(** [if (labels[i] >= 0 && !corePoints[i]) borderPoints[i] = true] *)
Definition borderPoints (st : State) : list bool :=
  imap (λ i lbl, Z.leb 0 lbl && negb (default false (corePoints st !! i))) (labels st).

(** [for (i ...) if (labels[i] === -1) noise.push(i)] *)
Definition noise (st : State) : list nat :=
  List.filter (is_unlabeled st) (seq 0 (length points)).

Definition to_cluster (i : nat) (pts : list T) : Cluster T :=
  {| c_id := pretty i;
     c_center := mean_latlng (coord options) pts;
     c_points := pts |}.

(** The whole of [dbscan].  Every call of the expansion loop is given
    [points.length] units of fuel. *)
Definition dbscan : outcome (list (Cluster T)) :=
  if negb (Qlt_bool 0 (eps options)) then Thrown "eps must be > 0"
  else if negb (Qle_bool 1 (minPts options)) then Thrown "minPts must be >= 1"
  else
    match scan (length points) with
    | Some (st, _) => Returned (imap to_cluster (groupByCluster points (labels st)))
    | None => Unfinished
    end.

End run.
End dbscan.
Arguments DbscanOptions T : clear implicits.
Arguments DistanceFn T : clear implicits.

End Dbscan.

(** ** index.ts *)

Module Layer.

(** [new mapbox.Marker({ element })] followed by [setLngLat]: a marker is
    identified by the order of its construction. *)
Record Marker (Element : Type) : Type :=
  { marker_id : nat;
    element : option Element;
    lngLat : LatLng }.
Arguments marker_id {Element} _.
Arguments element {Element} _.
Arguments lngLat {Element} _.

(** What the module and the host maps hold between two calls:
    [markers] is the module-level [let markers], [on_map] pairs every
    marker a host map currently renders with the identity of that map,
    [created] counts the markers constructed so far, [zoom_handlers] lists
    the [(map, handler)] pairs registered by [map.on('zoom', _)] and
    [installed] counts the handlers made so far, which identifies them. *)
Record World (Element : Type) : Type :=
  { markers : list (Marker Element);
    on_map : list (nat * Marker Element);
    created : nat;
    zoom_handlers : list (nat * nat);
    installed : nat }.
Arguments markers {Element} _.
Arguments on_map {Element} _.
Arguments created {Element} _.
Arguments zoom_handlers {Element} _.
Arguments installed {Element} _.

Definition DEFAULT_THROTTLE : Q := 200.

Definition dquote : string := String (Ascii.ascii_of_nat 34) EmptyString.

Definition DEFAULT_CLUSTER_HTML {A : Type} (d : list A) : option string :=
  if Nat.eqb (length d) 1 then None
  else Some ("<div class=" ++ dquote ++ "cluster" ++ dquote ++ ">"
             ++ pretty (length d) ++ "</div>")%string.

Section layer.
Context {T : Type} `{Located T}.

(** The DOM side of [htmlToElement]: the first child of a template whose
    [innerHTML] is the trimmed string, and [nodeType]. *)
Context {Node : Type}.
Variable template_firstChild : string → option Node.
Variable nodeType : Node → nat.

Definition ELEMENT_NODE : nat := 1.

(** The host map as one invocation sees it. *)
Record Point : Type := { x : Q; y : Q }.

Record HostMap : Type :=
  { map_id : nat;
    getBounds : option (T → bool);
    project : T → Point }.

Record Options : Type :=
  { throttle : option Q;
    clusterHTML : option (list T → option string) }.

Definition DEFAULT_OPTIONS : Options :=
  {| throttle := Some DEFAULT_THROTTLE;
     clusterHTML := Some DEFAULT_CLUSTER_HTML |}.

(** [{ ...DEFAULT_OPTIONS, ...options }], where [None] is an absent key.  A
    key that is present with the value [undefined], which the spread would
    copy over the default, is not represented. *)
Definition merge_options (options : Options) : Options :=
  {| throttle :=
       match throttle options with Some t => Some t | None => throttle DEFAULT_OPTIONS end;
     clusterHTML :=
       match clusterHTML options with
       | Some f => Some f
       | None => clusterHTML DEFAULT_OPTIONS
       end |}.

Definition htmlToElement (html : string) : outcome Node :=
  match template_firstChild html with
  | Some node =>
      if Nat.eqb (nodeType node) ELEMENT_NODE then Returned node
      else Thrown "Provided HTML must represent a single HTML element."
  | None => Thrown "Provided HTML must represent a single HTML element."
  end.

(** [marker.remove()] for every recorded marker, then [markers = []]. *)
Definition recorded (w : World Node) (id : nat) : bool :=
  existsb (λ marker, Nat.eqb (marker_id marker) id) (markers w).

Definition clearMarkers (w : World Node) : World Node :=
  {| markers := [];
     on_map := List.filter (λ e, negb (recorded w (marker_id e.2))) (on_map w);
     created := created w;
     zoom_handlers := zoom_handlers w;
     installed := installed w |}.

(** One iteration of [for (const group of groups)]. *)
Definition add_marker (map : HostMap) (options : Options) (group : Cluster T)
  (w : World Node) : World Node * outcome unit :=
  let html :=
    match clusterHTML options with
    | Some f => f (c_points group)
    | None => None
    end in
  let element : outcome (option Node) :=
    match html with
    | Some (String c s) =>
        match htmlToElement (String c s) with
        | Returned node => Returned (Some node)
        | Thrown message => Thrown message
        | Unfinished => Unfinished
        end
    | Some EmptyString | None => Returned None
    end in
  match element with
  | Returned element =>
      let marker :=
        {| marker_id := created w; element := element; lngLat := c_center group |} in
      ({| markers := markers w ++ [marker];
          on_map := on_map w ++ [(map_id map, marker)];
          created := S (created w);
          zoom_handlers := zoom_handlers w;
          installed := installed w |}, Returned tt)
  | Thrown message => (w, Thrown message)
  | Unfinished => (w, Unfinished)
  end.

Fixpoint add_markers (map : HostMap) (options : Options) (groups : list (Cluster T))
  (w : World Node) : World Node * outcome unit :=
  match groups with
  | [] => (w, Returned tt)
  | group :: groups' =>
      match add_marker map options group w with
      | (w', Returned _) => add_markers map options groups' w'
      | failed => failed
      end
  end.

(** The function handed to [throttle] in [addClusteredLayer].  [map] is a
    [mapboxgl.Map], so neither the guard [if (!map) return] nor the one in
    [vectorFunc] ever fires. *)
Definition recompute (map : HostMap) (data : list T) (options : Options)
  (w : World Node) : World Node * outcome unit :=
  let w := clearMarkers w in
  match getBounds map with
  | None => (w, Returned tt)
  | Some bounds =>
      let filtered := List.filter bounds data in
      let vectorFunc := λ p, let point := project map p in [x point; y point] in
      match Grid.grid filtered {| Grid.cellSize := 150; Grid.vector := vectorFunc |} with
      | Returned groups => add_markers map options groups w
      | Thrown message => (w, Thrown message)
      | Unfinished => (w, Unfinished)
      end
  end.

(** A controller: what the closure [compute] of one [addClusteredLayer]
    call captures, with [lastTime] of its [throttle] wrapper. *)
Record Controller : Type :=
  { handler : nat;
    layer_map : nat;
    data : list T;
    options : Options;
    lastTime : Q }.

(** [throttle(fn, minInterval)] called at [Date.now() = now]: the second
    component tells whether [fn] ran. *)
Definition compute (now : Q) (map : HostMap) (c : Controller) (w : World Node)
  : Controller * bool * (World Node * outcome unit) :=
  let minInterval :=
    match throttle (options c) with
    | Some t => if Qeq_bool t 0 then 0%Q else t
    | None => 0%Q
    end in
  if Qle_bool minInterval (now - lastTime c) then
    ({| handler := handler c; layer_map := layer_map c; data := data c;
        options := options c; lastTime := now |},
     true, recompute map (data c) (options c) w)
  else (c, false, (w, Returned tt)).

(** [addClusteredLayer(map, data, options)] called at time [now]. *)
Definition addClusteredLayer (now : Q) (map : HostMap) (data : list T)
  (options : Options) (w : World Node) : Controller * (World Node * outcome unit) :=
  let options := merge_options options in
  let c :=
    {| handler := installed w; layer_map := map_id map; data := data;
       options := options; lastTime := 0 |} in
  let w :=
    {| markers := markers w; on_map := on_map w; created := created w;
       zoom_handlers := zoom_handlers w ++ [(map_id map, handler c)];
       installed := S (installed w) |} in
  let '(c, _, r) := compute now map c w in
  (c, r).

(** The returned disposer: [map.off('zoom', compute)]. *)
Definition dispose (c : Controller) (w : World Node) : World Node :=
  {| markers := markers w; on_map := on_map w; created := created w;
     zoom_handlers :=
       List.filter
         (λ e, negb (Nat.eqb e.1 (layer_map c) && Nat.eqb e.2 (handler c)))
         (zoom_handlers w);
     installed := installed w |}.

(** The markers a host map renders. *)
Definition rendered (w : World Node) (map : nat) : list (Marker Node) :=
  (List.filter (λ e, Nat.eqb e.1 map) (on_map w)).*2.

Definition empty_world : World Node :=
  {| markers := []; on_map := []; created := 0; zoom_handlers := [];
     installed := 0 |}.

End layer.
Arguments HostMap T : clear implicits.
Arguments Options T : clear implicits.
Arguments Controller T : clear implicits.

End Layer.

(** * Vocabulary of the statements *)

(** ** Concrete inputs *)

(** The grid scenario of the specification: two points a thousandth of a
    degree apart, every vector at the origin, cells of 150 units. *)
Definition scenario1_data : list LatLng :=
  [ {| lat := 0; lng := 0 |}; {| lat := 0; lng := 1 # 1000 |} ].

Definition scenario1_options : Grid.GridOptions LatLng :=
  {| Grid.cellSize := 150; Grid.vector := λ _, [0%Q; 0%Q] |}.

Definition nonpositive_options (c : Q) : Grid.GridOptions LatLng :=
  {| Grid.cellSize := c; Grid.vector := λ p, [lat p; lng p] |}.

(** A host map showing everything (or, with [loaded = false], one whose
    bounds are not available), a DOM whose templates hold one element, and
    a single data point. *)
Definition demo_map (id : nat) (loaded : bool) : Layer.HostMap LatLng :=
  {| Layer.map_id := id;
     Layer.getBounds := if loaded then Some (λ _, true) else None;
     Layer.project := λ p, {| Layer.x := lng p; Layer.y := lat p |} |}.

Definition demo_firstChild (html : string) : option string := Some html.
Definition demo_nodeType (node : string) : nat := 1.

Definition demo_data : list LatLng := [ {| lat := 1; lng := 2 |} ].

Definition demo_options : Layer.Options LatLng :=
  {| Layer.throttle := None; Layer.clusterHTML := None |}.

(** ** Worlds of the marker layer *)

(** Marker identities are handed out in order of construction: every
    marker the module or a map holds was constructed already. *)
Definition fresh_ids {Node : Type} (w : Layer.World Node) : Prop :=
  Forall (λ marker, Layer.marker_id marker < Layer.created w) (Layer.markers w) ∧
  Forall (λ e, Layer.marker_id e.2 < Layer.created w) (Layer.on_map w).

(** What one loop iteration keeps: identities stay fresh, every recorded
    marker is on the map of the invocation, and an entry of [on_map] is
    either an old one or a marker constructed by this invocation. *)
Definition placed {T Node : Type} (map : Layer.HostMap T)
  (w0 w : Layer.World Node) : Prop :=
  fresh_ids w ∧
  Layer.created w0 ≤ Layer.created w ∧
  (∀ marker, marker ∈ Layer.markers w →
     marker ∈ Layer.markers w0 ∨
     (Layer.map_id map, marker) ∈ Layer.on_map w ∧
     Layer.created w0 ≤ Layer.marker_id marker) ∧
  (∀ e, e ∈ Layer.on_map w →
     e ∈ Layer.on_map w0 ∨ Layer.created w0 ≤ Layer.marker_id e.2) ∧
  (∀ e, e ∈ Layer.on_map w0 → e ∈ Layer.on_map w).

(** One layer installed on map 0 at time 1000, with a marker for its point. *)
Definition demo_installed : Layer.Controller LatLng * Layer.World string :=
  let '(c, (w, _)) :=
    Layer.addClusteredLayer demo_firstChild demo_nodeType 1000 (demo_map 0 true)
      demo_data demo_options Layer.empty_world in
  (c, w).

(** The zoom handler of that layer fires at time 2000, when the map has no
    bounds to give. *)
Definition demo_zoomed_without_bounds : bool * Layer.World string :=
  let '(_, ran, (w, _)) :=
    Layer.compute demo_firstChild demo_nodeType 2000 (demo_map 0 false)
      demo_installed.1 demo_installed.2 in
  (ran, w).

(** A second layer installed on another map, map 1, afterwards. *)
Definition demo_second_installed : Layer.Controller LatLng * Layer.World string :=
  let '(c, (w, _)) :=
    Layer.addClusteredLayer demo_firstChild demo_nodeType 1500 (demo_map 1 true)
      demo_data demo_options demo_installed.2 in
  (c, w).

(** The same two layers, as two bare invocations of the recompute routine
    from the empty world. *)
Definition demo_first_run : Layer.World string * outcome unit :=
  Layer.recompute demo_firstChild demo_nodeType (demo_map 0 true) demo_data
    (Layer.merge_options demo_options) Layer.empty_world.

Definition demo_second_run : Layer.World string * outcome unit :=
  Layer.recompute demo_firstChild demo_nodeType (demo_map 1 true) demo_data
    (Layer.merge_options demo_options) demo_first_run.1.

(** ** Labels and the groups they induce *)

(** [labels[i]], with -1 where the array has no such slot. *)
Definition label_at (labels : list Z) (i : nat) : Z :=
  default (-1)%Z (labels !! i).

(** The items of a list at the given indices. *)
Definition select {A : Type} (items : list A) (indices : list nat) : list A :=
  omap (λ i, items !! i) indices.

(** The indices below [i], in increasing order, that carry label [k]. *)
Definition labelled (labels : list Z) (k : Z) (i : nat) : list nat :=
  List.filter (λ j, Z.eqb (label_at labels j) k) (seq 0 i).

(** The [Map] of [groupByCluster] after the items below [i]: one entry per
    non-negative label met so far, holding the items that carry it. *)
Definition grouped {A : Type} (items : list A) (labels : list Z) (i : nat)
  (m : list (Z * list A)) : Prop :=
  NoDup m.*1 ∧
  m = map (λ k, (k, select items (labelled labels k i))) m.*1 ∧
  ∀ k, k ∈ m.*1 ↔ (0 ≤ k)%Z ∧ ∃ j, j < i ∧ label_at labels j = k.

(** ** Runs of dbscan *)

Section dbscan_vocabulary.
Context {T : Type}.
Variable Math_sqrt : Q → Q.
Variable points : list T.
Variable options : Dbscan.DbscanOptions T.

(** The neighbor list of point [i]: what [regionQuery(i)] returns. *)
Definition neighbors (i : nat) : list nat :=
  Dbscan.scan_neighbors Math_sqrt points options i.

(** The density test as both call sites write it:
    [neigh.length + 1 >= minPts]. *)
Definition dense (i : nat) : bool :=
  Qle_bool (Dbscan.minPts options) (length_number (neighbors i) + 1).

(** The arrays of a state read at one index. *)
Definition label (st : Dbscan.State) (i : nat) : Z :=
  label_at (Dbscan.labels st) i.

Definition seen (st : Dbscan.State) (i : nat) : bool := Dbscan.is_visited st i.

Definition core (st : Dbscan.State) (i : nat) : bool :=
  default false (Dbscan.corePoints st !! i).

(** The arrays have one slot per point and the cache holds nothing but
    neighbor lists. *)
Record sized (st : Dbscan.State) : Prop :=
  { sized_visited : length (Dbscan.visited st) = length points;
    sized_labels : length (Dbscan.labels st) = length points;
    sized_core : length (Dbscan.corePoints st) = length points;
    sized_cache : length (Dbscan.neighborsCache st) = length points;
    cache_ok : ∀ i res,
      Dbscan.neighborsCache st !! i = Some (Some res) → res = neighbors i }.

(** What holds of the three arrays whenever a loop is at its head; [top]
    is the largest cluster id in use. *)
Record consistent (top : Z) (st : Dbscan.State) : Prop :=
  { con_sized : sized st;
    con_range : ∀ i, label st i = (-1)%Z ∨ (0 ≤ label st i ≤ top)%Z;
    con_seen : ∀ i, (0 ≤ label st i)%Z → seen st i = true;
    con_core : ∀ i, core st i = true ↔ seen st i = true ∧ dense i = true;
    con_core_label : ∀ i, core st i = true → (0 ≤ label st i)%Z }.

(** Every neighbor of a core point carries a cluster id no larger than
    the core point's own, or is still waiting in the queue of the cluster
    [cid] under expansion, to which the core point belongs. *)
Definition absorbed (cid : Z) (pending : list nat) (st : Dbscan.State) : Prop :=
  ∀ p q, core st p = true → q ∈ neighbors p →
    (0 ≤ label st q ≤ label st p)%Z ∨ (label st p = cid ∧ q ∈ pending).

(** Direct density-reachability between two dense points. *)
Definition edge (a b : nat) : Prop :=
  dense a = true ∧ dense b = true ∧ b ∈ neighbors a.

(** Core points with the same label (below [bound]) are linked by a chain
    of such steps, taken in either direction. *)
Definition linked (bound : Z) (st : Dbscan.State) : Prop :=
  ∀ p p', core st p = true → core st p' = true →
    label st p = label st p' → (label st p < bound)%Z → rtsc edge p p'.

(** Every core point of the cluster under expansion is reached from its
    seed [s] by a chain of such steps. *)
Definition rooted (cid : Z) (s : nat) (st : Dbscan.State) : Prop :=
  ∀ p, core st p = true → label st p = cid → rtc edge s p.

(** Every queued index is a neighbor of a core point of the cluster under
    expansion. *)
Definition sourced (cid : Z) (queue : list nat) (st : Dbscan.State) : Prop :=
  ∀ x, x ∈ queue → ∃ p, core st p = true ∧ label st p = cid ∧ x ∈ neighbors p.

(** The main loop at its head, about to look at index [i], with
    [clusterId = cid]. *)
Record scanned (cid i : nat) (st : Dbscan.State) : Prop :=
  { sc_consistent : consistent (Z.of_nat cid - 1) st;
    sc_absorbed : absorbed (-1) [] st;
    sc_linked : linked (Z.of_nat cid) st;
    sc_seen : ∀ j, j < i → seen st j = true }.

(** The expansion loop of cluster [cid], seeded at [s], at its head with
    loop index [q]. *)
Record expanding (cid s q : nat) (queue : list nat) (st : Dbscan.State) : Prop :=
  { ex_consistent : consistent (Z.of_nat cid) st;
    ex_absorbed : absorbed (Z.of_nat cid) (drop q queue) st;
    ex_processed : ∀ k x, k < q → queue !! k = Some x → (0 ≤ label st x)%Z;
    ex_nodup : NoDup queue;
    ex_bound : ∀ x, x ∈ queue → x < length points;
    ex_linked : linked (Z.of_nat cid) st;
    ex_rooted : rooted (Z.of_nat cid) s st;
    ex_sourced : sourced (Z.of_nat cid) queue st }.

(** The queue after the iteration of the expansion loop that dequeues [j]:
    it grows only when [j] is visited for the first time and is dense. *)
Definition step_queue (j : nat) (queue : list nat) (st : Dbscan.State) : list nat :=
  if negb (seen st j) && dense j then Dbscan.enqueue_new queue (neighbors j) else queue.

(** The indices of the points, in increasing order, that carry label [k]. *)
Definition members (st : Dbscan.State) (k : Z) : list nat :=
  labelled (Dbscan.labels st) k (length points).

End dbscan_vocabulary.

(** The same options with another radius. *)
Definition with_eps {T : Type} (e : Q) (o : Dbscan.DbscanOptions T)
  : Dbscan.DbscanOptions T :=
  {| Dbscan.eps := e;
     Dbscan.minPts := Dbscan.minPts o;
     Dbscan.vector := Dbscan.vector o;
     Dbscan.coord := Dbscan.coord o;
     Dbscan.distance := Dbscan.distance o |}.

(** ** Concrete inputs for dbscan *)

(** A square root for the examples, exact on the squares of rationals (and
    rounded down to a multiple of the reduced denominator elsewhere). *)
Definition sqrt_floor (q : Q) : Q :=
  let r := Qred q in
  Z.sqrt (Qnum r * Z.pos (Qden r)) # Qden r.

(** Points on a line under the default Euclidean distance. *)
Definition line_options (e m : Q) : Dbscan.DbscanOptions Q :=
  {| Dbscan.eps := e;
     Dbscan.minPts := m;
     Dbscan.vector := λ x, [x];
     Dbscan.coord := λ x, {| lat := x; lng := 0 |};
     Dbscan.distance := None |}.

(** Scenario 3 of the specification: four points within [eps = 1] of one
    another, [minPts = 5]. *)
Definition scenario3_points : list Q := [0; 1 # 4; 1 # 2; 3 # 4]%Q.

(** Two dense groups, around 1 and around 7, and the point 4 between
    them, within [eps = 2] of the core points 2 and 6 and of nothing else. *)
Definition bridge_points : list Q := [0; 1; 1; 2; 4; 6; 7; 7; 8]%Q.

(** The point 0 (index 6) is within 2 of the point 2 only, and within 3 of
    the point -3 as well, which comes first.  With [minPts = 5] no point
    has exactly four neighbors at radius 2 or 3, so counting the point
    itself once or twice makes no difference on this input. *)
Definition drift_points : list Q := [-3; -6; -6; -6; -6; -6; 0; 2; 4; 4; 4; 4]%Q.

(** Four points under a distance that is not symmetric: 3 is at distance
    1 from 2 but 2 is far from 3, and 3 is at distance 2 from 0 but 0 at
    distance 1 from 3. *)
Definition one_way_points : list nat := [0; 1; 2; 3].

Definition one_way_distance (a b : nat) : Q :=
  match a, b with
  | 0, 1 | 1, 0 => 1
  | 0, 3 => 2
  | 2, 3 => 1
  | 3, 0 => 1
  | _, _ => 9
  end.

Definition one_way_options (e : Q) : Dbscan.DbscanOptions nat :=
  {| Dbscan.eps := e;
     Dbscan.minPts := 2;
     Dbscan.vector := λ _, [];
     Dbscan.coord := λ _, {| lat := 0; lng := 0 |};
     Dbscan.distance := Some one_way_distance |}.

(** ** Cells of the grid *)

(** The points of [seen] whose key is [k], in the order they have there. *)
Definition cell_of {T : Type} (key : T → string) (seen : list T) (k : string)
  : list T :=
  List.filter (λ p, String.eqb (key p) k) seen.

(** The buckets of [grid] after the points of [seen]: one entry per key
    met so far, holding the points of that key in the order they came. *)
Definition celled {T : Type} (key : T → string) (seen : list T)
  (buckets : list (string * list T)) : Prop :=
  NoDup buckets.*1 ∧
  buckets = map (λ k, (k, cell_of key seen k)) buckets.*1 ∧
  ∀ k, k ∈ buckets.*1 ↔ ∃ p, p ∈ seen ∧ key p = k.

(** [ids] lists keys in the order of their first occurrence in [keys]:
    an id that comes earlier occurs in [keys] before every occurrence of
    an id that comes later. *)
Definition in_order_of_first_occurrence (keys ids : list string) : Prop :=
  ∀ i j k1 k2, ids !! i = Some k1 → ids !! j = Some k2 → i < j →
    ∃ a, keys !! a = Some k1 ∧ ∀ b, keys !! b = Some k2 → a < b.

(** Every character of a string satisfies [P]. *)
Fixpoint all_chars (P : Ascii.ascii → Prop) (s : string) : Prop :=
  match s with
  | EmptyString => True
  | String c s' => P c ∧ all_chars P s'
  end.

(** The characters a decimal integer is written with. *)
Definition numeric_char (c : Ascii.ascii) : Prop :=
  (48 ≤ Ascii.nat_of_ascii c ≤ 57) ∨ Ascii.nat_of_ascii c = 45.

Definition semicolon : Ascii.ascii := Ascii.ascii_of_nat 59.

(** ** More on runs of dbscan *)

Section dbscan_vocabulary_more.
Context {T : Type}.
Variable Math_sqrt : Q → Q.
Variable points : list T.
Variable options : Dbscan.DbscanOptions T.

(** Every point that carries a cluster label is a core point or a neighbor
    of a core point with the same label. *)
Definition justified (st : Dbscan.State) : Prop :=
  ∀ i, (0 ≤ label st i)%Z →
    core st i = true ∨
    ∃ p, core st p = true ∧ label st p = label st i ∧
         i ∈ neighbors Math_sqrt points options p.

(** Every cluster id below [cid] is the label of some core point. *)
Definition seeded (cid : nat) (st : Dbscan.State) : Prop :=
  ∀ c, c < cid →
    ∃ s, s < length points ∧ core st s = true ∧ label st s = Z.of_nat c.

End dbscan_vocabulary_more.

(** ** Bookkeeping of the marker layer *)

(** Every marker a host map renders is in the module's list. *)
Definition tracked {Node : Type} (w : Layer.World Node) : Prop :=
  Forall (λ e, e.2 ∈ Layer.markers w) (Layer.on_map w).

(** Handler identities are handed out in order of installation: every
    registered handler was installed already. *)
Definition fresh_handlers {Node : Type} (w : Layer.World Node) : Prop :=
  Forall (λ e, e.2 < Layer.installed w) (Layer.zoom_handlers w).

(** [options.clusterHTML?.(group.points)] *)
Definition html_of {T : Type} (options : Layer.Options T) (group : Cluster T)
  : option string :=
  match Layer.clusterHTML options with
  | Some f => f (c_points group)
  | None => None
  end.

(** A DOM whose templates hold a text node, which is no element. *)
Definition text_firstChild (html : string) : option string := Some html.
Definition text_nodeType (node : string) : nat := 3.

Section layer_vocabulary.
Context {T : Type} `{Located T} {Node : Type}.
Variable template_firstChild : string → option Node.
Variable nodeType : Node → nat.

(** The marker one loop iteration builds for [group]: it sits at the
    center of the group and carries the element its HTML parses to, or
    none when there is no HTML or the HTML is the empty string. *)
Definition marker_for (options : Layer.Options T) (marker : Layer.Marker Node)
  (group : Cluster T) : Prop :=
  Layer.lngLat marker = c_center group ∧
  match html_of options group with
  | Some (String c s) =>
      ∃ node,
        Layer.htmlToElement template_firstChild nodeType (String c s) = Returned node ∧
        Layer.element marker = Some node
  | Some EmptyString | None => Layer.element marker = None
  end.

(** The HTML of [group] is a non-empty string that [htmlToElement]
    refuses. *)
Definition rejected (options : Layer.Options T) (group : Cluster T) : Prop :=
  ∃ html,
    html_of options group = Some html ∧ html ≠ EmptyString ∧
    Layer.htmlToElement template_firstChild nodeType html
      = Thrown "Provided HTML must represent a single HTML element.".

(** The groups one invocation iterates over:
    [grid(data.filter(p => bounds.contains(p)), { cellSize: 150, vector })]. *)
Definition layer_groups (map : Layer.HostMap T) (bounds : T → bool) (data : list T)
  : outcome (list (Cluster T)) :=
  Grid.grid (List.filter bounds data)
    {| Grid.cellSize := 150;
       Grid.vector := λ p,
         let point := Layer.project map p in [Layer.x point; Layer.y point] |}.

End layer_vocabulary.

(** A controller of the demo layer that never ran, with a throttle of
    200 milliseconds. *)
Definition demo_controller : Layer.Controller LatLng :=
  {| Layer.handler := 0;
     Layer.layer_map := 0;
     Layer.data := demo_data;
     Layer.options := Layer.merge_options demo_options;
     Layer.lastTime := 0 |}.

(** Grid options whose [vector] gives no component at all. *)
Definition bare_options : Grid.GridOptions LatLng :=
  {| Grid.cellSize := 150; Grid.vector := λ _, [] |}.

(** The order of the floored numbers, from [-Infinity] up to [Infinity];
    NaN compares with nothing. *)
Definition floored_le (a b : Grid.floored) : Prop :=
  match a, b with
  | Grid.FlNaN, _ | _, Grid.FlNaN => False
  | Grid.FlNegInfinity, _ => True
  | _, Grid.FlInfinity => True
  | Grid.FlInt z1, Grid.FlInt z2 => (z1 ≤ z2)%Z
  | _, _ => False
  end.

(** Three points of the cell of the origin, for cells of 150 units. *)
Definition box_data : list LatLng :=
  [ {| lat := 0; lng := 0 |}; {| lat := 70; lng := 20 |};
    {| lat := 100; lng := 100 |} ].

(** A point alone in its cell followed by two points that share the next
    cell: under the default options the first cluster has no HTML and the
    second has. *)
Definition demo_mixed_data : list LatLng :=
  [ {| lat := 1; lng := 2 |}; {| lat := 1; lng := 200 |}; {| lat := 2; lng := 201 |} ].

Definition demo_mixed_groups : list (Cluster LatLng) :=
  [ Grid.to_cluster ("0;0"%string, [ {| lat := 1; lng := 2 |} ]);
    Grid.to_cluster
      ("1;0"%string, [ {| lat := 1; lng := 200 |}; {| lat := 2; lng := 201 |} ]) ].

Definition demo_refused_group : Cluster LatLng :=
  Grid.to_cluster
    ("1;0"%string, [ {| lat := 1; lng := 200 |}; {| lat := 2; lng := 201 |} ]).

(** * Properties of grid *)

Section grid_facts.
Context {T : Type} `{Located T}.
Implicit Types (buckets : list (string * list T)) (data : list T).

Lemma bucket_push_concat buckets id point :
  concat (Grid.bucket_push buckets id point).*2 ≡ₚ concat buckets.*2 ++ [point].
Proof.
  induction buckets as [|[k ps] rest IH]; simpl.
  - reflexivity.
  - destruct (String.eqb k id); simpl.
    + rewrite <- !(assoc_L (++)). apply Permutation_app_head.
      apply Permutation_app_comm.
    + rewrite IH. by rewrite (assoc_L (++)).
Qed.

Lemma bucket_push_inv (P Q : list T → Prop) buckets id point :
  (∀ ps, P ps → Q ps) →
  (∀ ps, P ps → Q (ps ++ [point])) →
  Q [point] →
  Forall (λ e, P e.2) buckets →
  Forall (λ e, Q e.2) (Grid.bucket_push buckets id point).
Proof.
  intros Hkeep Hpush Hnew. induction 1 as [|[k ps] rest Hps Hrest IH]; simpl.
  - repeat constructor. exact Hnew.
  - destruct (String.eqb k id); constructor; simpl in *; auto.
    eapply Forall_impl; [exact Hrest|]. intros e; apply Hkeep.
Qed.

Lemma fill_buckets_concat options data buckets :
  concat (Grid.fill_buckets options data buckets).*2 ≡ₚ concat buckets.*2 ++ data.
Proof.
  unfold Grid.fill_buckets. revert buckets.
  induction data as [|p data IH]; intros buckets; simpl.
  - by rewrite (right_id_L [] (++)).
  - rewrite IH, bucket_push_concat. by rewrite <- (assoc_L (++)).
Qed.

Lemma fill_buckets_ordered options data seen buckets :
  Forall (λ e, e.2 ≠ [] ∧ sublist e.2 seen) buckets →
  Forall (λ e, e.2 ≠ [] ∧ sublist e.2 (seen ++ data))
    (Grid.fill_buckets options data buckets).
Proof.
  unfold Grid.fill_buckets. revert seen buckets.
  induction data as [|p data IH]; intros seen buckets Hb; simpl.
  - by rewrite (right_id_L [] (++)).
  - replace (seen ++ p :: data) with ((seen ++ [p]) ++ data)
      by (by rewrite <- (assoc_L (++))).
    apply IH.
    apply (bucket_push_inv (λ ps, ps ≠ [] ∧ sublist ps seen)
             (λ ps, ps ≠ [] ∧ sublist ps (seen ++ [p]))); [| | |exact Hb].
    + intros ps [Hne Hsub]. split; [exact Hne|]. by apply sublist_inserts_r.
    + intros ps [Hne Hsub]. split; [by destruct ps|]. by apply sublist_app.
    + split; [done|]. by apply sublist_inserts_l.
Qed.

Lemma to_cluster_points buckets :
  map c_points (map Grid.to_cluster buckets) = buckets.*2.
Proof. induction buckets as [|e rest IH]; simpl; [done|]. by rewrite IH. Qed.

(** C2.  Whatever the cell size and the vector accessor, [grid] returns,
    and the arrays of points of the returned clusters, taken together, are
    the input as a multiset: no point is dropped or duplicated.  No
    returned cluster is empty, and the points of a cluster come in the
    relative order they have in the input. *)
Theorem grid_partition data (options : Grid.GridOptions T) :
  ∃ clusters,
    Grid.grid data options = Returned clusters ∧
    concat (map c_points clusters) ≡ₚ data ∧
    Forall (λ c, c_points c ≠ [] ∧ sublist (c_points c) data) clusters.
Proof.
  eexists. split; [reflexivity|]. split.
  - rewrite to_cluster_points. by rewrite fill_buckets_concat.
  - pose proof (fill_buckets_ordered options data [] []) as Hord.
    specialize (Hord (Forall_nil_2 _)). simpl in Hord.
    apply Forall_fmap. eapply Forall_impl; [exact Hord|]. by intros e.
Qed.

(** C5, as the code has it.  [grid] does not look at the sign of
    [cellSize]: with a zero or negative cell size it still returns a
    cluster list, and that list is a partition of the input. *)
Theorem grid_nonpositive_cellSize_returns data (options : Grid.GridOptions T) :
  (Grid.cellSize options <= 0)%Q →
  ∃ clusters,
    Grid.grid data options = Returned clusters ∧
    concat (map c_points clusters) ≡ₚ data.
Proof.
  intros _. eexists. split; [reflexivity|].
  rewrite to_cluster_points. by rewrite fill_buckets_concat.
Qed.

End grid_facts.

(** C5 fails on the code: with [cellSize = 0], and with [cellSize = -150],
    [grid] returns a cluster instead of throwing. *)
Lemma grid_nonpositive_cellSize_no_throw :
  (Grid.cellSize (nonpositive_options 0) <= 0)%Q ∧
  (Grid.cellSize (nonpositive_options (-150)) <= 0)%Q ∧
  (∃ c1 c2, Grid.grid scenario1_data (nonpositive_options (-150)) = Returned [c1; c2]
        ∧ c_id c1 = "0;0"%string ∧ c_id c2 = "0;-1"%string) ∧
  (∃ c1 c2, Grid.grid scenario1_data (nonpositive_options 0) = Returned [c1; c2]
        ∧ c_id c1 = "NaN;NaN"%string ∧ c_id c2 = "NaN;Infinity"%string) ∧
  ¬ (∀ data (options : Grid.GridOptions LatLng),
       (Grid.cellSize options <= 0)%Q →
       ∃ message, Grid.grid data options = Thrown message).
Proof.
  split; [by vm_compute|]. split; [by vm_compute|].
  split; [do 2 eexists; split; [vm_compute; reflexivity|by vm_compute]|].
  split; [do 2 eexists; split; [vm_compute; reflexivity|by vm_compute]|].
  intros Hthrow.
  destruct (Hthrow scenario1_data (nonpositive_options 0)) as [m Hm];
    [by vm_compute|]. discriminate Hm.
Qed.

Lemma grid_nonpositive_cellSize_returns_witness :
  ∃ clusters,
    Grid.grid scenario1_data (nonpositive_options (-150)) = Returned clusters ∧
    concat (map c_points clusters) ≡ₚ scenario1_data.
Proof.
  apply (grid_nonpositive_cellSize_returns scenario1_data (nonpositive_options (-150))).
  by vm_compute.
Defined.

(** * Properties of the marker layer *)

Section layer_facts.
Context {T : Type} `{Located T} {Node : Type}.
Variable template_firstChild : string → option Node.
Variable nodeType : Node → nat.
Local Abbreviation placed := (@placed T Node).

Implicit Types (w : Layer.World Node) (map : Layer.HostMap T)
  (options : Layer.Options T) (marker : Layer.Marker Node).

Abbreviation add_marker := (Layer.add_marker template_firstChild nodeType).
Abbreviation add_markers := (Layer.add_markers template_firstChild nodeType).
Abbreviation recompute := (Layer.recompute template_firstChild nodeType).

Lemma filter_swap_snd {A B : Type} (f : A → bool) (g : B → bool) (l : list (A * B)) :
  (List.filter (λ e, f e.1) (List.filter (λ e, g e.2) l)).*2 =
  List.filter g (List.filter (λ e, f e.1) l).*2.
Proof.
  induction l as [|[a b] l IH]; simpl; [done|].
  destruct (g b) eqn:Hg, (f a) eqn:Hf; simpl; rewrite ?Hg, ?Hf; simpl;
    try f_equal; exact IH.
Qed.

Lemma recorded_spec w id :
  Layer.recorded w id = true ↔ id ∈ map Layer.marker_id (Layer.markers w).
Proof.
  unfold Layer.recorded. rewrite existsb_exists, list_elem_of_fmap.
  split.
  - intros (marker & Hin & Heq). apply Nat.eqb_eq in Heq.
    exists marker. split; [done|]. by apply list_elem_of_In.
  - intros (marker & -> & Hin). exists marker. split.
    + by apply list_elem_of_In.
    + apply Nat.eqb_refl.
Qed.

Lemma clearMarkers_on_map w e :
  e ∈ Layer.on_map (Layer.clearMarkers w) ↔
  e ∈ Layer.on_map w ∧ Layer.marker_id e.2 ∉ map Layer.marker_id (Layer.markers w).
Proof.
  unfold Layer.clearMarkers; simpl.
  rewrite list_elem_of_In, filter_In, <- list_elem_of_In, <- recorded_spec.
  destruct (Layer.recorded w _); simpl; intuition congruence.
Qed.

Lemma clearMarkers_fresh w : fresh_ids w → fresh_ids (Layer.clearMarkers w).
Proof.
  intros [_ Hmap]. split; simpl; [constructor|].
  rewrite Forall_forall in Hmap. apply Forall_forall. intros e He.
  apply Hmap. apply list_elem_of_In. apply list_elem_of_In, filter_In in He.
  tauto.
Qed.

Lemma placed_refl map w : fresh_ids w → placed map w w.
Proof. intros Hf. split; [done|]. split; [lia|]. split; [|split]; auto. Qed.

Lemma add_marker_placed map options group w0 w w' r :
  placed map w0 w →
  add_marker map options group w = (w', r) →
  placed map w0 w'.
Proof.
  intros Hp Hadd. unfold Layer.add_marker in Hadd.
  destruct (match match Layer.clusterHTML options with
                  | Some f => f (c_points group) | None => None end with
            | Some (String c s) => _ | _ => _ end) as [el|msg|] in Hadd;
    injection Hadd as <- <-; [|exact Hp..].
  destruct Hp as ([Hf1 Hf2] & Hle & Hmk & Hon & Hkeep).
  split; [split; simpl|]; [| |simpl; split; [lia|]; split; [|split]].
  - apply Forall_app_2.
    + eapply Forall_impl; [exact Hf1|]. simpl. intros; lia.
    + repeat constructor; simpl; lia.
  - apply Forall_app_2.
    + eapply Forall_impl; [exact Hf2|]. simpl. intros; lia.
    + repeat constructor; simpl; lia.
  - intros marker [Hin|Hin%list_elem_of_singleton]%elem_of_app.
    + destruct (Hmk _ Hin) as [?|[? ?]]; [by left|right].
      split; [|done]. apply elem_of_app. by left.
    + subst marker. right. split; [|done].
      apply elem_of_app. right. by apply list_elem_of_singleton.
  - intros e [Hin|Hin%list_elem_of_singleton]%elem_of_app.
    + by apply Hon.
    + subst e. by right.
  - intros e He. apply elem_of_app. left. by apply Hkeep.
Qed.

Lemma add_markers_placed map options groups w0 w w' r :
  placed map w0 w →
  add_markers map options groups w = (w', r) →
  placed map w0 w'.
Proof.
  revert w. induction groups as [|group groups IH]; intros w Hp Hadd; simpl in Hadd.
  - by injection Hadd as <- <-.
  - destruct (add_marker map options group w) as [w1 r1] eqn:Hone.
    pose proof (add_marker_placed _ _ _ _ _ _ _ Hp Hone) as Hp1.
    destruct r1; [by eapply IH|by injection Hadd as <- <-..].
Qed.

Lemma recompute_placed map data options w w' r :
  fresh_ids w →
  recompute map data options w = (w', r) →
  placed map (Layer.clearMarkers w) w'.
Proof.
  intros Hf Hre. unfold Layer.recompute in Hre.
  pose proof (placed_refl map _ (clearMarkers_fresh _ Hf)) as Hp.
  destruct (Layer.getBounds map) as [bounds|]; [|by injection Hre as <- <-].
  destruct (Grid.grid _ _) as [groups|msg|] in Hre;
    [by eapply add_markers_placed|by injection Hre as <- <-..].
Qed.

Lemma recompute_fresh map data options w w' r :
  fresh_ids w → recompute map data options w = (w', r) → fresh_ids w'.
Proof. intros Hf Hre. by destruct (recompute_placed _ _ _ _ _ _ Hf Hre). Qed.

Lemma compute_fresh now map c w c' ran w' r :
  fresh_ids w →
  Layer.compute template_firstChild nodeType now map c w = (c', ran, (w', r)) →
  fresh_ids w'.
Proof.
  intros Hf. unfold Layer.compute. destruct (Qle_bool _ _).
  - intros [= _ _ Hre]. by eapply recompute_fresh.
  - by intros [= _ _ <- _].
Qed.

Lemma addClusteredLayer_fresh now map data options w c' w' r :
  fresh_ids w →
  Layer.addClusteredLayer template_firstChild nodeType now map data options w
    = (c', (w', r)) →
  fresh_ids w'.
Proof.
  intros Hf. unfold Layer.addClusteredLayer.
  destruct (Layer.compute _ _ _ _ _ _) as [[c1 ran] [w1 r1]] eqn:Hc.
  intros [= _ <- _]. eapply compute_fresh; [|exact Hc]. exact Hf.
Qed.

Lemma dispose_fresh (c : Layer.Controller T) w :
  fresh_ids w → fresh_ids (Layer.dispose c w).
Proof. by intros [? ?]. Qed.

Lemma empty_world_fresh : fresh_ids (@Layer.empty_world Node).
Proof. split; constructor. Qed.

(** C3, as the code has it.  When [getBounds] gives nothing the invocation
    creates no marker, but [clearMarkers] has run before the bounds were
    read: the call returns normally, the module's list is empty afterwards
    and a host map keeps exactly those of its markers the list did not
    hold. *)
Theorem recompute_without_bounds_clears map data options w :
  Layer.getBounds map = None →
  ∃ w',
    recompute map data options w = (w', Returned tt) ∧
    Layer.markers w' = [] ∧
    Layer.created w' = Layer.created w ∧
    ∀ m, Layer.rendered w' m =
         List.filter (λ marker, negb (Layer.recorded w (Layer.marker_id marker)))
           (Layer.rendered w m).
Proof.
  intros Hb. exists (Layer.clearMarkers w). unfold Layer.recompute. rewrite Hb.
  repeat split. intros m. unfold Layer.rendered, Layer.clearMarkers; simpl.
  apply (filter_swap_snd (λ m', Nat.eqb m' m)
           (λ marker, negb (Layer.recorded w (Layer.marker_id marker)))).
Qed.

(** C4, as the code has it.  The marker list belongs to the module, not to
    a controller.  In a world whose marker identities are fresh, as they
    are in the empty world and after every operation of the module, let
    one controller's invocation run, then any controller's, on any map:
    every marker the first invocation recorded was on the first
    controller's map after the first invocation and is on no map after the
    second. *)
Theorem recompute_clears_other_layers mapA dataA optionsA mapB dataB optionsB
    w wA rA wB rB :
  fresh_ids w →
  recompute mapA dataA optionsA w = (wA, rA) →
  recompute mapB dataB optionsB wA = (wB, rB) →
  ∀ marker, marker ∈ Layer.markers wA →
    marker ∈ Layer.rendered wA (Layer.map_id mapA) ∧
    ∀ m, marker ∉ Layer.rendered wB m.
Proof.
  intros Hf HA HB marker Hin.
  pose proof (recompute_placed _ _ _ _ _ _ Hf HA) as (HfA & _ & HmkA & _ & _).
  pose proof (recompute_placed _ _ _ _ _ _ HfA HB) as (_ & _ & _ & HonB & _).
  split.
  - destruct (HmkA _ Hin) as [Hnil|[Hon _]]; [by apply elem_of_nil in Hnil|].
    unfold Layer.rendered. apply list_elem_of_fmap.
    exists (Layer.map_id mapA, marker). split; [done|].
    apply list_elem_of_In, filter_In. split; [by apply list_elem_of_In|].
    apply Nat.eqb_refl.
  - intros m Hren. unfold Layer.rendered in Hren.
    apply list_elem_of_fmap in Hren as ([m' marker'] & Heq & Hon).
    simpl in Heq; subst marker'.
    apply list_elem_of_In, filter_In in Hon as [Hon _].
    apply list_elem_of_In in Hon.
    destruct (HonB _ Hon) as [Hold|Hnew].
    + apply clearMarkers_on_map in Hold as [_ Hno]. apply Hno.
      apply list_elem_of_fmap. by exists marker.
    + simpl in Hnew. destruct HfA as [HfA _].
      rewrite Forall_forall in HfA. specialize (HfA marker Hin).
      simpl in *. lia.
Qed.

End layer_facts.

(** C3 fails on the code: a layer is installed and shows one marker; its
    handler then runs while [getBounds] gives nothing, and the marker is
    gone from the map. *)
Lemma recompute_without_bounds_not_noop :
  Layer.getBounds (demo_map 0 false) = None ∧
  demo_zoomed_without_bounds.1 = true ∧
  length (Layer.rendered demo_installed.2 0) = 1 ∧
  Layer.rendered demo_zoomed_without_bounds.2 0 = [] ∧
  Layer.rendered demo_zoomed_without_bounds.2 0 ≠ Layer.rendered demo_installed.2 0.
Proof. by vm_compute. Qed.

Lemma recompute_without_bounds_clears_witness :
  ∃ w',
    Layer.recompute demo_firstChild demo_nodeType (demo_map 0 false) demo_data
      demo_options demo_installed.2 = (w', Returned tt) ∧
    Layer.markers w' = [] ∧
    Layer.created w' = Layer.created demo_installed.2 ∧
    ∀ m, Layer.rendered w' m =
         List.filter
           (λ marker, negb (Layer.recorded demo_installed.2 (Layer.marker_id marker)))
           (Layer.rendered demo_installed.2 m).
Proof.
  apply (recompute_without_bounds_clears demo_firstChild demo_nodeType
           (demo_map 0 false) demo_data demo_options demo_installed.2).
  reflexivity.
Defined.

(** C4 fails on the code: installing a second layer, on another map, runs
    its first computation, and that removes the first layer's marker from
    the first layer's map. *)
Lemma recompute_removes_other_layer_markers :
  Layer.layer_map demo_installed.1 = 0 ∧
  Layer.layer_map demo_second_installed.1 = 1 ∧
  length (Layer.rendered demo_installed.2 0) = 1 ∧
  Layer.rendered demo_second_installed.2 0 = [] ∧
  length (Layer.rendered demo_second_installed.2 1) = 1 ∧
  Layer.rendered demo_second_installed.2 0 ≠ Layer.rendered demo_installed.2 0.
Proof. by vm_compute. Qed.

Lemma recompute_clears_other_layers_witness :
  length (Layer.markers demo_first_run.1) = 1 ∧
  Forall
    (λ marker,
       marker ∈ Layer.rendered demo_first_run.1 0 ∧
       ∀ m, marker ∉ Layer.rendered demo_second_run.1 m)
    (Layer.markers demo_first_run.1).
Proof.
  split; [reflexivity|]. apply Forall_forall.
  apply (recompute_clears_other_layers demo_firstChild demo_nodeType
           (demo_map 0 true) demo_data (Layer.merge_options demo_options)
           (demo_map 1 true) demo_data (Layer.merge_options demo_options)
           Layer.empty_world
           demo_first_run.1 demo_first_run.2
           demo_second_run.1 demo_second_run.2).
  - split; constructor.
  - reflexivity.
  - reflexivity.
Defined.

(** * Properties of groupByCluster *)

Section group_facts.
Context {A : Type}.
Variable items : list A.
Variable labels : list Z.

Local Abbreviation lab := (label_at labels).
Local Abbreviation sel := (λ k i, select items (labelled labels k i)).

Implicit Types (m : list (Z * list A)) (k : Z) (i j : nat).

Lemma sel_S k i x :
  items !! i = Some x →
  sel k (S i) = sel k i ++ (if Z.eqb (lab i) k then [x] else []).
Proof.
  intros Hx. unfold select, labelled.
  rewrite seq_S, List.filter_app, omap_app. f_equal.
  change (0 + i) with i. cbn [List.filter].
  destruct (Z.eqb (lab i) k); simpl; [by rewrite Hx|done].
Qed.

Lemma sel_nil k i : (∀ j, j < i → lab j ≠ k) → sel k i = [].
Proof.
  intros Hno. unfold labelled. induction i as [|i IH]; [done|].
  rewrite seq_S, List.filter_app. simpl.
  destruct (Z.eqb_spec (lab i) k) as [Heq|_]; [by apply Hno in Heq; [|lia]|].
  rewrite app_nil_r. apply IH. intros j Hj. apply Hno. lia.
Qed.

Lemma sel_occurs k i : sel k i ≠ [] → ∃ j, j < i ∧ lab j = k.
Proof.
  intros Hne. unfold labelled in Hne.
  destruct (List.filter (λ j, Z.eqb (lab j) k) (seq 0 i)) as [|j l] eqn:Hf; [done|].
  assert (In j (List.filter (λ j, Z.eqb (lab j) k) (seq 0 i))) as Hin
    by (rewrite Hf; by left).
  apply filter_In in Hin as [Hseq Heq]. apply in_seq in Hseq.
  exists j. split; [lia|]. by apply Z.eqb_eq.
Qed.

Lemma map_push_present m k x :
  k ∈ m.*1 →
  ∃ m1 arr0 m2,
    m = m1 ++ (k, arr0) :: m2 ∧
    Dbscan.map_push m k x = m1 ++ (k, arr0 ++ [x]) :: m2.
Proof.
  induction m as [|[k0 arr0] m IH]; simpl; intros Hk.
  - by apply elem_of_nil in Hk.
  - destruct (Z.eqb_spec k0 k) as [->|Hne].
    + by exists [], arr0, m.
    + apply elem_of_cons in Hk as [->|Hk]; [done|].
      destruct (IH Hk) as (m1 & arr1 & m2 & -> & ->).
      by exists ((k0, arr0) :: m1), arr1, m2.
Qed.

Lemma map_push_absent m k x :
  k ∉ m.*1 → Dbscan.map_push m k x = m ++ [(k, [x])].
Proof.
  induction m as [|[k0 arr0] m IH]; simpl; intros Hk; [done|].
  apply not_elem_of_cons in Hk as [Hne Hk].
  destruct (Z.eqb_spec k0 k) as [->|_]; [done|]. by rewrite IH.
Qed.

Lemma map_push_in (f : Z → list A) (ks : list Z) k0 x :
  NoDup ks → k0 ∈ ks →
  Dbscan.map_push (map (λ k, (k, f k)) ks) k0 x =
  map (λ k, (k, if Z.eqb k k0 then f k ++ [x] else f k)) ks.
Proof.
  induction ks as [|k1 ks IH]; intros Hnd Hin; simpl.
  - by apply elem_of_nil in Hin.
  - apply NoDup_cons in Hnd as [Hk1 Hnd].
    destruct (Z.eqb_spec k1 k0) as [->|Hne].
    + f_equal. apply map_ext_in. intros k Hk%list_elem_of_In.
      destruct (Z.eqb_spec k k0) as [->|_]; [done|done].
    + apply elem_of_cons in Hin as [->|Hin]; [done|]. by rewrite IH.
Qed.

Lemma keys_of_map (f : Z → list A) (ks : list Z) : (map (λ k, (k, f k)) ks).*1 = ks.
Proof. induction ks as [|k ks IH]; simpl; [done|]. f_equal. exact IH. Qed.

Lemma group_step i m x :
  grouped items labels i m →
  items !! i = Some x →
  grouped items labels (S i)
    match labels !! i with
    | Some lbl => if Z.ltb lbl 0 then m else Dbscan.map_push m lbl x
    | None => m
    end.
Proof.
  intros (Hnd & Hm & Hkeys) Hx.
  assert (match labels !! i with
          | Some lbl => if Z.ltb lbl 0 then m else Dbscan.map_push m lbl x
          | None => m
          end = if Z.ltb (lab i) 0 then m else Dbscan.map_push m (lab i) x) as ->.
  { unfold label_at. by destruct (labels !! i). }
  assert (∀ k, k ≠ lab i → sel k (S i) = sel k i) as Hother.
  { intros k Hk. rewrite (sel_S k i x Hx).
    destruct (Z.eqb_spec (lab i) k); [congruence|]. by rewrite app_nil_r. }
  assert (sel (lab i) (S i) = sel (lab i) i ++ [x]) as Hsame.
  { rewrite (sel_S _ i x Hx). by rewrite Z.eqb_refl. }
  destruct (Z.ltb_spec (lab i) 0) as [Hneg|Hpos].
  - (* the item is noise *)
    split; [done|]. split.
    + rewrite Hm at 1. apply map_ext_in. intros k Hk%list_elem_of_In.
      rewrite Hother; [done|]. apply Hkeys in Hk as [Hk _]. lia.
    + intros k. rewrite Hkeys. split; intros [Hk (j & Hj & Hl)]; (split; [done|]).
      * exists j. split; [lia|done].
      * exists j. split; [|done]. destruct (decide (j = i)) as [->|]; lia.
  - destruct (decide (lab i ∈ m.*1)) as [Hin|Hout].
    + (* its label has an entry *)
      rewrite Hm at 1. rewrite map_push_in by done.
      assert (map (λ k, (k, if Z.eqb k (lab i) then sel k i ++ [x] else sel k i)) m.*1
              = map (λ k, (k, sel k (S i))) m.*1) as Heq.
      { apply map_ext_in. intros k _. destruct (Z.eqb_spec k (lab i)) as [->|Hne].
        - by rewrite Hsame.
        - by rewrite Hother. }
      rewrite Heq. unfold grouped. rewrite keys_of_map.
      split; [done|]. split; [done|].
      intros k. rewrite Hkeys. split; intros [Hk (j & Hj & Hl)].
      * split; [done|]. exists j. split; [lia|done].
      * destruct (decide (j = i)) as [->|Hji].
        -- subst k. by apply Hkeys.
        -- split; [done|]. exists j. split; [lia|done].
    + (* a new entry *)
      rewrite map_push_absent by done. unfold grouped. rewrite fmap_app. simpl.
      assert (sel (lab i) i = []) as Hnil.
      { apply sel_nil. intros j Hj Heq. apply Hout. apply Hkeys.
        split; [done|]. by exists j. }
      split; [|split].
      * apply NoDup_app. split; [done|]. split; [|apply NoDup_singleton].
        intros k Hk ->%list_elem_of_singleton. done.
      * rewrite map_app. simpl. rewrite Hsame, Hnil. simpl. f_equal.
        rewrite Hm at 1. apply map_ext_in. intros k Hk%list_elem_of_In.
        rewrite Hother; [done|]. intros ->. done.
      * intros k. rewrite elem_of_app, list_elem_of_singleton, Hkeys.
        split.
        -- intros [[Hk (j & Hj & Hl)]| ->].
           ++ split; [done|]. exists j. split; [lia|done].
           ++ split; [done|]. exists i. split; [lia|done].
        -- intros [Hk (j & Hj & Hl)]. destruct (decide (j = i)) as [->|Hji].
           ++ by right.
           ++ left. split; [done|]. exists j. split; [lia|done].
Qed.

Lemma group_loop_grouped rest i m :
  grouped items labels i m →
  drop i items = rest →
  i ≤ length items →
  grouped items labels (length items) (Dbscan.group_loop i rest labels m).
Proof.
  revert i m. induction rest as [|x rest IH]; intros i m Hg Hdrop Hi; simpl.
  - apply (f_equal length) in Hdrop. rewrite length_drop in Hdrop. simpl in Hdrop.
    by replace (length items) with i by lia.
  - assert (items !! i = Some x) as Hx.
    { assert (drop i items !! 0 = Some x) as H0 by (by rewrite Hdrop).
      rewrite lookup_drop in H0. by rewrite Nat.add_0_r in H0. }
    apply IH.
    + by apply group_step.
    + replace (S i) with (i + 1) by lia. rewrite <- drop_drop. by rewrite Hdrop.
    + apply lookup_lt_Some in Hx. lia.
Qed.

Global Instance entry_le_total : Total (@Dbscan.entry_le A).
Proof. intros a b. unfold Dbscan.entry_le. lia. Qed.

Global Instance entry_le_trans : Transitive (@Dbscan.entry_le A).
Proof. intros a b c. unfold Dbscan.entry_le. lia. Qed.

Lemma Sorted_keys (l : list (Z * list A)) :
  Sorted Dbscan.entry_le l → Sorted Z.le l.*1.
Proof.
  induction 1 as [|e l Hs IH Hhd]; simpl; constructor; [done|].
  destruct Hhd; simpl; constructor. done.
Qed.

Lemma values_of_entries (f : Z → list A) (l : list (Z * list A)) :
  Forall (λ e, e.2 = f e.1) l → l.*2 = map f l.*1.
Proof.
  induction 1 as [|e l He Hall IH]; simpl; [done|]. rewrite He. f_equal. exact IH.
Qed.

(** The groups [groupByCluster] returns are the label classes: one group
    per non-negative label in use, in ascending order of the label, each
    holding the items of its label in input order. *)
Lemma groupByCluster_spec :
  ∃ ks,
    NoDup ks ∧
    Sorted Z.le ks ∧
    (∀ k, k ∈ ks ↔ (0 ≤ k)%Z ∧ ∃ j, j < length items ∧ lab j = k) ∧
    Dbscan.groupByCluster items labels =
      map (λ k, select items (labelled labels k (length items))) ks.
Proof.
  unfold Dbscan.groupByCluster.
  set (m := Dbscan.group_loop 0 items labels []).
  assert (grouped items labels (length items) m) as (Hnd & Hm & Hkeys).
  { apply group_loop_grouped; [|done|lia].
    split; [constructor|]. split; [done|]. intros k. split.
    - intros Hk. by apply elem_of_nil in Hk.
    - intros [_ (j & Hj & _)]. lia. }
  set (sorted := merge_sort Dbscan.entry_le m).
  assert (sorted ≡ₚ m) as Hperm by apply merge_sort_Permutation.
  exists sorted.*1. split_and!.
  - by rewrite Hperm.
  - apply Sorted_keys, Sorted_merge_sort, _.
  - intros k. rewrite Hperm. apply Hkeys.
  - apply (values_of_entries (λ k, select items (labelled labels k (length items)))).
    apply Forall_forall. intros e He. rewrite Hperm in He. rewrite Hm in He.
    apply list_elem_of_fmap in He as (k & -> & _). done.
Qed.

End group_facts.

(** Filtering a list by each key of a duplicate-free list of keys that
    covers it cuts the list into pieces that make it up again. *)
Lemma filter_by_key_partition (f : nat → Z) (ks : list Z) (l : list nat) :
  NoDup ks →
  (∀ x, x ∈ l → f x ∈ ks) →
  concat (map (λ k, List.filter (λ x, Z.eqb (f x) k) l) ks) ≡ₚ l.
Proof.
  intros Hnd. induction l as [|x l IH]; intros Hcover.
  - induction ks as [|k ks IHks]; simpl; [done|].
    apply IHks; [by apply NoDup_cons in Hnd as [_ ?]|].
    intros x Hx. by apply elem_of_nil in Hx.
  - assert (f x ∈ ks) as Hx by (apply Hcover; by left).
    apply list_elem_of_split in Hx as (ks1 & ks2 & ->).
    apply NoDup_app in Hnd as (Hnd1 & Hdisj & [Hnot2 Hnd2]%NoDup_cons).
    assert (∀ k, k ≠ f x →
              List.filter (λ y, Z.eqb (f y) k) (x :: l) =
              List.filter (λ y, Z.eqb (f y) k) l) as Hskip.
    { intros k Hk. simpl. by destruct (Z.eqb_spec (f x) k). }
    assert (∀ ks', f x ∉ ks' →
              map (λ k, List.filter (λ y, Z.eqb (f y) k) (x :: l)) ks' =
              map (λ k, List.filter (λ y, Z.eqb (f y) k) l) ks') as Hmap.
    { intros ks' Hno. apply map_ext_in. intros k Hk%list_elem_of_In.
      apply Hskip. intros ->. done. }
    rewrite map_app, concat_app. cbn [map concat].
    rewrite (Hmap ks1), (Hmap ks2) by (done || (intros Hin; by eapply Hdisj; [exact Hin|left])).
    cbn [List.filter]. rewrite Z.eqb_refl.
    rewrite <- app_comm_cons, <- Permutation_middle. constructor.
    assert (∀ y, y ∈ l → f y ∈ ks1 ++ f x :: ks2) as Hcover'.
    { intros y Hy. apply Hcover. by right. }
    specialize (IH Hcover'). rewrite map_app, concat_app in IH.
    exact IH.
Qed.

(** * Properties of dbscan *)

Section dbscan_facts.
Context {T : Type}.
Variable Math_sqrt : Q → Q.
Variable points : list T.
Variable options : Dbscan.DbscanOptions T.

Local Abbreviation n := (length points).
Local Abbreviation N := (neighbors Math_sqrt points options).
Local Abbreviation dense := (dense Math_sqrt points options).
Local Abbreviation within_eps := (Dbscan.within_eps Math_sqrt points options).
Local Abbreviation regionQuery := (Dbscan.regionQuery Math_sqrt points options).
Local Abbreviation expand_step := (Dbscan.expand_step Math_sqrt points options).
Local Abbreviation expand_loop := (Dbscan.expand_loop Math_sqrt points options).
Local Abbreviation expandCluster := (Dbscan.expandCluster Math_sqrt points options).
Local Abbreviation visit := (Dbscan.visit Math_sqrt points options).
Local Abbreviation main_loop := (Dbscan.main_loop Math_sqrt points options).
Local Abbreviation sized := (sized Math_sqrt points options).
Local Abbreviation consistent := (consistent Math_sqrt points options).
Local Abbreviation absorbed := (absorbed Math_sqrt points options).
Local Abbreviation edge := (edge Math_sqrt points options).
Local Abbreviation linked := (linked Math_sqrt points options).
Local Abbreviation rooted := (rooted Math_sqrt points options).
Local Abbreviation sourced := (sourced Math_sqrt points options).
Local Abbreviation scanned := (scanned Math_sqrt points options).
Local Abbreviation expanding := (expanding Math_sqrt points options).
Local Abbreviation step_queue := (step_queue Math_sqrt points options).

Implicit Types (st : Dbscan.State) (queue : list nat) (i j k q : nat).

(** ** Neighbor lists *)

Lemma elem_of_neighbors i j : j ∈ N i ↔ j < n ∧ within_eps i j = true.
Proof.
  unfold neighbors, Dbscan.scan_neighbors.
  rewrite list_elem_of_In, filter_In, in_seq. intuition lia.
Qed.

Lemma neighbors_lt i j : j ∈ N i → j < n.
Proof. intros Hj. by apply elem_of_neighbors in Hj as [? _]. Qed.

Lemma NoDup_neighbors i : NoDup (N i).
Proof.
  unfold neighbors, Dbscan.scan_neighbors.
  apply NoDup_ListNoDup, List.NoDup_filter, List.seq_NoDup.
Qed.

Lemma NoDup_bounded_length (l : list nat) m :
  NoDup l → (∀ x, x ∈ l → x < m) → length l ≤ m.
Proof.
  intros Hnd Hlt.
  assert (l ⊆+ seq 0 m) as Hsub.
  { apply NoDup_submseteq; [done|]. intros x Hx.
    apply list_elem_of_In, in_seq. specialize (Hlt x Hx). lia. }
  apply submseteq_length in Hsub. by rewrite length_seq in Hsub.
Qed.

(** ** Reading the arrays after a write *)

Lemma label_set_label st j l i :
  j < length (Dbscan.labels st) →
  label (Dbscan.set_label j l st) i = if decide (i = j) then l else label st i.
Proof.
  intros Hj. unfold label, label_at; simpl. case_decide as Hij.
  - subst i. by rewrite list_lookup_insert_eq.
  - by rewrite list_lookup_insert_ne.
Qed.

Lemma seen_set_visited st j i :
  j < length (Dbscan.visited st) →
  seen (Dbscan.set_visited j st) i = if decide (i = j) then true else seen st i.
Proof.
  intros Hj. unfold seen, Dbscan.is_visited; simpl. case_decide as Hij.
  - subst i. by rewrite list_lookup_insert_eq.
  - by rewrite list_lookup_insert_ne.
Qed.

Lemma core_set_core st j i :
  j < length (Dbscan.corePoints st) →
  core (Dbscan.set_core j st) i = if decide (i = j) then true else core st i.
Proof.
  intros Hj. unfold core; simpl. case_decide as Hij.
  - subst i. by rewrite list_lookup_insert_eq.
  - by rewrite list_lookup_insert_ne.
Qed.

Lemma is_unlabeled_label st j :
  j < length (Dbscan.labels st) →
  Dbscan.is_unlabeled st j = Z.eqb (label st j) (-1).
Proof.
  intros Hj. unfold Dbscan.is_unlabeled, label, label_at.
  destruct (lookup_lt_is_Some_2 _ _ Hj) as [l ->]. done.
Qed.

(** ** The neighbor cache *)

Lemma regionQuery_spec st i :
  sized st →
  ∃ st', regionQuery i st = (N i, st') ∧ sized st' ∧
    Dbscan.visited st' = Dbscan.visited st ∧
    Dbscan.labels st' = Dbscan.labels st ∧
    Dbscan.corePoints st' = Dbscan.corePoints st ∧
    Dbscan.clusters st' = Dbscan.clusters st.
Proof.
  intros Hs. unfold Dbscan.regionQuery.
  destruct (Dbscan.neighborsCache st !! i) as [[res|]|] eqn:Hc.
  - exists st. rewrite (cache_ok _ _ _ _ Hs _ _ Hc). by split_and!.
  - eexists. split; [reflexivity|]. destruct Hs.
    split_and!; try done. split; simpl; try done.
    + by rewrite length_insert.
    + intros i' res. destruct (decide (i' = i)) as [->|Hne].
      * rewrite list_lookup_insert_eq by (apply lookup_lt_Some in Hc; lia).
        by intros [= <-].
      * rewrite list_lookup_insert_ne by done. auto.
  - eexists. split; [reflexivity|]. destruct Hs.
    split_and!; try done. split; simpl; try done.
    + by rewrite length_insert.
    + intros i' res. rewrite list_insert_ge by (by apply lookup_ge_None).
      auto.
Qed.

(** ** The queue *)

Lemma queueIncludes_spec queue x : Dbscan.queueIncludes queue x = true ↔ x ∈ queue.
Proof.
  induction queue as [|y queue IH]; simpl.
  - split; [done|]. intros Hx. by apply elem_of_nil in Hx.
  - rewrite elem_of_cons. destruct (Nat.eqb_spec y x) as [->|Hne].
    + tauto.
    + rewrite IH. intuition congruence.
Qed.

Lemma enqueue_new_spec queue l :
  ∃ added,
    Dbscan.enqueue_new queue l = queue ++ added ∧
    (∀ x, x ∈ added → x ∈ l) ∧
    (∀ x, x ∈ l → x ∈ queue ++ added) ∧
    (NoDup queue → NoDup (queue ++ added)).
Proof.
  unfold Dbscan.enqueue_new. revert queue.
  induction l as [|nb l IH]; intros queue; simpl.
  - exists []. rewrite (right_id_L [] (++)). repeat split; try done.
    intros x Hx. by apply elem_of_nil in Hx.
  - destruct (Dbscan.queueIncludes queue nb) eqn:Hinc.
    + apply queueIncludes_spec in Hinc.
      destruct (IH queue) as (added & -> & Hsub & Hcov & Hnd).
      exists added. repeat split; try done.
      * intros x Hx. apply elem_of_cons. right. by apply Hsub.
      * intros x [->|Hx]%elem_of_cons; [|by apply Hcov].
        apply elem_of_app. by left.
    + assert (nb ∉ queue) as Hnb.
      { intros Hin. apply queueIncludes_spec in Hin. congruence. }
      destruct (IH (queue ++ [nb])) as (added & -> & Hsub & Hcov & Hnd).
      exists (nb :: added). rewrite <- (assoc_L (++)). simpl.
      repeat split; try done.
      * intros x [->|Hx]%elem_of_cons; apply elem_of_cons; [by left|].
        right. by apply Hsub.
      * intros x [->|Hx]%elem_of_cons.
        -- apply elem_of_app. right. apply elem_of_cons. by left.
        -- specialize (Hcov x Hx). by rewrite <- (assoc_L (++)) in Hcov.
      * intros Hq. rewrite <- (assoc_L (++)) in Hnd. apply Hnd.
        apply NoDup_app. split; [done|]. split.
        -- intros x Hx [->|Hx']%elem_of_cons; [done|].
           by apply elem_of_nil in Hx'.
        -- apply NoDup_singleton.
Qed.

(** ** The writes keep the arrays in shape *)

Lemma sized_set_visited st j : sized st → sized (Dbscan.set_visited j st).
Proof. intros []. split; simpl; try done. by rewrite length_insert. Qed.

Lemma sized_set_label st j l : sized st → sized (Dbscan.set_label j l st).
Proof. intros []. split; simpl; try done. by rewrite length_insert. Qed.

Lemma sized_set_core st j : sized st → sized (Dbscan.set_core j st).
Proof. intros []. split; simpl; try done. by rewrite length_insert. Qed.

Lemma sized_push_cluster st cid j : sized st → sized (Dbscan.push_cluster cid j st).
Proof. by intros []. Qed.

Lemma sized_open_cluster st : sized st → sized (Dbscan.open_cluster st).
Proof. by intros []. Qed.

(** ** One iteration of the expansion loop, as a change of the arrays *)

Lemma expand_step_effect cid j queue st :
  sized st → j < n →
  ∃ st',
    expand_step cid j queue st = (step_queue j queue st, st') ∧
    sized st' ∧
    (∀ i, seen st' i = if decide (i = j) then true else seen st i) ∧
    (∀ i, core st' i =
          if decide (i = j) then core st j || (negb (seen st j) && dense j)
          else core st i) ∧
    (∀ i, label st' i =
          if decide (i = j)
          then (if Z.eqb (label st j) (-1) then Z.of_nat cid else label st j)
          else label st i).
Proof.
  intros Hs Hj. unfold Dbscan.expand_step, step_queue.
  assert (seen st j = Dbscan.is_visited st j) as Hseen by done.
  destruct (Dbscan.is_visited st j) eqn:Hvis; rewrite Hseen; simpl.
  - (* already visited: only the label may change *)
    rewrite is_unlabeled_label by (destruct Hs; lia).
    destruct (Z.eqb (label st j) (-1)) eqn:Hl.
    + eexists. split; [reflexivity|]. split; [|split_and!].
      * by apply sized_push_cluster, sized_set_label.
      * intros i. try done; case_decide; by subst.
      * intros i. try done; case_decide; subst; by rewrite ?orb_false_r.
      * intros i. change (label (Dbscan.push_cluster cid j ?s) i) with (label s i).
        rewrite label_set_label by (destruct Hs; lia).
        try done; case_decide; subst; by rewrite ?Hl.
    + exists st. split; [reflexivity|]. split; [done|split_and!].
      * intros i. try done; case_decide; by subst.
      * intros i. try done; case_decide; subst; by rewrite ?orb_false_r.
      * intros i. try done; case_decide; subst; by rewrite ?Hl.
  - (* first visit *)
    pose proof (sized_set_visited st j Hs) as Hs1.
    destruct (regionQuery_spec (Dbscan.set_visited j st) j Hs1)
      as (st2 & -> & Hs2 & Hv2 & Hl2 & Hc2 & _).
    assert (∀ i, seen st2 i = if decide (i = j) then true else seen st i) as Hseen2.
    { intros i. unfold seen, Dbscan.is_visited at 1. rewrite Hv2.
      apply (seen_set_visited st j i). destruct Hs; lia. }
    assert (∀ i, label st2 i = label st i) as Hlab2.
    { intros i. unfold label. by rewrite Hl2. }
    assert (∀ i, core st2 i = core st i) as Hcore2.
    { intros i. unfold core. by rewrite Hc2. }
    fold (dense j). destruct (dense j) eqn:Hd.
    + set (st3 := Dbscan.set_core j st2).
      assert (sized st3) as Hs3 by by apply sized_set_core.
      assert (∀ i, label st3 i = label st i) as Hlab3 by exact Hlab2.
      rewrite is_unlabeled_label by (destruct Hs3; lia). rewrite Hlab3.
      assert (∀ i, core st3 i = if decide (i = j) then true else core st i) as Hcore3.
      { intros i. unfold st3. rewrite core_set_core by (destruct Hs2; lia).
        by rewrite Hcore2. }
      destruct (Z.eqb (label st j) (-1)) eqn:Hl.
      * eexists. split; [reflexivity|]. split; [|split_and!].
        -- by apply sized_push_cluster, sized_set_label.
        -- exact Hseen2.
        -- intros i. change (core (Dbscan.push_cluster cid j (Dbscan.set_label j ?l ?s)) i)
             with (core s i). rewrite Hcore3. try done; case_decide; subst; by rewrite ?orb_true_r.
        -- intros i. change (label (Dbscan.push_cluster cid j ?s) i) with (label s i).
           rewrite label_set_label by (destruct Hs3; lia). rewrite Hlab3.
           try done; case_decide; subst; by rewrite ?Hl.
      * exists st3. split; [reflexivity|]. split; [done|split_and!].
        -- exact Hseen2.
        -- intros i. rewrite Hcore3. try done; case_decide; subst; by rewrite ?orb_true_r.
        -- intros i. rewrite Hlab3. try done; case_decide; subst; by rewrite ?Hl.
    + rewrite is_unlabeled_label by (destruct Hs2; lia). rewrite Hlab2.
      destruct (Z.eqb (label st j) (-1)) eqn:Hl.
      * eexists. split; [reflexivity|]. split; [|split_and!].
        -- by apply sized_push_cluster, sized_set_label.
        -- exact Hseen2.
        -- intros i. change (core (Dbscan.push_cluster cid j (Dbscan.set_label j ?l ?s)) i)
             with (core s i). rewrite Hcore2.
           try done; case_decide; subst; by rewrite ?orb_false_r.
        -- intros i. change (label (Dbscan.push_cluster cid j ?s) i) with (label s i).
           rewrite label_set_label by (destruct Hs2; lia). rewrite Hlab2.
           try done; case_decide; subst; by rewrite ?Hl.
      * exists st2. split; [reflexivity|]. split; [done|split_and!].
        -- exact Hseen2.
        -- intros i. rewrite Hcore2. try done; case_decide; subst; by rewrite ?orb_false_r.
        -- intros i. rewrite Hlab2. try done; case_decide; subst; by rewrite ?Hl.
Qed.

Lemma step_queue_spec j queue st :
  ∃ added,
    step_queue j queue st = queue ++ added ∧
    (∀ x, x ∈ added → seen st j = false ∧ dense j = true ∧ x ∈ N j) ∧
    (seen st j = false → dense j = true → ∀ x, x ∈ N j → x ∈ queue ++ added) ∧
    (NoDup queue → NoDup (queue ++ added)).
Proof.
  unfold step_queue.
  destruct (seen st j) eqn:Hseen, (dense j) eqn:Hd; simpl;
    try (exists []; rewrite (right_id_L [] (++)); split_and!; try done;
         intros x Hx; by apply elem_of_nil in Hx).
  destruct (enqueue_new_spec queue (N j)) as (added & -> & Hsub & Hcov & Hnd).
  exists added. split_and!; auto.
Qed.

(** ** The expansion loop keeps its invariant *)

Lemma expand_step_expanding cid s q queue st j :
  expanding cid s q queue st →
  queue !! q = Some j →
  ∃ st',
    expand_step cid j queue st = (step_queue j queue st, st') ∧
    expanding cid s (S q) (step_queue j queue st) st' ∧
    (∀ i, seen st i = true → seen st' i = true).
Proof.
  intros [Hcon Habs Hproc Hnd Hbound Hlink Hroot Hsrc] Hq.
  destruct Hcon as [Hs Hrange Hseen Hcore Hcl].
  assert (j ∈ queue) as Hjq by (by eapply list_elem_of_lookup_2).
  assert (j < n) as Hj by auto.
  destruct (expand_step_effect cid j queue st Hs Hj)
    as (st' & Hstep & Hs' & Hseen' & Hcore' & Hlab').
  exists st'. split; [exact Hstep|].
  destruct (step_queue_spec j queue st) as (added & -> & Hadded & Hcover & Hnd').
  (* the labels only move from -1 to cid, and only at j *)
  assert (∀ i, label st i ≠ (-1)%Z → label st' i = label st i) as Hkeep.
  { intros i Hi. rewrite Hlab'. case_decide as Hij; [subst i|done].
    by apply Z.eqb_neq in Hi as ->. }
  assert (∀ i, (0 ≤ label st i)%Z → label st' i = label st i) as Hkeep0.
  { intros i Hi. apply Hkeep. lia. }
  assert (0 ≤ label st' j ≤ Z.of_nat cid)%Z as Hlabj.
  { rewrite Hlab'. rewrite decide_True by done.
    destruct (Z.eqb_spec (label st j) (-1)); [lia|].
    destruct (Hrange j); [done|lia]. }
  assert (seen st j = false → label st' j = Z.of_nat cid) as Hnewlab.
  { intros Hu. rewrite Hlab'. rewrite decide_True by done.
    destruct (Z.eqb_spec (label st j) (-1)) as [|Hne]; [done|].
    destruct (Hrange j) as [?|[Hge _]]; [done|].
    apply Hseen in Hge. congruence. }
  assert (∀ i, core st i = true → core st' i = true) as Hcore_old.
  { intros i Hi. rewrite Hcore'. case_decide; [subst; by rewrite Hi|done]. }
  assert (∀ i, core st' i = true →
            core st i = true ∨ (i = j ∧ seen st j = false ∧ dense j = true)) as Hcore_new.
  { intros i Hi. rewrite Hcore' in Hi. case_decide as Hij; [subst i|by left].
    apply orb_true_iff in Hi as [Hi|Hi]; [by left|right].
    apply andb_true_iff in Hi as [Hu%negb_true_iff Hd]. done. }
  assert (∀ k x, k ≤ q → (queue ++ added) !! k = Some x → queue !! k = Some x) as Hpre.
  { intros k x Hk Hx. rewrite lookup_app_l in Hx; [done|].
    apply lookup_lt_Some in Hq. lia. }
  assert (drop q queue = j :: drop (S q) queue) as Hdrop.
  { by apply drop_S. }
  split; [|intros i Hi; rewrite Hseen'; by case_decide].
  split.
  - (* consistent *)
    split; [exact Hs'| | | |].
    + intros i. destruct (decide (i = j)) as [->|Hij]; [right; lia|].
      rewrite Hlab', decide_False by done. apply Hrange.
    + intros i Hi. rewrite Hseen'. case_decide as Hij; [done|].
      rewrite Hlab', decide_False in Hi by done. by apply Hseen.
    + intros i. rewrite Hseen', Hcore'. case_decide as Hij; [subst i|apply Hcore].
      split.
      * intros [Hc|Hc]%orb_true_iff; [by apply Hcore in Hc as [_ ?]|].
        by apply andb_true_iff in Hc as [_ ?].
      * intros [_ Hd]. destruct (seen st j) eqn:Hu; simpl.
        -- rewrite orb_false_r. by apply Hcore.
        -- by rewrite Hd, orb_true_r.
    + intros i Hi. destruct (Hcore_new i Hi) as [Hold|[-> _]]; [|lia].
      rewrite Hkeep0; by apply Hcl.
  - (* absorbed *)
    intros p x Hp Hx. destruct (Hcore_new p Hp) as [Hold|(-> & Hu & Hd)].
    + pose proof (Hcl p Hold) as Hpl. rewrite (Hkeep0 p Hpl).
      destruct (Habs p x Hold Hx) as [Hle|[Hpc Hpend]].
      * left. rewrite Hkeep0; lia.
      * rewrite Hdrop in Hpend. apply elem_of_cons in Hpend as [->|Hpend].
        -- left. lia.
        -- right. split; [done|]. rewrite drop_app_le.
           ++ apply elem_of_app. by left.
           ++ apply lookup_lt_Some in Hq. lia.
    + rewrite (Hnewlab Hu). specialize (Hcover Hu Hd x Hx).
      apply list_elem_of_lookup in Hcover as [k Hk].
      destruct (decide (k ≤ q)) as [Hkq|Hkq].
      * left. pose proof (Hpre k x Hkq Hk) as Hk'.
        destruct (decide (k = q)) as [->|Hne].
        -- assert (x = j) as -> by congruence. by rewrite (Hnewlab Hu) in Hlabj |- *.
        -- assert (0 ≤ label st x)%Z as Hx0 by (apply (Hproc k); [lia|done]).
           rewrite (Hkeep0 x Hx0). destruct (Hrange x); lia.
      * right. split; [done|]. apply list_elem_of_lookup.
        exists (k - S q). rewrite lookup_drop. rewrite <- Hk. f_equal. lia.
  - (* processed *)
    intros k x Hk Hx. assert (k ≤ q) as Hkq by lia.
    pose proof (Hpre k x Hkq Hx) as Hx'.
    destruct (decide (k = q)) as [->|Hne].
    + assert (x = j) as -> by congruence. lia.
    + rewrite Hkeep0; apply (Hproc k); (lia || done).
  - (* no duplicates *)
    by apply Hnd'.
  - (* bounded *)
    intros x [Hx|Hx]%elem_of_app; [by apply Hbound|].
    apply Hadded in Hx as (_ & _ & Hx). by apply neighbors_lt in Hx.
  - (* linked *)
    intros p p' Hp Hp' Heq Hlt.
    assert (∀ i, core st' i = true → (label st' i < Z.of_nat cid)%Z →
              core st i = true ∧ label st' i = label st i) as Hold.
    { intros i Hi Hilt. destruct (Hcore_new i Hi) as [Hc|(-> & Hu & _)].
      - split; [done|]. apply Hkeep0. by apply Hcl.
      - rewrite (Hnewlab Hu) in Hilt. lia. }
    destruct (Hold p Hp Hlt) as [Hpc Hpl].
    rewrite Heq in Hlt. destruct (Hold p' Hp' Hlt) as [Hpc' Hpl'].
    apply Hlink; try done; rewrite <- ?Hpl, <- ?Hpl'; [done|]. by rewrite Heq.
  - (* rooted *)
    intros p Hp Hpl. destruct (Hcore_new p Hp) as [Hold|(-> & Hu & Hd)].
    + apply Hroot; [done|]. rewrite <- Hpl. symmetry. apply Hkeep0. by apply Hcl.
    + destruct (Hsrc j Hjq) as (p0 & Hp0 & Hp0l & Hin).
      eapply rtc_r; [by apply Hroot|].
      split; [by apply Hcore in Hp0 as [_ ?]|]. done.
  - (* sourced *)
    intros x [Hx|Hx]%elem_of_app.
    + destruct (Hsrc x Hx) as (p0 & Hp0 & Hp0l & Hin).
      exists p0. split; [by apply Hcore_old|]. split; [|done].
      rewrite Hkeep0; [done|]. by apply Hcl.
    + apply Hadded in Hx as (Hu & Hd & Hx).
      exists j. split; [|split; [by apply Hnewlab|done]].
      rewrite Hcore', decide_True by done. by rewrite Hu, Hd, orb_true_r.
Qed.

Lemma expand_loop_expanding fuel cid s q queue st :
  expanding cid s q queue st →
  q ≤ length queue →
  n ≤ fuel + q →
  ∃ queue' st',
    expand_loop fuel cid q queue st = Some (length queue', queue', st') ∧
    expanding cid s (length queue') queue' st' ∧
    queue `prefix_of` queue' ∧
    (∀ i, seen st i = true → seen st' i = true).
Proof.
  revert q queue st. induction fuel as [|fuel IH]; intros q queue st Hex Hq Hfuel.
  - destruct (queue !! q) as [j|] eqn:Hj.
    + apply lookup_lt_Some in Hj.
      pose proof (NoDup_bounded_length queue n (ex_nodup _ _ _ _ _ _ _ _ Hex)
                    (ex_bound _ _ _ _ _ _ _ _ Hex)). lia.
    + apply lookup_ge_None in Hj. assert (q = length queue) as -> by lia.
      exists queue, st. simpl. by rewrite lookup_ge_None_2.
  - destruct (queue !! q) as [j|] eqn:Hj.
    + destruct (expand_step_expanding cid s q queue st j Hex Hj)
        as (st' & Hstep & Hex' & Hmono).
      destruct (step_queue_spec j queue st) as (added & Hqueue & _).
      destruct (IH (S q) (step_queue j queue st) st' Hex')
        as (queue' & st'' & Hloop & Hex'' & Hpre & Hmono').
      * rewrite Hqueue, length_app. apply lookup_lt_Some in Hj. lia.
      * lia.
      * exists queue', st''. split; [|split; [done|split]].
        -- simpl. rewrite Hj, Hstep. exact Hloop.
        -- etrans; [|exact Hpre]. rewrite Hqueue. by apply prefix_app_r.
        -- auto.
    + apply lookup_ge_None in Hj. assert (q = length queue) as -> by lia.
      exists queue, st. simpl. by rewrite lookup_ge_None_2.
Qed.

(** ** The main loop keeps its invariant *)

Lemma unseen_unlabeled top st i :
  consistent top st → seen st i = false → label st i = (-1)%Z ∧ core st i = false.
Proof.
  intros [_ Hrange Hseen Hcore _] Hu. split.
  - destruct (Hrange i) as [?|[Hge _]]; [done|]. apply Hseen in Hge. congruence.
  - destruct (core st i) eqn:Hc; [|done]. apply Hcore in Hc as [? _]. congruence.
Qed.

Lemma visit_scanned fuel cid i st :
  scanned cid i st → i < n → n ≤ fuel →
  ∃ st' cid',
    visit fuel i (st, cid) = Some (st', cid') ∧ scanned cid' (S i) st'.
Proof.
  intros [Hcon Habs Hlink Hdone] Hi Hfuel. unfold Dbscan.visit.
  assert (seen st i = Dbscan.is_visited st i) as Hseen_i by done.
  destruct (Dbscan.is_visited st i) eqn:Hvis.
  { exists st, cid. split; [done|]. split; try done.
    intros j Hj. destruct (decide (j = i)) as [->|]; [done|]. apply Hdone. lia. }
  destruct (unseen_unlabeled _ _ _ Hcon Hseen_i) as [Hli Hci].
  destruct Hcon as [Hs Hrange Hseen Hcore Hcl].
  pose proof (sized_set_visited st i Hs) as Hs1.
  destruct (regionQuery_spec (Dbscan.set_visited i st) i Hs1)
    as (st2 & -> & Hs2 & Hv2 & Hl2 & Hc2 & _).
  assert (∀ j, seen st2 j = if decide (j = i) then true else seen st j) as Hseen2.
  { intros j. unfold seen, Dbscan.is_visited at 1. rewrite Hv2.
    apply (seen_set_visited st i j). destruct Hs; lia. }
  assert (∀ j, label st2 j = label st j) as Hlab2.
  { intros j. unfold label. by rewrite Hl2. }
  assert (∀ j, core st2 j = core st j) as Hcore2.
  { intros j. unfold core. by rewrite Hc2. }
  unfold Dbscan.Qlt_bool. fold (dense i). destruct (dense i) eqn:Hd; simpl.
  - (* a new cluster *)
    set (st0 := Dbscan.push_cluster cid i
                  (Dbscan.set_core i
                     (Dbscan.set_label i (Z.of_nat cid) (Dbscan.open_cluster st2)))).
    assert (sized st0) as Hs0.
    { by apply sized_push_cluster, sized_set_core, sized_set_label, sized_open_cluster. }
    assert (∀ j, seen st0 j = if decide (j = i) then true else seen st j) as Hseen0
      by exact Hseen2.
    assert (∀ j, label st0 j = if decide (j = i) then Z.of_nat cid else label st j) as Hlab0.
    { intros j. unfold st0.
      change (label (Dbscan.push_cluster cid i (Dbscan.set_core i ?s)) j) with (label s j).
      rewrite label_set_label by (simpl; destruct Hs2; lia).
      case_decide; [done|]. apply Hlab2. }
    assert (∀ j, core st0 j = if decide (j = i) then true else core st j) as Hcore0.
    { intros j. unfold st0.
      change (core (Dbscan.push_cluster cid i ?s) j) with (core s j).
      rewrite core_set_core by (simpl; destruct Hs2; lia).
      case_decide; [done|]. apply Hcore2. }
    assert (expanding cid i 0 (N i) st0) as Hex.
    { split.
      - split; [exact Hs0| | | |].
        + intros j. rewrite Hlab0. case_decide; [right; lia|].
          destruct (Hrange j); [by left|right; lia].
        + intros j. rewrite Hlab0, Hseen0. case_decide; [done|]. apply Hseen.
        + intros j. rewrite Hseen0, Hcore0. case_decide; [by subst|]. apply Hcore.
        + intros j. rewrite Hlab0, Hcore0. case_decide; [lia|]. apply Hcl.
      - intros p x Hp Hx. rewrite Hcore0 in Hp. rewrite !Hlab0.
        destruct (decide (p = i)) as [->|Hpi]; [by right|].
        destruct (Habs p x Hp Hx) as [Hle|[_ Hnil]]; [|by apply elem_of_nil in Hnil].
        left. case_decide; [subst x; lia|done].
      - intros k x Hk. lia.
      - apply NoDup_neighbors.
      - intros x. apply neighbors_lt.
      - intros p p' Hp Hp' Heq Hlt. rewrite Hcore0 in Hp, Hp'.
        rewrite !Hlab0 in Heq. rewrite Hlab0 in Hlt.
        destruct (decide (p = i)) as [->|Hpi]; [lia|].
        destruct (decide (p' = i)) as [->|Hpi']; [lia|].
        by apply Hlink.
      - intros p Hp Hpl. rewrite Hcore0 in Hp. rewrite Hlab0 in Hpl.
        destruct (decide (p = i)) as [->|Hpi]; [done|].
        destruct (Hrange p); lia.
      - intros x Hx. exists i. rewrite Hcore0, Hlab0, !decide_True by done. done. }
    destruct (expand_loop_expanding fuel cid i 0 (N i) st0 Hex)
      as (queue' & st' & Hloop & Hex' & _ & Hmono); [lia..|].
    unfold Dbscan.expandCluster. fold st0. rewrite Hloop.
    exists st', (S cid). split; [done|].
    destruct Hex' as [Hcon' Habs' _ _ _ Hlink' Hroot' _].
    rewrite drop_all in Habs'.
    split.
    + replace (Z.of_nat (S cid) - 1)%Z with (Z.of_nat cid) by lia. done.
    + intros p x Hp Hx. destruct (Habs' p x Hp Hx) as [?|[_ Hnil]]; [by left|].
      by apply elem_of_nil in Hnil.
    + intros p p' Hp Hp' Heq Hlt.
      destruct (decide (label st' p < Z.of_nat cid)%Z) as [Hlow|Hhigh].
      * by apply Hlink'.
      * assert (label st' p = Z.of_nat cid) as Hpc by lia.
        transitivity i.
        -- apply rtc_rtsc_lr. by apply Hroot'.
        -- apply rtc_rtsc_rl. apply Hroot'; [done|]. by rewrite <- Heq.
    + intros j Hj. apply Hmono. rewrite Hseen0. case_decide; [done|].
      apply Hdone. lia.
  - (* noise, for now *)
    eexists _, cid. split; [reflexivity|].
    set (st3 := Dbscan.set_label i (-1) st2).
    assert (∀ j, label st3 j = label st j) as Hlab3.
    { intros j. unfold st3. rewrite label_set_label by (destruct Hs2; lia).
      rewrite Hlab2. case_decide; [by subst|done]. }
    split.
    + split; [by apply sized_set_label| | | |].
      * intros j. rewrite Hlab3. apply Hrange.
      * intros j. rewrite Hlab3. change (seen st3 j) with (seen st2 j).
        rewrite Hseen2. case_decide; [done|]. apply Hseen.
      * intros j. change (seen st3 j) with (seen st2 j).
        change (core st3 j) with (core st2 j). rewrite Hseen2, Hcore2.
        case_decide; [subst j|apply Hcore]. rewrite Hci, Hd. intuition congruence.
      * intros j. change (core st3 j) with (core st2 j).
        rewrite Hcore2, Hlab3. apply Hcl.
    + intros p x. change (core st3 p) with (core st2 p).
      rewrite Hcore2, !Hlab3. apply Habs.
    + intros p p'. change (core st3 p) with (core st2 p).
      change (core st3 p') with (core st2 p').
      rewrite !Hcore2, !Hlab3. apply Hlink.
    + intros j Hj. change (seen st3 j) with (seen st2 j). rewrite Hseen2.
      case_decide; [done|]. apply Hdone. lia.
Qed.

Lemma initial_scanned : scanned 0 0 (Dbscan.initial points).
Proof.
  assert (∀ j, label (Dbscan.initial points) j = (-1)%Z) as Hlab.
  { intros j. unfold label, label_at; simpl. destruct (decide (j < n)) as [Hj|Hj].
    - by rewrite lookup_replicate_2.
    - by rewrite lookup_ge_None_2 by (rewrite length_replicate; lia). }
  assert (∀ j, seen (Dbscan.initial points) j = false) as Hseen.
  { intros j. unfold seen, Dbscan.is_visited; simpl.
    destruct (decide (j < n)) as [Hj|Hj].
    - by rewrite lookup_replicate_2.
    - by rewrite lookup_ge_None_2 by (rewrite length_replicate; lia). }
  assert (∀ j, core (Dbscan.initial points) j = false) as Hcore.
  { intros j. unfold core; simpl. destruct (decide (j < n)) as [Hj|Hj].
    - by rewrite lookup_replicate_2.
    - by rewrite lookup_ge_None_2 by (rewrite length_replicate; lia). }
  split.
  - split.
    + split; simpl; rewrite ?length_replicate; try done.
      intros i res [Hres _]%lookup_replicate. done.
    + intros j. by left.
    + intros j. rewrite Hlab. lia.
    + intros j. rewrite Hseen, Hcore. intuition congruence.
    + intros j. by rewrite Hcore.
  - intros p x. by rewrite Hcore.
  - intros p p'. by rewrite Hcore.
  - intros j. lia.
Qed.

Lemma main_loop_scanned fuel k i cid st :
  scanned cid i st → i + k = n → n ≤ fuel →
  ∃ st' cid',
    main_loop fuel (seq i k) (st, cid) = Some (st', cid') ∧ scanned cid' n st'.
Proof.
  revert i cid st. induction k as [|k IH]; intros i cid st Hsc Hik Hfuel.
  - exists st, cid. split; [done|]. by replace n with i by lia.
  - destruct (visit_scanned fuel cid i st Hsc) as (st' & cid' & Hv & Hsc'); [lia..|].
    destruct (IH (S i) cid' st' Hsc') as (st'' & cid'' & Hloop & Hsc''); [lia..|].
    exists st'', cid''. split; [|done].
    change (seq i (S k)) with (i :: seq (S i) k).
    unfold Dbscan.main_loop; fold (Dbscan.main_loop Math_sqrt points options).
    by rewrite Hv.
Qed.

Lemma scan_scanned :
  ∃ st cid,
    Dbscan.scan Math_sqrt points options n = Some (st, cid) ∧ scanned cid n st.
Proof.
  unfold Dbscan.scan.
  destruct (main_loop_scanned n n 0 0 (Dbscan.initial points) initial_scanned)
    as (st & cid & Hloop & Hsc); [lia..|].
  by exists st, cid.
Qed.

(** ** The returned clusters *)

Lemma Qlt_bool_true (x y : Q) : (x < y)%Q → Dbscan.Qlt_bool x y = true.
Proof.
  intros Hlt. unfold Dbscan.Qlt_bool. apply negb_true_iff.
  destruct (Qle_bool y x) eqn:Hle; [|done].
  apply Qle_bool_iff in Hle. by apply Qlt_not_le in Hlt.
Qed.

Lemma dbscan_valid :
  (0 < Dbscan.eps options)%Q → (1 <= Dbscan.minPts options)%Q →
  Dbscan.dbscan Math_sqrt points options =
    match Dbscan.scan Math_sqrt points options n with
    | Some (st, _) =>
        Returned (imap (Dbscan.to_cluster options)
                    (Dbscan.groupByCluster points (Dbscan.labels st)))
    | None => Unfinished
    end.
Proof.
  intros Heps Hmin. unfold Dbscan.dbscan.
  rewrite (Qlt_bool_true _ _ Heps). apply Qle_bool_iff in Hmin. by rewrite Hmin.
Qed.

Lemma imap_points (f : nat → list T → Cluster T) (groups : list (list T)) :
  (∀ i pts, c_points (f i pts) = pts) → map c_points (imap f groups) = groups.
Proof.
  revert f. induction groups as [|g groups IH]; intros f Hf; simpl; [done|].
  rewrite Hf. f_equal. apply IH. intros i pts. apply Hf.
Qed.

Lemma noise_labelled st :
  sized st → Dbscan.noise points st = labelled (Dbscan.labels st) (-1) n.
Proof.
  intros Hs. unfold Dbscan.noise, labelled. apply List.filter_ext_in.
  intros i [_ Hi]%in_seq. apply is_unlabeled_label. destruct Hs; lia.
Qed.

Lemma dbscan_returns_label_classes :
  (0 < Dbscan.eps options)%Q → (1 <= Dbscan.minPts options)%Q →
  ∃ st cid ks clusters,
    Dbscan.scan Math_sqrt points options n = Some (st, cid) ∧
    scanned cid n st ∧
    Dbscan.dbscan Math_sqrt points options = Returned clusters ∧
    NoDup ks ∧
    (∀ k : Z, k ∈ ks ↔ (0 ≤ k)%Z ∧ ∃ j, j < n ∧ label st j = k) ∧
    map c_points clusters = map (λ k : Z, select points (members points st k)) ks ∧
    concat (map (members points st) ks) ++ Dbscan.noise points st ≡ₚ seq 0 n.
Proof.
  intros Heps Hmin. destruct scan_scanned as (st & cid & Hscan & Hsc).
  destruct (groupByCluster_spec points (Dbscan.labels st))
    as (ks & Hnd & _ & Hks & Hgroups).
  exists st, cid, ks. eexists. split; [done|]. split; [done|].
  split; [rewrite dbscan_valid by done; by rewrite Hscan|].
  split; [done|]. split; [exact Hks|]. split.
  - rewrite imap_points by done. exact Hgroups.
  - destruct Hsc as [[Hs Hrange _ _ _] _ _ _].
    rewrite noise_labelled by done.
    pose proof (filter_by_key_partition (label_at (Dbscan.labels st))
                  (ks ++ [(-1)%Z]) (seq 0 n)) as Hpart.
    rewrite map_app, concat_app in Hpart. cbn [map concat] in Hpart.
    rewrite app_nil_r in Hpart. apply Hpart.
    + apply NoDup_app. split; [done|]. split; [|apply NoDup_singleton].
      intros l Hl ->%list_elem_of_singleton. apply Hks in Hl as [? _]. lia.
    + intros i Hi%list_elem_of_In%in_seq. apply elem_of_app.
      destruct (Hrange i) as [Hneg|[Hpos _]].
      * right. apply list_elem_of_singleton. exact Hneg.
      * left. apply Hks. split; [exact Hpos|]. exists i. split; [lia|done].
Qed.

(** C6.  With valid options [dbscan] returns, and its clusters are the
    classes of the final labels: there is a duplicate-free list of cluster
    labels such that the returned clusters hold, label by label, the points
    at the indices carrying that label, and the index lists of all clusters
    followed by the list of noise indices are a rearrangement of
    [0, ..., n-1].  So every point is noise or in one cluster, never both,
    never in two clusters and never twice in one. *)
Theorem dbscan_exclusive :
  (0 < Dbscan.eps options)%Q → (1 <= Dbscan.minPts options)%Q →
  ∃ st cid ks clusters,
    Dbscan.scan Math_sqrt points options n = Some (st, cid) ∧
    Dbscan.dbscan Math_sqrt points options = Returned clusters ∧
    NoDup ks ∧
    map c_points clusters = map (λ k : Z, select points (members points st k)) ks ∧
    concat (map (members points st) ks) ++ Dbscan.noise points st ≡ₚ seq 0 n.
Proof.
  intros Heps Hmin.
  destruct (dbscan_returns_label_classes Heps Hmin)
    as (st & cid & ks & clusters & ? & _ & ? & ? & _ & ? & ?).
  by exists st, cid, ks, clusters.
Qed.

(** ** Termination of the expansion loop *)

Lemma expand_loop_terminates fuel cid q queue st :
  sized st →
  NoDup queue →
  (∀ x, x ∈ queue → x < n) →
  q ≤ length queue →
  n ≤ fuel + q →
  ∃ queue' st',
    expand_loop fuel cid q queue st = Some (length queue', queue', st') ∧
    queue `prefix_of` queue' ∧
    NoDup queue' ∧
    length queue' ≤ n.
Proof.
  revert q queue st.
  induction fuel as [|fuel IH]; intros q queue st Hs Hnd Hbound Hq Hfuel;
    pose proof (NoDup_bounded_length queue n Hnd Hbound) as Hlen;
    destruct (queue !! q) as [j|] eqn:Hj.
  - apply lookup_lt_Some in Hj. lia.
  - apply lookup_ge_None in Hj. assert (q = length queue) as -> by lia.
    exists queue, st. simpl. by rewrite lookup_ge_None_2.
  - assert (j < n) as Hjn by (by eapply Hbound, list_elem_of_lookup_2).
    destruct (expand_step_effect cid j queue st Hs Hjn) as (st' & Hstep & Hs' & _).
    destruct (step_queue_spec j queue st) as (added & Hqueue & Hadded & _ & Hnd').
    destruct (IH (S q) (step_queue j queue st) st' Hs')
      as (queue' & st'' & Hloop & Hpre & Hnd'' & Hlen'').
    + rewrite Hqueue. by apply Hnd'.
    + rewrite Hqueue. intros x [Hx|Hx]%elem_of_app; [by apply Hbound|].
      apply Hadded in Hx as (_ & _ & Hx). by apply neighbors_lt in Hx.
    + rewrite Hqueue, length_app. apply lookup_lt_Some in Hj. lia.
    + lia.
    + exists queue', st''. split_and!; try done.
      * simpl. rewrite Hj, Hstep. exact Hloop.
      * etrans; [|exact Hpre]. rewrite Hqueue. by apply prefix_app_r.
  - apply lookup_ge_None in Hj. assert (q = length queue) as -> by lia.
    exists queue, st. simpl. by rewrite lookup_ge_None_2.
Qed.

(** C10.  With valid options [dbscan] returns: the fuel of [n] iterations
    that every expansion is given is never used up.  Neighbor lists are
    free of duplicates, and from any head of the expansion loop whose queue
    is duplicate-free and holds indices of points, the loop exits after at
    most [n - q] further iterations with a queue that extends the one it
    started from, is still duplicate-free and is no longer than [n]; its
    exit index, the number of iterations of a loop started at [q = 0], is
    the length of that queue. *)
Theorem expansion_queue_bounded :
  (0 < Dbscan.eps options)%Q → (1 <= Dbscan.minPts options)%Q →
  (∃ clusters, Dbscan.dbscan Math_sqrt points options = Returned clusters) ∧
  (∀ i, NoDup (N i) ∧ ∀ x, x ∈ N i → x < n) ∧
  ∀ st cid q queue,
    sized st → NoDup queue → (∀ x, x ∈ queue → x < n) → q ≤ length queue →
    ∃ iterations queue' st',
      expand_loop (n - q) cid q queue st = Some (iterations, queue', st') ∧
      iterations = length queue' ∧
      queue `prefix_of` queue' ∧
      NoDup queue' ∧
      length queue' ≤ n.
Proof.
  intros Heps Hmin. split_and!.
  - destruct (dbscan_returns_label_classes Heps Hmin)
      as (_ & _ & _ & clusters & _ & _ & ? & _). by exists clusters.
  - intros i. split; [apply NoDup_neighbors|apply neighbors_lt].
  - intros st cid q queue Hs Hnd Hbound Hq.
    destruct (expand_loop_terminates (n - q) cid q queue st Hs Hnd Hbound Hq)
      as (queue' & st' & Hloop & Hpre & Hnd' & Hlen'); [lia|].
    by exists (length queue'), queue', st'.
Qed.

(** ** Absorption of the neighbors of a core point *)

Lemma dense_iff i :
  dense i = true ↔
  (Dbscan.minPts options <= length_number (N i) + 1)%Q.
Proof. apply Qle_bool_iff. Qed.

(** A point with at least [minPts] neighbors passes the test of the code. *)
Lemma crowded_dense i :
  (Dbscan.minPts options <= length_number (N i))%Q → dense i = true.
Proof.
  intros Hle. apply dense_iff. eapply Qle_trans; [exact Hle|].
  rewrite <- (Qplus_0_r (length_number (N i))) at 1.
  apply Qplus_le_r. done.
Qed.


Lemma scanned_absorbs cid st p q :
  scanned cid n st → p < n → dense p = true → q ∈ N p →
  (0 ≤ label st q ≤ label st p)%Z.
Proof.
  intros [[_ _ _ Hcore _] Habs _ Hdone] Hp Hd Hq.
  assert (core st p = true) as Hc by (apply Hcore; auto).
  destruct (Habs p q Hc Hq) as [?|[_ Hnil]]; [done|]. by apply elem_of_nil in Hnil.
Qed.


End dbscan_facts.

(** * Centers *)

Lemma sum_latlng_lat {A : Type} (coord : A → LatLng) (pts : list A) (acc : LatLng) :
  lat (fold_left
         (λ latlng point,
            {| lat := (lat latlng + lat (coord point))%Q;
               lng := (lng latlng + lng (coord point))%Q |}) pts acc)
  = fold_left Qplus (map (λ p, lat (coord p)) pts) (lat acc).
Proof. revert acc. induction pts as [|p pts IH]; intros acc; simpl; [done|]. by rewrite IH. Qed.

Lemma sum_latlng_lng {A : Type} (coord : A → LatLng) (pts : list A) (acc : LatLng) :
  lng (fold_left
         (λ latlng point,
            {| lat := (lat latlng + lat (coord point))%Q;
               lng := (lng latlng + lng (coord point))%Q |}) pts acc)
  = fold_left Qplus (map (λ p, lng (coord p)) pts) (lng acc).
Proof. revert acc. induction pts as [|p pts IH]; intros acc; simpl; [done|]. by rewrite IH. Qed.

Lemma mean_latlng_sum {A : Type} (coord : A → LatLng) (pts : list A) :
  mean_latlng coord pts =
  {| lat := (Qsum (map (λ p, lat (coord p)) pts) / length_number pts)%Q;
     lng := (Qsum (map (λ p, lng (coord p)) pts) / length_number pts)%Q |}.
Proof.
  unfold mean_latlng, sum_latlng, Qsum.
  by rewrite sum_latlng_lat, sum_latlng_lng.
Qed.

(** C9.  The center of every cluster [grid] returns is the sum of its
    points' [lat] (and [lng]) divided by the number of points, and so is
    the center of every cluster [dbscan] returns, read through the [coord]
    accessor; nothing else of a point enters.  In the scenario of the
    specification [grid] returns one cluster with both points, centered at
    latitude 0 and longitude 0.0005. *)
Theorem centers_are_means :
  (∀ (T : Type) (L : Located T) (data : list T) (options : Grid.GridOptions T)
     clusters c,
     Grid.grid data options = Returned clusters → c ∈ clusters →
     c_center c =
     {| lat := (Qsum (map lat_of (c_points c)) / length_number (c_points c))%Q;
        lng := (Qsum (map lng_of (c_points c)) / length_number (c_points c))%Q |}) ∧
  (∀ (T : Type) Math_sqrt (points : list T) (options : Dbscan.DbscanOptions T)
     clusters c,
     Dbscan.dbscan Math_sqrt points options = Returned clusters → c ∈ clusters →
     c_center c =
     {| lat := (Qsum (map (λ p, lat (Dbscan.coord options p)) (c_points c))
                / length_number (c_points c))%Q;
        lng := (Qsum (map (λ p, lng (Dbscan.coord options p)) (c_points c))
                / length_number (c_points c))%Q |}) ∧
  (∃ c, Grid.grid scenario1_data scenario1_options = Returned [c] ∧
        c_points c = scenario1_data ∧
        (lat (c_center c) == 0)%Q ∧ (lng (c_center c) == 5 # 10000)%Q).
Proof.
  split_and!.
  - intros T L data options clusters c [= <-] Hc.
    apply list_elem_of_fmap in Hc as (entry & -> & _). simpl.
    apply mean_latlng_sum.
  - intros T Math_sqrt points options clusters c Hret Hc.
    unfold Dbscan.dbscan in Hret.
    destruct (negb _); [discriminate|]. destruct (negb _); [discriminate|].
    destruct (Dbscan.scan _ _ _ _) as [[st cid]|]; [|discriminate].
    injection Hret as <-.
    apply list_elem_of_lookup in Hc as [i Hi].
    apply list_lookup_imap_Some in Hi as (pts & _ & ->). simpl.
    apply mean_latlng_sum.
  - eexists. split; [vm_compute; reflexivity|]. by vm_compute.
Qed.

Lemma centers_are_means_witness :
  ∃ c, Grid.grid scenario1_data scenario1_options = Returned [c] ∧
       c_center c =
       {| lat := (Qsum (map lat_of (c_points c)) / length_number (c_points c))%Q;
          lng := (Qsum (map lng_of (c_points c)) / length_number (c_points c))%Q |}.
Proof.
  eexists. split; [vm_compute; reflexivity|].
  eapply (proj1 centers_are_means LatLng _ scenario1_data scenario1_options).
  - vm_compute; reflexivity.
  - apply list_elem_of_singleton. reflexivity.
Defined.

(** * The radius *)

Section radius.
Context {T : Type}.
Variable Math_sqrt : Q → Q.
Variable points : list T.
Variable options : Dbscan.DbscanOptions T.
Variable e2 : Q.

Hypothesis radius_le : (Dbscan.eps options <= e2)%Q.

Local Abbreviation wider := (with_eps e2 options).
Local Abbreviation n := (length points).

Lemma within_eps_wider i j :
  Dbscan.within_eps Math_sqrt points options i j = true →
  Dbscan.within_eps Math_sqrt points wider i j = true.
Proof using radius_le.
  unfold Dbscan.within_eps. simpl. destruct (Nat.eqb i j).
  - rewrite !Qle_bool_iff. intros H0. by eapply Qle_trans.
  - destruct (points !! i), (points !! j); try done.
    rewrite !Qle_bool_iff. intros Hd. eapply Qle_trans; [exact Hd|done].
Qed.

Lemma filter_length_le {A : Type} (f g : A → bool) (l : list A) :
  (∀ x, f x = true → g x = true) →
  length (List.filter f l) ≤ length (List.filter g l).
Proof.
  intros Hfg. induction l as [|x l IH]; simpl; [done|].
  destruct (f x) eqn:Hf.
  - rewrite (Hfg x Hf). simpl. lia.
  - destruct (g x); simpl; lia.
Qed.

Lemma neighbors_wider i x :
  x ∈ neighbors Math_sqrt points options i → x ∈ neighbors Math_sqrt points wider i.
Proof using radius_le.
  rewrite !elem_of_neighbors. intros [? ?]. split; [done|]. by apply within_eps_wider.
Qed.

Lemma dense_wider i :
  dense Math_sqrt points options i = true → dense Math_sqrt points wider i = true.
Proof using radius_le.
  rewrite !dense_iff. simpl. intros Hd. eapply Qle_trans; [exact Hd|].
  apply Qplus_le_l. unfold length_number. rewrite <- Zle_Qle.
  apply inj_le. unfold neighbors, Dbscan.scan_neighbors.
  apply filter_length_le, within_eps_wider.
Qed.

Lemma edge_wider a b :
  edge Math_sqrt points options a b → edge Math_sqrt points wider a b.
Proof using radius_le.
  intros (Ha & Hb & Hin). split_and!; auto using dense_wider, neighbors_wider.
Qed.

Lemma within_eps_symmetric (o : Dbscan.DbscanOptions T) i j :
  (∀ a b, (Dbscan.buildDistance Math_sqrt o a b ==
           Dbscan.buildDistance Math_sqrt o b a)%Q) →
  Dbscan.within_eps Math_sqrt points o i j = Dbscan.within_eps Math_sqrt points o j i.
Proof.
  intros Hsym. unfold Dbscan.within_eps. rewrite (Nat.eqb_sym j i).
  destruct (Nat.eqb i j); [done|].
  destruct (points !! i) as [a|], (points !! j) as [b|]; try done.
  apply eq_true_iff_eq. rewrite !Qle_bool_iff. by rewrite (Hsym a b).
Qed.

Lemma edge_same_label (o : Dbscan.DbscanOptions T) cid st a b :
  (∀ a b, (Dbscan.buildDistance Math_sqrt o a b ==
           Dbscan.buildDistance Math_sqrt o b a)%Q) →
  scanned Math_sqrt points o cid n st →
  sc (edge Math_sqrt points o) a b →
  label st a = label st b.
Proof.
  intros Hsym Hsc.
  assert (∀ x y, edge Math_sqrt points o x y → label st x = label st y) as Hedge.
  { intros x y (Hx & Hy & Hin).
    assert (x ∈ neighbors Math_sqrt points o y) as Hin'.
    { apply elem_of_neighbors in Hin as [Hyn Hw].
      assert (x < n) as Hxn.
      { unfold Dbscan.within_eps in Hw. destruct (Nat.eqb_spec x y); [lia|].
        destruct (points !! x) eqn:Hpx; [|done]. by apply lookup_lt_Some in Hpx. }
      apply elem_of_neighbors. split; [done|].
      by rewrite within_eps_symmetric. }
    pose proof (neighbors_lt _ _ _ _ _ Hin) as Hyn.
    pose proof (neighbors_lt _ _ _ _ _ Hin') as Hxn.
    pose proof (scanned_absorbs _ _ _ cid st x y Hsc Hxn Hx Hin).
    pose proof (scanned_absorbs _ _ _ cid st y x Hsc Hyn Hy Hin'). lia. }
  intros [Hab|Hba]; [by apply Hedge|symmetry; by apply Hedge].
Qed.

Lemma linked_same_label (o : Dbscan.DbscanOptions T) cid st a b :
  (∀ a b, (Dbscan.buildDistance Math_sqrt o a b ==
           Dbscan.buildDistance Math_sqrt o b a)%Q) →
  scanned Math_sqrt points o cid n st →
  rtsc (edge Math_sqrt points o) a b →
  label st a = label st b.
Proof.
  intros Hsym Hsc. induction 1 as [|x y z Hxy _ IH]; [done|].
  rewrite <- IH. by eapply edge_same_label.
Qed.

(** C8, as the code has it.  Let the distance be symmetric and the radius
    grow from [eps] to [e2], everything else unchanged.  Two points that
    are core at [eps] (each has at least [minPts] points, itself included,
    within [eps]) and carry the same label after the run at [eps] carry
    the same cluster label after the run at [e2]: growing the radius never
    separates two core points of one cluster. *)
Theorem eps_monotone_on_cores :
  (0 < Dbscan.eps options)%Q → (1 <= Dbscan.minPts options)%Q →
  (∀ a b, (Dbscan.buildDistance Math_sqrt options a b ==
           Dbscan.buildDistance Math_sqrt options b a)%Q) →
  ∃ st1 cid1 st2 cid2,
    Dbscan.scan Math_sqrt points options n = Some (st1, cid1) ∧
    Dbscan.dbscan Math_sqrt points options =
      Returned (imap (Dbscan.to_cluster options)
                  (Dbscan.groupByCluster points (Dbscan.labels st1))) ∧
    Dbscan.scan Math_sqrt points wider n = Some (st2, cid2) ∧
    Dbscan.dbscan Math_sqrt points wider =
      Returned (imap (Dbscan.to_cluster wider)
                  (Dbscan.groupByCluster points (Dbscan.labels st2))) ∧
    ∀ p p', p < n → p' < n →
      (Dbscan.minPts options
         <= length_number (neighbors Math_sqrt points options p))%Q →
      (Dbscan.minPts options
         <= length_number (neighbors Math_sqrt points options p'))%Q →
      label st1 p = label st1 p' →
      (0 ≤ label st2 p)%Z ∧ label st2 p = label st2 p'.
Proof using radius_le.
  intros Heps Hmin Hsym.
  destruct (scan_scanned Math_sqrt points options) as (st1 & cid1 & Hscan1 & Hsc1).
  destruct (scan_scanned Math_sqrt points wider) as (st2 & cid2 & Hscan2 & Hsc2).
  exists st1, cid1, st2, cid2. split; [done|].
  split; [rewrite dbscan_valid by done; by rewrite Hscan1|]. split; [done|].
  split.
  { rewrite dbscan_valid; [by rewrite Hscan2| |done].
    simpl. eapply Qlt_le_trans; [exact Heps|done]. }
  intros p p' Hp Hp' Hd%crowded_dense Hd'%crowded_dense Hlab.
  destruct Hsc1 as [[_ Hrange1 _ Hcore1 Hcl1] _ Hlink1 Hdone1].
  assert (core st1 p = true) as Hc by (apply Hcore1; auto).
  assert (core st1 p' = true) as Hc' by (apply Hcore1; auto).
  assert (rtsc (edge Math_sqrt points options) p p') as Hchain.
  { apply (Hlink1 p p' Hc Hc' Hlab). destruct (Hrange1 p) as [Hneg|?]; [|lia].
    apply Hcl1 in Hc. lia. }
  assert (rtsc (edge Math_sqrt points wider) p p') as Hchain2.
  { exact (rtsc_congruence id (edge Math_sqrt points wider) p p' edge_wider Hchain). }
  split.
  - destruct Hsc2 as [[_ _ _ Hcore2 Hcl2] _ _ Hdone2].
    apply Hcl2, Hcore2. split; [auto|]. by apply dense_wider.
  - by eapply (linked_same_label wider).
Qed.

End radius.

(** * The claims on concrete inputs *)

(** C1 on the code.  Four points on a line, a quarter apart, [eps = 1] and
    [minPts = 5]: every point has exactly four neighbors, itself included,
    yet the first point starts a cluster that takes all four, and no point
    is noise.  The test of the main loop, [neigh.length + 1 < minPts],
    counts the point twice. *)
Lemma scenario3_forms_a_cluster :
  map (neighbors sqrt_floor scenario3_points (line_options 1 5)) (seq 0 4)
    = [[0; 1; 2; 3]; [0; 1; 2; 3]; [0; 1; 2; 3]; [0; 1; 2; 3]] ∧
  (∃ c, Dbscan.dbscan sqrt_floor scenario3_points (line_options 1 5) = Returned [c] ∧
        c_points c = scenario3_points) ∧
  (∃ st cid,
     Dbscan.scan sqrt_floor scenario3_points (line_options 1 5) 4 = Some (st, cid) ∧
     Dbscan.labels st = [0; 0; 0; 0]%Z ∧
     Dbscan.noise scenario3_points st = []).
Proof.
  split; [by vm_compute|]. split.
  - eexists. split; [vm_compute; reflexivity|]. reflexivity.
  - do 2 eexists. split; [vm_compute; reflexivity|]. by vm_compute.
Qed.


(** C8 fails on the code, in two ways.

    A border point can change cluster.  On [drift_points] with
    [minPts = 5] the point 0 (index 6) and the point 2 (index 7), which
    has six neighbors, are in one cluster at [eps = 2] and in two
    different clusters at [eps = 3], where the point -3 has seven
    neighbors and takes 0 first.  No point has four neighbors at either
    radius, so [neigh.length + 1 >= minPts] and [neigh.length >= minPts]
    accept the same points.

    Under a distance that is not symmetric two core points can be
    separated.  On [one_way_points] with [minPts = 2] every point has at
    least two neighbors at both radii; the points 2 and 3 are in one
    cluster at [eps = 1] and in two different clusters at [eps = 2]. *)
Lemma wider_radius_splits_a_cluster :
  ((2 <= 3)%Q ∧
   map (λ i, length (neighbors sqrt_floor drift_points (line_options 2 5) i))
     (seq 0 12) = [1; 5; 5; 5; 5; 5; 2; 6; 5; 5; 5; 5] ∧
   map (λ i, length (neighbors sqrt_floor drift_points
                       (with_eps 3 (line_options 2 5)) i))
     (seq 0 12) = [7; 6; 6; 6; 6; 6; 3; 6; 5; 5; 5; 5] ∧
   (∃ c1 c2,
      Dbscan.dbscan sqrt_floor drift_points (line_options 2 5) = Returned [c1; c2] ∧
      c_points c1 = [-6; -6; -6; -6; -6]%Q ∧
      c_points c2 = [0; 2; 4; 4; 4; 4]%Q) ∧
   (∃ c1 c2,
      Dbscan.dbscan sqrt_floor drift_points (with_eps 3 (line_options 2 5))
        = Returned [c1; c2] ∧
      c_points c1 = [-3; -6; -6; -6; -6; -6; 0]%Q ∧
      c_points c2 = [2; 4; 4; 4; 4]%Q) ∧
   (∃ st cid,
      Dbscan.scan sqrt_floor drift_points (line_options 2 5) 12 = Some (st, cid) ∧
      label st 6 = 1%Z ∧ label st 7 = 1%Z) ∧
   (∃ st cid,
      Dbscan.scan sqrt_floor drift_points (with_eps 3 (line_options 2 5)) 12
        = Some (st, cid) ∧
      label st 6 = 0%Z ∧ label st 7 = 1%Z)) ∧
  ((1 <= 2)%Q ∧
   map (neighbors sqrt_floor one_way_points (one_way_options 1)) (seq 0 4)
     = [[0; 1]; [0; 1]; [2; 3]; [0; 3]] ∧
   map (neighbors sqrt_floor one_way_points (with_eps 2 (one_way_options 1)))
     (seq 0 4) = [[0; 1; 3]; [0; 1]; [2; 3]; [0; 3]] ∧
   (∃ c1 c2,
      Dbscan.dbscan sqrt_floor one_way_points (one_way_options 1)
        = Returned [c1; c2] ∧
      c_points c1 = [0; 1] ∧ c_points c2 = [2; 3]) ∧
   (∃ c1 c2,
      Dbscan.dbscan sqrt_floor one_way_points (with_eps 2 (one_way_options 1))
        = Returned [c1; c2] ∧
      c_points c1 = [0; 1; 3] ∧ c_points c2 = [2]) ∧
   (∃ st cid,
      Dbscan.scan sqrt_floor one_way_points (one_way_options 1) 4 = Some (st, cid) ∧
      label st 2 = 1%Z ∧ label st 3 = 1%Z) ∧
   (∃ st cid,
      Dbscan.scan sqrt_floor one_way_points (with_eps 2 (one_way_options 1)) 4
        = Some (st, cid) ∧
      label st 2 = 1%Z ∧ label st 3 = 0%Z)).
Proof.
  split.
  - split; [by vm_compute|]. split; [by vm_compute|]. split; [by vm_compute|].
    split; [|split; [|split]].
    + do 2 eexists. split; [vm_compute; reflexivity|]. by vm_compute.
    + do 2 eexists. split; [vm_compute; reflexivity|]. by vm_compute.
    + do 2 eexists. split; [vm_compute; reflexivity|]. by vm_compute.
    + do 2 eexists. split; [vm_compute; reflexivity|]. by vm_compute.
  - split; [by vm_compute|]. split; [by vm_compute|]. split; [by vm_compute|].
    split; [|split; [|split]].
    + do 2 eexists. split; [vm_compute; reflexivity|]. by vm_compute.
    + do 2 eexists. split; [vm_compute; reflexivity|]. by vm_compute.
    + do 2 eexists. split; [vm_compute; reflexivity|]. by vm_compute.
    + do 2 eexists. split; [vm_compute; reflexivity|]. by vm_compute.
Qed.

(** ** Instances of the general statements *)

Lemma sqrt_floor_proper (x y : Q) : (x == y)%Q → sqrt_floor x = sqrt_floor y.
Proof. intros Hxy. unfold sqrt_floor. by rewrite (Qred_complete x y Hxy). Qed.

Lemma line_distance_symmetric (e m : Q) (a b : Q) :
  (Dbscan.buildDistance sqrt_floor (line_options e m) a b ==
   Dbscan.buildDistance sqrt_floor (line_options e m) b a)%Q.
Proof.
  unfold Dbscan.buildDistance, Dbscan.euclidean; simpl.
  rewrite (sqrt_floor_proper (0 + (a - b) * (a - b)) (0 + (b - a) * (b - a))).
  - reflexivity.
  - ring.
Qed.

Lemma dbscan_exclusive_witness :
  ∃ st cid ks clusters,
    Dbscan.scan sqrt_floor bridge_points (line_options 2 5) (length bridge_points)
      = Some (st, cid) ∧
    Dbscan.dbscan sqrt_floor bridge_points (line_options 2 5) = Returned clusters ∧
    NoDup ks ∧
    map c_points clusters
      = map (λ k : Z, select bridge_points (members bridge_points st k)) ks ∧
    concat (map (members bridge_points st) ks) ++ Dbscan.noise bridge_points st
      ≡ₚ seq 0 (length bridge_points).
Proof.
  apply (dbscan_exclusive sqrt_floor bridge_points (line_options 2 5));
    by vm_compute.
Defined.

Lemma expansion_queue_bounded_witness :
  (∃ clusters,
     Dbscan.dbscan sqrt_floor bridge_points (line_options 2 5) = Returned clusters) ∧
  NoDup (neighbors sqrt_floor bridge_points (line_options 2 5) 3).
Proof.
  destruct (expansion_queue_bounded sqrt_floor bridge_points (line_options 2 5))
    as (Hret & Hnd & _); [by vm_compute..|].
  split; [exact Hret|]. apply Hnd.
Defined.


Lemma eps_monotone_on_cores_witness :
  ∃ st1 cid1 st2 cid2,
    Dbscan.scan sqrt_floor drift_points (line_options 2 5) (length drift_points)
      = Some (st1, cid1) ∧
    Dbscan.scan sqrt_floor drift_points (with_eps 3 (line_options 2 5))
      (length drift_points) = Some (st2, cid2) ∧
    label st1 7 = label st1 8 ∧
    (0 ≤ label st2 7)%Z ∧ label st2 7 = label st2 8.
Proof.
  destruct (eps_monotone_on_cores sqrt_floor drift_points (line_options 2 5) 3)
    as (st1 & cid1 & st2 & cid2 & Hscan1 & _ & Hscan2 & _ & Hsame);
    [by vm_compute..|apply line_distance_symmetric|].
  exists st1, cid1, st2, cid2. split; [exact Hscan1|]. split; [exact Hscan2|].
  assert (label st1 7 = label st1 8) as Hlab.
  { vm_compute in Hscan1. by injection Hscan1 as <- <-. }
  split; [exact Hlab|].
  apply Hsame; [simpl; lia|simpl; lia|by vm_compute|by vm_compute|exact Hlab].
Defined.

(** * More on grid *)

Section grid_cells.
Context {T : Type} `{Located T}.
Variable options : Grid.GridOptions T.

Local Abbreviation key := (Grid.groupID options).
Local Abbreviation cell := (cell_of key).

Implicit Types (buckets : list (string * list T)) (data seen : list T).

Lemma bucket_push_in (f : string → list T) (ks : list string) k0 x :
  NoDup ks → k0 ∈ ks →
  Grid.bucket_push (map (λ k, (k, f k)) ks) k0 x =
  map (λ k, (k, if String.eqb k k0 then f k ++ [x] else f k)) ks.
Proof.
  induction ks as [|k1 ks IH]; intros Hnd Hin; simpl.
  - by apply elem_of_nil in Hin.
  - apply NoDup_cons in Hnd as [Hk1 Hnd].
    destruct (String.eqb_spec k1 k0) as [->|Hne].
    + f_equal. apply map_ext_in. intros k Hk%list_elem_of_In.
      destruct (String.eqb_spec k k0) as [->|_]; [done|done].
    + apply elem_of_cons in Hin as [->|Hin]; [done|]. by rewrite IH.
Qed.

Lemma bucket_push_absent buckets k x :
  k ∉ buckets.*1 → Grid.bucket_push buckets k x = buckets ++ [(k, [x])].
Proof.
  induction buckets as [|[k0 ps] buckets IH]; simpl; intros Hk; [done|].
  apply not_elem_of_cons in Hk as [Hne Hk].
  destruct (String.eqb_spec k0 k) as [->|_]; [done|]. by rewrite IH.
Qed.

Lemma string_keys_of_map (f : string → list T) (ks : list string) :
  (map (λ k, (k, f k)) ks).*1 = ks.
Proof. induction ks as [|k ks IH]; simpl; [done|]. f_equal. exact IH. Qed.

Lemma cell_snoc seen p k :
  cell (seen ++ [p]) k = cell seen k ++ (if String.eqb (key p) k then [p] else []).
Proof.
  unfold cell_of. rewrite List.filter_app. simpl.
  by destruct (String.eqb (key p) k).
Qed.

Lemma celled_step seen buckets p :
  celled key seen buckets →
  celled key (seen ++ [p]) (Grid.bucket_push buckets (key p) p).
Proof.
  intros (Hnd & Hb & Hkeys).
  assert (∀ k, k ≠ key p → cell (seen ++ [p]) k = cell seen k) as Hother.
  { intros k Hk. rewrite cell_snoc.
    destruct (String.eqb_spec (key p) k); [congruence|]. by rewrite app_nil_r. }
  assert (cell (seen ++ [p]) (key p) = cell seen (key p) ++ [p]) as Hsame.
  { rewrite cell_snoc. by rewrite String.eqb_refl. }
  destruct (decide (key p ∈ buckets.*1)) as [Hin|Hout].
  - rewrite Hb at 1. rewrite bucket_push_in by done.
    assert (map (λ k, (k, if String.eqb k (key p) then cell seen k ++ [p] else cell seen k))
              buckets.*1
            = map (λ k, (k, cell (seen ++ [p]) k)) buckets.*1) as Heq.
    { apply map_ext_in. intros k _. destruct (String.eqb_spec k (key p)) as [->|Hne].
      - by rewrite Hsame.
      - by rewrite Hother. }
    rewrite Heq. unfold celled. rewrite string_keys_of_map.
    split; [done|]. split; [done|].
    intros k. rewrite Hkeys. split; intros (q & Hq & Hk).
    + exists q. split; [|done]. apply elem_of_app. by left.
    + apply elem_of_app in Hq as [Hq|Hq%list_elem_of_singleton].
      * by exists q.
      * subst q k. by apply Hkeys.
  - rewrite bucket_push_absent by done. unfold celled. rewrite fmap_app. simpl.
    assert (cell seen (key p) = []) as Hnil.
    { destruct (cell seen (key p)) as [|q l] eqn:Hc; [done|].
      assert (In q (cell seen (key p))) as Hq by (rewrite Hc; by left).
      unfold cell_of in Hq. apply filter_In in Hq as [Hq Hk].
      apply String.eqb_eq in Hk.
      destruct Hout. apply Hkeys. exists q. split; [by apply list_elem_of_In|done]. }
    split; [|split].
    + apply NoDup_app. split; [done|]. split; [|apply NoDup_singleton].
      intros k Hk ->%list_elem_of_singleton. done.
    + rewrite map_app. simpl. rewrite Hsame, Hnil. simpl. f_equal.
      rewrite Hb at 1. apply map_ext_in. intros k Hk%list_elem_of_In.
      rewrite Hother; [done|]. intros ->. done.
    + intros k. rewrite elem_of_app, list_elem_of_singleton, Hkeys. split.
      * intros [(q & Hq & Hk)| ->].
        -- exists q. split; [|done]. apply elem_of_app. by left.
        -- exists p. split; [|done]. apply elem_of_app. right.
           by apply list_elem_of_singleton.
      * intros (q & [Hq|Hq%list_elem_of_singleton]%elem_of_app & Hk).
        -- left. by exists q.
        -- right. by subst.
Qed.

Lemma fill_buckets_celled data seen buckets :
  celled key seen buckets →
  celled key (seen ++ data) (Grid.fill_buckets options data buckets).
Proof.
  unfold Grid.fill_buckets. revert seen buckets.
  induction data as [|p data IH]; intros seen buckets Hc; simpl.
  - by rewrite app_nil_r.
  - replace (seen ++ p :: data) with ((seen ++ [p]) ++ data)
      by (by rewrite <- (assoc_L (++))).
    apply IH. by apply celled_step.
Qed.

Lemma celled_nil : celled key [] [].
Proof.
  split; [constructor|]. split; [done|]. intros k. split.
  - intros Hk. by apply elem_of_nil in Hk.
  - intros (p & Hp & _). by apply elem_of_nil in Hp.
Qed.

Lemma to_cluster_ids buckets : map c_id (map Grid.to_cluster buckets) = buckets.*1.
Proof. induction buckets as [|e rest IH]; simpl; [done|]. f_equal. exact IH. Qed.

(** X1.  The clusters [grid] returns are the cells of the input: cluster
    ids are pairwise distinct, every input point's cell id is the id of a
    returned cluster, and the points of a cluster are exactly the input
    points with that cell id, in input order.  So two points share a
    cluster exactly when they have the same cell id. *)
Theorem grid_clusters_are_cells data :
  ∃ clusters,
    Grid.grid data options = Returned clusters ∧
    NoDup (map c_id clusters) ∧
    (∀ p, p ∈ data → key p ∈ map c_id clusters) ∧
    Forall (λ c, c_points c = cell_of key data (c_id c)) clusters.
Proof.
  eexists. split; [reflexivity|].
  pose proof (fill_buckets_celled data [] [] celled_nil) as (Hnd & Hb & Hkeys).
  simpl in Hb, Hkeys. rewrite to_cluster_ids. split; [done|]. split.
  - intros p Hp. apply Hkeys. by exists p.
  - apply Forall_fmap, Forall_forall. intros e He. rewrite Hb in He.
    apply list_elem_of_fmap in He as (k & -> & _). done.
Qed.

Lemma bucket_push_keys_present buckets k x :
  k ∈ buckets.*1 → (Grid.bucket_push buckets k x).*1 = buckets.*1.
Proof.
  induction buckets as [|[k0 ps] buckets IH]; intros Hk.
  - by apply elem_of_nil in Hk.
  - cbn [Grid.bucket_push]. destruct (String.eqb_spec k0 k) as [->|Hne].
    + reflexivity.
    + change (k ∈ k0 :: buckets.*1) in Hk.
      apply elem_of_cons in Hk as [?|Hk]; [congruence|].
      change (k0 :: (Grid.bucket_push buckets k x).*1 = k0 :: buckets.*1).
      by rewrite IH.
Qed.

Lemma order_step seen buckets p :
  celled key seen buckets →
  in_order_of_first_occurrence (map key seen) buckets.*1 →
  in_order_of_first_occurrence (map key (seen ++ [p]))
    (Grid.bucket_push buckets (key p) p).*1.
Proof.
  intros (_ & _ & Hkeys) Hord. rewrite map_app. simpl.
  assert (length (map key seen) = length seen) as Hlen by apply length_map.
  assert (∀ a k, map key seen !! a = Some k →
            (map key seen ++ [key p]) !! a = Some k ∧ a < length seen) as Hold.
  { intros a k Ha. pose proof (lookup_lt_Some _ _ _ Ha).
    split; [by rewrite lookup_app_l|lia]. }
  assert (∀ b k, (map key seen ++ [key p]) !! b = Some k →
            map key seen !! b = Some k ∨ (b = length seen ∧ k = key p)) as Hnew.
  { intros b k Hb. destruct (decide (b < length seen)) as [Hlt|Hge].
    - left. by rewrite lookup_app_l in Hb by lia.
    - right. rewrite lookup_app_r in Hb by lia.
      rewrite Hlen in Hb. destruct (b - length seen) as [|m] eqn:Hm; [|done].
      simpl in Hb. split; [lia|congruence]. }
  destruct (decide (key p ∈ buckets.*1)) as [Hin|Hout];
    [rewrite bucket_push_keys_present by done
    |rewrite bucket_push_absent, fmap_app by done; simpl].
  - intros i j k1 k2 Hi Hj Hij.
    destruct (Hord i j k1 k2 Hi Hj Hij) as (a & Ha & Hbefore).
    destruct (Hold a k1 Ha) as [Ha' Hlt]. exists a. split; [done|].
    intros b [Hb|[-> _]]%Hnew; [by apply Hbefore|done].
  - intros i j k1 k2 Hi Hj Hij.
    destruct (decide (j < length buckets.*1)) as [Hjl|Hjl].
    + rewrite lookup_app_l in Hi, Hj by lia.
      destruct (Hord i j k1 k2 Hi Hj Hij) as (a & Ha & Hbefore).
      destruct (Hold a k1 Ha) as [Ha' Hlt]. exists a. split; [done|].
      intros b [Hb|[-> _]]%Hnew; [by apply Hbefore|done].
    + assert (k2 = key p) as ->.
      { rewrite lookup_app_r in Hj by lia.
        destruct (j - length buckets.*1) as [|m]; [|done]. simpl in Hj. congruence. }
      assert (i < length buckets.*1) as Hil.
      { apply lookup_lt_Some in Hi, Hj. rewrite length_app in Hi, Hj.
        simpl in Hi, Hj. lia. }
      rewrite lookup_app_l in Hi by lia.
      assert (k1 ∈ buckets.*1) as Hk1 by (by eapply list_elem_of_lookup_2).
      apply Hkeys in Hk1 as (q & Hq & <-).
      apply list_elem_of_lookup in Hq as [a Ha].
      assert (map key seen !! a = Some (key q)) as Ha'
        by (by rewrite list_lookup_fmap, Ha).
      destruct (Hold a _ Ha') as [Ha'' Hlt]. exists a. split; [done|].
      intros b [Hb|[-> _]]%Hnew; [|done].
      destruct Hout. apply Hkeys.
      apply list_lookup_fmap_Some in Hb as (q' & Hq' & Hk).
      exists q'. split; [by eapply list_elem_of_lookup_2|done].
Qed.

Lemma fill_buckets_order data seen buckets :
  celled key seen buckets →
  in_order_of_first_occurrence (map key seen) buckets.*1 →
  in_order_of_first_occurrence (map key (seen ++ data))
    (Grid.fill_buckets options data buckets).*1.
Proof.
  unfold Grid.fill_buckets. revert seen buckets.
  induction data as [|p data IH]; intros seen buckets Hc Hord; simpl.
  - by rewrite app_nil_r.
  - replace (seen ++ p :: data) with ((seen ++ [p]) ++ data)
      by (by rewrite <- (assoc_L (++))).
    apply IH; [by apply celled_step|by apply order_step].
Qed.

(** X2.  [grid] returns its clusters in the order in which their cells
    first occur in the input: if one cluster comes before another, some
    point of the first cell precedes every point of the second. *)
Theorem grid_clusters_in_input_order data :
  ∃ clusters,
    Grid.grid data options = Returned clusters ∧
    in_order_of_first_occurrence (map key data) (map c_id clusters).
Proof.
  eexists. split; [reflexivity|]. rewrite to_cluster_ids.
  apply (fill_buckets_order data [] [] celled_nil).
  intros i j k1 k2 Hi. done.
Qed.

(** X3.  [grid] returns at most as many clusters as there are points, and
    none exactly when the input is empty. *)
Theorem grid_cluster_count data :
  ∃ clusters,
    Grid.grid data options = Returned clusters ∧
    length clusters ≤ length data ∧
    (clusters = [] ↔ data = []).
Proof.
  eexists. split; [reflexivity|].
  pose proof (fill_buckets_concat options data []) as Hperm.
  pose proof (fill_buckets_ordered options data [] [] (Forall_nil_2 _)) as Hord.
  simpl in Hperm, Hord. rewrite length_map.
  set (buckets := Grid.fill_buckets options data []) in *.
  assert (length buckets ≤ length (concat buckets.*2)) as Hle.
  { clear Hperm. induction Hord as [|[k ps] rest [Hne _] _ IH]; [done|].
    change (S (length rest) ≤ length (ps ++ concat rest.*2)).
    rewrite length_app. destruct ps; [done|]. simpl. lia. }
  rewrite Hperm in Hle. split; [done|]. split.
  - intros Hnil. apply map_eq_nil in Hnil. rewrite Hnil in Hperm. simpl in Hperm.
    by apply Permutation_nil_l in Hperm.
  - intros ->. done.
Qed.

End grid_cells.

(** ** Cell ids as strings *)

Lemma all_chars_impl (P Q : Ascii.ascii → Prop) s :
  (∀ c, P c → Q c) → all_chars P s → all_chars Q s.
Proof. intros HPQ. induction s as [|c s IH]; simpl; [done|]. intuition. Qed.

Lemma pretty_N_go_numeric (x : N) s :
  all_chars numeric_char s → all_chars numeric_char (pretty_N_go x s).
Proof.
  revert s. induction (N.lt_wf_0 x) as [x _ IH]; intros s Hs.
  assert (x = 0 ∨ 0 < x)%N as [->|?] by lia.
  - by rewrite pretty_N_go_0.
  - rewrite pretty_N_go_step by done. apply IH.
    { by apply N.div_lt. }
    split; [|done]. left. unfold pretty_N_char.
    repeat case_match; vm_compute; lia.
Qed.

Lemma pretty_Z_numeric (z : Z) : all_chars numeric_char (pretty z).
Proof.
  assert (∀ p : positive, all_chars numeric_char (pretty p)) as Hpos.
  { intros p. unfold pretty, pretty_positive, pretty, pretty_N.
    case_decide; [done|]. by apply pretty_N_go_numeric. }
  unfold pretty, pretty_Z. destruct z as [|p|p].
  - simpl. split; [|done]. left. vm_compute. lia.
  - apply Hpos.
  - simpl. split; [|apply Hpos]. right. done.
Qed.

Lemma floored_to_string_no_semicolon f :
  all_chars (λ c, c ≠ semicolon) (Grid.floored_to_string f).
Proof.
  destruct f as [| | |z]; simpl; try by repeat split.
  eapply all_chars_impl; [|apply pretty_Z_numeric].
  intros c [Hc|Hc] ->; vm_compute in Hc; lia.
Qed.

Lemma floored_to_string_inj f g :
  Grid.floored_to_string f = Grid.floored_to_string g → f = g.
Proof.
  assert (∀ (z : Z) s c, pretty z = String c s → numeric_char c) as Hhead.
  { intros z s c Hz. pose proof (pretty_Z_numeric z) as Hn. rewrite Hz in Hn.
    by destruct Hn. }
  assert (∀ (z : Z) s c c', pretty z = String c (String c' s) → numeric_char c')
    as Hsnd.
  { intros z s c c' Hz. pose proof (pretty_Z_numeric z) as Hn. rewrite Hz in Hn.
    by destruct Hn as [_ [? _]]. }
  assert (∀ (z : Z) c s, c ≠ Ascii.ascii_of_nat 45 → Ascii.nat_of_ascii c < 48 ∨ 57 < Ascii.nat_of_ascii c →
            pretty z ≠ String c s) as Hno_head.
  { intros z c s Hdash Hc Hz. apply Hhead in Hz as [?|Hz]; [lia|].
    apply Hdash. rewrite <- (Ascii.ascii_nat_embedding c). by rewrite Hz. }
  assert (∀ (z : Z) c c' s, Ascii.nat_of_ascii c' < 48 ∨ 57 < Ascii.nat_of_ascii c' →
            Ascii.nat_of_ascii c' ≠ 45 → pretty z ≠ String c (String c' s)) as Hno_snd.
  { intros z c c' s Hc Hdash Hz. apply Hsnd in Hz as [?|?]; lia. }
  destruct f as [| | |z], g as [| | |z']; simpl; try done; intros Heq.
  - symmetry in Heq. exfalso. revert Heq. apply Hno_head; vm_compute; [done|lia].
  - symmetry in Heq. exfalso. revert Heq. apply Hno_head; vm_compute; [done|lia].
  - symmetry in Heq. exfalso. revert Heq. apply Hno_snd; vm_compute; [lia|done].
  - exfalso. revert Heq. apply Hno_head; vm_compute; [done|lia].
  - exfalso. revert Heq. apply Hno_head; vm_compute; [done|lia].
  - exfalso. revert Heq. apply Hno_snd; vm_compute; [lia|done].
  - f_equal. by apply (inj pretty).
Qed.

Lemma append_semicolon_inj (s1 s2 t1 t2 : string) :
  all_chars (λ c, c ≠ semicolon) s1 →
  all_chars (λ c, c ≠ semicolon) s2 →
  (s1 ++ String semicolon t1)%string = (s2 ++ String semicolon t2)%string →
  s1 = s2 ∧ t1 = t2.
Proof.
  revert s2. induction s1 as [|c s1 IH]; intros [|c' s2] H1 H2 Heq; simpl in *.
  - by injection Heq as ->.
  - injection Heq as <- _. by destruct H2.
  - injection Heq as -> _. by destruct H1.
  - injection Heq as <- Heq. destruct H1 as [_ H1], H2 as [_ H2].
    destruct (IH s2 H1 H2 Heq) as [-> ->]. done.
Qed.

Section grid_ids.
Context {T : Type} `{Located T}.
Variable options : Grid.GridOptions T.

Local Abbreviation key := (Grid.groupID options).
Local Abbreviation coordinate :=
  (λ (p : T) (axis : nat),
     Grid.floor_div (Grid.vector options p !! axis) (Grid.cellSize options)).

(** X4.  The cell id is a faithful name of the pair of floored
    coordinates: two points get the same id exactly when both of their
    floored cell coordinates agree. *)
Theorem groupID_inj (p q : T) :
  key p = key q ↔
  Grid.floor_div (Grid.vector options p !! 0) (Grid.cellSize options)
    = Grid.floor_div (Grid.vector options q !! 0) (Grid.cellSize options) ∧
  Grid.floor_div (Grid.vector options p !! 1) (Grid.cellSize options)
    = Grid.floor_div (Grid.vector options q !! 1) (Grid.cellSize options).
Proof.
  unfold Grid.groupID. split.
  - intros Heq.
    apply append_semicolon_inj in Heq as [H0 H1];
      [|apply floored_to_string_no_semicolon..].
    split; by apply floored_to_string_inj.
  - by intros [-> ->].
Qed.

End grid_ids.

(** ** Cells as intervals *)

Lemma floor_div_positive (x c : Q) :
  (0 < c)%Q → Grid.floor_div (Some x) c = Grid.FlInt (Qfloor (x / c)).
Proof.
  intros Hc. unfold Grid.floor_div.
  destruct (Qeq_bool c 0) eqn:Hz; [|done].
  apply Qeq_bool_iff in Hz. rewrite Hz in Hc. by apply Qlt_irrefl in Hc.
Qed.

Lemma Qfloor_div_le (x1 x2 c : Q) :
  (0 < c)%Q → (x1 <= x2)%Q → (Qfloor (x1 / c) ≤ Qfloor (x2 / c))%Z.
Proof.
  intros Hc Hle. apply Qfloor_resp_le. unfold Qdiv.
  apply Qmult_le_compat_r; [done|]. by apply Qlt_le_weak, Qinv_lt_0_compat.
Qed.

Lemma floor_div_squeezed (x1 x x2 c : Q) :
  (0 < c)%Q →
  (x1 <= x <= x2)%Q ∨ (x2 <= x <= x1)%Q →
  Grid.floor_div (Some x1) c = Grid.floor_div (Some x2) c →
  Grid.floor_div (Some x) c = Grid.floor_div (Some x1) c.
Proof.
  intros Hc Hbetween. rewrite !floor_div_positive by done. intros Heq.
  assert (Qfloor (x1 / c) = Qfloor (x2 / c)) as Hz by congruence.
  f_equal. destruct Hbetween as [[H1 H2]|[H2 H1]].
  - pose proof (Qfloor_div_le x1 x c Hc H1).
    pose proof (Qfloor_div_le x x2 c Hc H2). lia.
  - pose proof (Qfloor_div_le x2 x c Hc H2).
    pose proof (Qfloor_div_le x x1 c Hc H1). lia.
Qed.

(** X5.  With a positive cell size the floored coordinate never decreases
    when the coordinate grows: for [x1 <= x2] the value of
    [Math.floor(x1 / cellSize)] is at most that of
    [Math.floor(x2 / cellSize)].  The coordinates of one cell therefore
    form an interval.  (Rounding the quotient to a double and an overflow
    to an infinity both keep the order, so this does not depend on the
    quotient being exact.) *)
Theorem floor_div_monotone (x1 x2 c : Q) :
  (0 < c)%Q → (x1 <= x2)%Q →
  floored_le (Grid.floor_div (Some x1) c) (Grid.floor_div (Some x2) c).
Proof.
  intros Hc Hle. rewrite !floor_div_positive by done. simpl.
  by apply Qfloor_div_le.
Qed.

Lemma floor_div_monotone_witness :
  floored_le (Grid.floor_div (Some (149 # 1)) 150) (Grid.floor_div (Some (150 # 1)) 150).
Proof. apply (floor_div_monotone (149 # 1) (150 # 1) 150); by vm_compute. Defined.

Section grid_boxes.
Context {T : Type} `{Located T}.
Variable options : Grid.GridOptions T.

Local Abbreviation key := (Grid.groupID options).

(** X6.  With a positive cell size the cells are boxes: when two points
    are in the same cluster [grid] returns, every input point whose two
    coordinates lie between theirs, axis by axis, is in that cluster
    too. *)
Theorem cells_are_boxes (data : list T) (p q r : T) (xp yp xq yq xr yr : Q) :
  (0 < Grid.cellSize options)%Q →
  Grid.vector options p !! 0 = Some xp → Grid.vector options p !! 1 = Some yp →
  Grid.vector options q !! 0 = Some xq → Grid.vector options q !! 1 = Some yq →
  Grid.vector options r !! 0 = Some xr → Grid.vector options r !! 1 = Some yr →
  (xp <= xq <= xr)%Q ∨ (xr <= xq <= xp)%Q →
  (yp <= yq <= yr)%Q ∨ (yr <= yq <= yp)%Q →
  q ∈ data →
  ∀ clusters c, Grid.grid data options = Returned clusters → c ∈ clusters →
    p ∈ c_points c → r ∈ c_points c → q ∈ c_points c.
Proof.
  intros Hc Hpx Hpy Hqx Hqy Hrx Hry Hx Hy Hq clusters c [= <-] Hin Hpc Hrc.
  pose proof (fill_buckets_celled options data [] [] (celled_nil options))
    as (_ & Hb & _).
  simpl in Hb. apply list_elem_of_fmap in Hin as (e & -> & He).
  rewrite Hb in He. apply list_elem_of_fmap in He as (k & -> & _).
  simpl in Hpc, Hrc |- *. unfold cell_of in Hpc, Hrc |- *.
  apply list_elem_of_In, filter_In in Hpc as [_ Hpk].
  apply list_elem_of_In, filter_In in Hrc as [_ Hrk].
  apply String.eqb_eq in Hpk, Hrk.
  apply list_elem_of_In, filter_In. split; [by apply list_elem_of_In|].
  apply String.eqb_eq. rewrite <- Hpk.
  assert (key p = key r) as Hsame by congruence.
  unfold Grid.groupID in Hsame |- *.
  apply append_semicolon_inj in Hsame as [H0 H1];
    [|apply floored_to_string_no_semicolon..].
  apply floored_to_string_inj in H0, H1.
  rewrite Hpx, Hrx in H0. rewrite Hpy, Hry in H1.
  rewrite Hpx, Hpy, Hqx, Hqy.
  rewrite (floor_div_squeezed xp xq xr _ Hc Hx H0).
  by rewrite (floor_div_squeezed yp yq yr _ Hc Hy H1).
Qed.

End grid_boxes.

Lemma cells_are_boxes_witness :
  ∃ c,
    Grid.grid box_data (nonpositive_options 150) = Returned [c] ∧
    {| lat := 0; lng := 0 |} ∈ c_points c ∧
    {| lat := 100; lng := 100 |} ∈ c_points c ∧
    {| lat := 70; lng := 20 |} ∈ c_points c.
Proof.
  assert ({| lat := 0; lng := 0 |} ∈ box_data) as Hp.
  { apply elem_of_cons. by left. }
  assert ({| lat := 70; lng := 20 |} ∈ box_data) as Hq.
  { apply elem_of_cons. right. apply elem_of_cons. by left. }
  assert ({| lat := 100; lng := 100 |} ∈ box_data) as Hr.
  { apply elem_of_cons. right. apply elem_of_cons. right. apply elem_of_cons. by left. }
  exists (Grid.to_cluster ("0;0"%string, box_data)).
  split; [by vm_compute|]. split; [exact Hp|]. split; [exact Hr|].
  apply (cells_are_boxes (nonpositive_options 150) box_data
           {| lat := 0; lng := 0 |} {| lat := 70; lng := 20 |}
           {| lat := 100; lng := 100 |} 0 0 70 20 100 100)
    with (clusters := [Grid.to_cluster ("0;0"%string, box_data)]).
  - reflexivity.
  - reflexivity.
  - reflexivity.
  - reflexivity.
  - reflexivity.
  - reflexivity.
  - reflexivity.
  - left. by vm_compute.
  - left. by vm_compute.
  - exact Hq.
  - by vm_compute.
  - apply elem_of_cons. by left.
  - exact Hp.
  - exact Hr.
Defined.

(** ** Points without coordinates *)

Section grid_missing.
Context {T : Type} `{Located T}.
Variable options : Grid.GridOptions T.

Lemma fill_buckets_one_key (k : string) (data points : list T) :
  (∀ p, p ∈ data → Grid.groupID options p = k) →
  Grid.fill_buckets options data [(k, points)] = [(k, points ++ data)].
Proof.
  revert points. induction data as [|p data IH]; intros points Hkey.
  - by rewrite app_nil_r.
  - unfold Grid.fill_buckets. cbn [fold_left Grid.bucket_push].
    rewrite (Hkey p) by (by left). rewrite String.eqb_refl.
    fold (Grid.fill_buckets options data [(k, points ++ [p])]).
    rewrite IH by (intros p' Hp'; apply Hkey; by right).
    by rewrite <- (assoc_L (++)).
Qed.

(** X7.  A point whose vector has no components gets the cell id
    [NaN;NaN], whatever the cell size: when no point has coordinates and
    there is at least one point, [grid] returns a single cluster with that
    id, holding every point in input order. *)
Theorem grid_missing_coordinates (data : list T) :
  data ≠ [] →
  (∀ p, p ∈ data → Grid.vector options p = []) →
  ∃ c,
    Grid.grid data options = Returned [c] ∧
    c_id c = "NaN;NaN"%string ∧
    c_points c = data.
Proof.
  intros Hne Hvec.
  assert (∀ p, p ∈ data → Grid.groupID options p = "NaN;NaN"%string) as Hkey.
  { intros p Hp. unfold Grid.groupID. by rewrite (Hvec p Hp). }
  destruct data as [|p data]; [done|].
  exists (Grid.to_cluster ("NaN;NaN"%string, p :: data)). split; [|done].
  unfold Grid.grid, Grid.fill_buckets. cbn [fold_left Grid.bucket_push].
  rewrite (Hkey p) by (by left).
  fold (Grid.fill_buckets options data [("NaN;NaN"%string, [p])]).
  rewrite fill_buckets_one_key by (intros p' Hp'; apply Hkey; by right).
  reflexivity.
Qed.

End grid_missing.

Lemma grid_missing_coordinates_witness :
  ∃ c,
    Grid.grid scenario1_data bare_options = Returned [c] ∧
    c_id c = "NaN;NaN"%string ∧
    c_points c = scenario1_data.
Proof.
  apply (grid_missing_coordinates bare_options scenario1_data).
  - done.
  - intros p _. reflexivity.
Defined.

(** * More on dbscan *)

Section dbscan_more.
Context {T : Type}.
Variable Math_sqrt : Q → Q.
Variable points : list T.
Variable options : Dbscan.DbscanOptions T.

Local Abbreviation n := (length points).
Local Abbreviation N := (neighbors Math_sqrt points options).
Local Abbreviation dense := (dense Math_sqrt points options).
Local Abbreviation regionQuery := (Dbscan.regionQuery Math_sqrt points options).
Local Abbreviation expand_step := (Dbscan.expand_step Math_sqrt points options).
Local Abbreviation expand_loop := (Dbscan.expand_loop Math_sqrt points options).
Local Abbreviation visit := (Dbscan.visit Math_sqrt points options).
Local Abbreviation main_loop := (Dbscan.main_loop Math_sqrt points options).
Local Abbreviation sized := (sized Math_sqrt points options).
Local Abbreviation scanned := (scanned Math_sqrt points options).
Local Abbreviation expanding := (expanding Math_sqrt points options).
Local Abbreviation justified := (justified Math_sqrt points options).
Local Abbreviation seeded := (seeded points).
Local Abbreviation step_queue := (step_queue Math_sqrt points options).

Implicit Types (st : Dbscan.State) (queue : list nat) (i j q : nat).

(** ** Clustered points are reached from core points *)

Lemma expand_step_settled cid s q queue st j k queue' st' :
  expanding cid s q queue st →
  justified st → seeded k st →
  queue !! q = Some j →
  expand_step cid j queue st = (queue', st') →
  justified st' ∧ seeded k st'.
Proof.
  intros Hex Hjust Hseed Hq Hstep.
  destruct Hex as [[Hs Hrange Hseen Hcore Hcl] _ _ _ Hbound _ _ Hsrc].
  assert (j ∈ queue) as Hjq by (by eapply list_elem_of_lookup_2).
  assert (j < n) as Hj by auto.
  destruct (expand_step_effect Math_sqrt points options cid j queue st Hs Hj)
    as (st2 & Hstep2 & _ & _ & Hcore' & Hlab').
  rewrite Hstep in Hstep2. injection Hstep2 as _ <-.
  assert (∀ i, (0 ≤ label st i)%Z → label st' i = label st i) as Hkeep.
  { intros i Hi. rewrite Hlab'. case_decide as Hij; [subst i|done].
    destruct (Z.eqb_spec (label st j) (-1)); [lia|done]. }
  assert (∀ i, core st i = true → core st' i = true) as Hcore_old.
  { intros i Hi. rewrite Hcore'. case_decide; [subst; by rewrite Hi|done]. }
  assert (∀ i, (0 ≤ label st' i)%Z → (label st i < 0)%Z →
            i = j ∧ label st' i = Z.of_nat cid) as Hfresh.
  { intros i Hi Hneg. rewrite Hlab' in Hi |- *. case_decide as Hij; [subst i|lia].
    destruct (Z.eqb_spec (label st j) (-1)); [done|].
    destruct (Hrange j); lia. }
  split.
  - intros i Hi. destruct (decide (0 ≤ label st i)%Z) as [Hold|Hnew].
    + rewrite (Hkeep i Hold). destruct (Hjust i Hold) as [Hc|(p & Hp & Hpl & Hin)].
      * left. by apply Hcore_old.
      * right. exists p. split; [by apply Hcore_old|]. split; [|done].
        rewrite Hkeep; [done|]. by apply Hcl.
    + destruct (Hfresh i Hi) as [-> Hlab]; [lia|]. right.
      destruct (Hsrc j Hjq) as (p & Hp & Hpl & Hin).
      exists p. split; [by apply Hcore_old|]. split; [|done].
      rewrite Hlab, Hkeep; [done|]. by apply Hcl.
  - intros c Hc. destruct (Hseed c Hc) as (x & Hx & Hxc & Hxl).
    exists x. split; [done|]. split; [by apply Hcore_old|].
    rewrite Hkeep; [done|]. lia.
Qed.

Lemma expand_loop_settled fuel cid s q queue st k q' queue' st' :
  expanding cid s q queue st →
  justified st → seeded k st →
  expand_loop fuel cid q queue st = Some (q', queue', st') →
  justified st' ∧ seeded k st'.
Proof.
  revert q queue st. induction fuel as [|fuel IH]; intros q queue st Hex Hjust Hseed;
    simpl; destruct (queue !! q) as [j|] eqn:Hj; try done.
  - by intros [= _ _ <-].
  - destruct (expand_step_expanding Math_sqrt points options cid s q queue st j Hex Hj)
      as (st1 & Hstep & Hex1 & _).
    destruct (expand_step_settled cid s q queue st j k _ _ Hex Hjust Hseed Hj Hstep)
      as [Hjust1 Hseed1].
    rewrite Hstep. by apply IH.
  - by intros [= _ _ <-].
Qed.

Lemma visit_settled fuel cid i st st' cid' :
  scanned cid i st →
  justified st → seeded cid st →
  i < n →
  visit fuel i (st, cid) = Some (st', cid') →
  justified st' ∧ seeded cid' st'.
Proof.
  intros [Hcon Habs Hlink Hdone] Hjust Hseed Hi. unfold Dbscan.visit.
  assert (seen st i = Dbscan.is_visited st i) as Hseen_i by done.
  destruct (Dbscan.is_visited st i) eqn:Hvis.
  { by intros [= <- <-]. }
  destruct (unseen_unlabeled _ _ _ _ _ _ Hcon Hseen_i) as [Hli Hci].
  destruct Hcon as [Hs Hrange Hseen Hcore Hcl].
  pose proof (sized_set_visited _ _ _ st i Hs) as Hs1.
  destruct (regionQuery_spec _ _ _ (Dbscan.set_visited i st) i Hs1)
    as (st2 & -> & Hs2 & Hv2 & Hl2 & Hc2 & _).
  assert (∀ j, seen st2 j = if decide (j = i) then true else seen st j) as Hseen2.
  { intros j. unfold seen, Dbscan.is_visited at 1. rewrite Hv2.
    apply (seen_set_visited st i j). destruct Hs; lia. }
  assert (∀ j, label st2 j = label st j) as Hlab2.
  { intros j. unfold label. by rewrite Hl2. }
  assert (∀ j, core st2 j = core st j) as Hcore2.
  { intros j. unfold core. by rewrite Hc2. }
  unfold Dbscan.Qlt_bool. fold (dense i). destruct (dense i) eqn:Hd; simpl.
  - (* a new cluster *)
    set (st0 := Dbscan.push_cluster cid i
                  (Dbscan.set_core i
                     (Dbscan.set_label i (Z.of_nat cid) (Dbscan.open_cluster st2)))).
    assert (sized st0) as Hs0.
    { by apply sized_push_cluster, sized_set_core, sized_set_label, sized_open_cluster. }
    assert (∀ j, seen st0 j = if decide (j = i) then true else seen st j) as Hseen0
      by exact Hseen2.
    assert (∀ j, label st0 j = if decide (j = i) then Z.of_nat cid else label st j) as Hlab0.
    { intros j. unfold st0.
      change (label (Dbscan.push_cluster cid i (Dbscan.set_core i ?s)) j) with (label s j).
      rewrite label_set_label by (simpl; destruct Hs2; lia).
      case_decide; [done|]. apply Hlab2. }
    assert (∀ j, core st0 j = if decide (j = i) then true else core st j) as Hcore0.
    { intros j. unfold st0.
      change (core (Dbscan.push_cluster cid i ?s) j) with (core s j).
      rewrite core_set_core by (simpl; destruct Hs2; lia).
      case_decide; [done|]. apply Hcore2. }
    assert (expanding cid i 0 (N i) st0) as Hex.
    { split.
      - split; [exact Hs0| | | |].
        + intros j. rewrite Hlab0. case_decide; [right; lia|].
          destruct (Hrange j); [by left|right; lia].
        + intros j. rewrite Hlab0, Hseen0. case_decide; [done|]. apply Hseen.
        + intros j. rewrite Hseen0, Hcore0. case_decide; [by subst|]. apply Hcore.
        + intros j. rewrite Hlab0, Hcore0. case_decide; [lia|]. apply Hcl.
      - intros p x Hp Hx. rewrite Hcore0 in Hp. rewrite !Hlab0.
        destruct (decide (p = i)) as [->|Hpi]; [by right|].
        destruct (Habs p x Hp Hx) as [Hle|[_ Hnil]]; [|by apply elem_of_nil in Hnil].
        left. case_decide; [subst x; lia|done].
      - intros k x Hk. lia.
      - apply NoDup_neighbors.
      - intros x. apply neighbors_lt.
      - intros p p' Hp Hp' Heq Hlt. rewrite Hcore0 in Hp, Hp'.
        rewrite !Hlab0 in Heq. rewrite Hlab0 in Hlt.
        destruct (decide (p = i)) as [->|Hpi]; [lia|].
        destruct (decide (p' = i)) as [->|Hpi']; [lia|].
        by apply Hlink.
      - intros p Hp Hpl. rewrite Hcore0 in Hp. rewrite Hlab0 in Hpl.
        destruct (decide (p = i)) as [->|Hpi]; [done|].
        destruct (Hrange p); lia.
      - intros x Hx. exists i. rewrite Hcore0, Hlab0, !decide_True by done. done. }
    assert (justified st0) as Hjust0.
    { intros j. rewrite Hlab0, Hcore0. case_decide as Hji; [by left|]. intros Hj.
      destruct (Hjust j Hj) as [Hc|(p & Hp & Hpl & Hin)]; [by left|right].
      exists p. rewrite Hcore0, Hlab0.
      case_decide; [subst p; congruence|done]. }
    assert (seeded (S cid) st0) as Hseed0.
    { intros c Hc. destruct (decide (c = cid)) as [->|Hne].
      - exists i. rewrite Hcore0, Hlab0, !decide_True by done. done.
      - destruct (Hseed c) as (x & Hx & Hxc & Hxl); [lia|].
        exists x. rewrite Hcore0, Hlab0.
        case_decide; [subst x; congruence|done]. }
    unfold Dbscan.expandCluster. fold st0.
    destruct (expand_loop fuel cid 0 (N i) st0) as [[[q' queue'] st1]|] eqn:Hloop;
      [|done].
    intros [= <- <-].
    by eapply (expand_loop_settled fuel cid i 0 (N i) st0).
  - (* noise, for now *)
    intros [= <- <-].
    set (st3 := Dbscan.set_label i (-1) st2).
    assert (∀ j, label st3 j = label st j) as Hlab3.
    { intros j. unfold st3. rewrite label_set_label by (destruct Hs2; lia).
      rewrite Hlab2. case_decide; [by subst|done]. }
    assert (∀ j, core st3 j = core st j) as Hcore3 by exact Hcore2.
    split.
    + intros j. rewrite Hlab3, Hcore3. intros Hj.
      destruct (Hjust j Hj) as [Hc|(p & Hp & Hpl & Hin)]; [by left|right].
      exists p. by rewrite Hcore3, Hlab3.
    + intros c Hc. destruct (Hseed c Hc) as (x & Hx & Hxc & Hxl).
      exists x. by rewrite Hcore3, Hlab3.
Qed.

Lemma main_loop_settled fuel k i cid st st' cid' :
  scanned cid i st →
  justified st → seeded cid st →
  i + k = n → n ≤ fuel →
  main_loop fuel (seq i k) (st, cid) = Some (st', cid') →
  justified st' ∧ seeded cid' st'.
Proof.
  revert i cid st. induction k as [|k IH]; intros i cid st Hsc Hjust Hseed Hik Hfuel.
  - by intros [= <- <-].
  - change (seq i (S k)) with (i :: seq (S i) k).
    unfold Dbscan.main_loop; fold (Dbscan.main_loop Math_sqrt points options).
    destruct (visit_scanned Math_sqrt points options fuel cid i st Hsc)
      as (st1 & cid1 & Hv & Hsc1); [lia..|].
    rewrite Hv.
    destruct (visit_settled fuel cid i st st1 cid1 Hsc Hjust Hseed) as [Hj1 Hs1];
      [lia|done|].
    apply IH; [done..|lia|done].
Qed.

Lemma scan_settled :
  ∃ st cid,
    Dbscan.scan Math_sqrt points options n = Some (st, cid) ∧
    scanned cid n st ∧ justified st ∧ seeded cid st.
Proof.
  destruct (scan_scanned Math_sqrt points options) as (st & cid & Hscan & Hsc).
  exists st, cid. split; [done|]. split; [done|].
  apply (main_loop_settled n n 0 0 (Dbscan.initial points) st cid);
    [apply initial_scanned| | |lia|lia|exact Hscan].
  - intros i. destruct (initial_scanned Math_sqrt points options) as [[_ Hr _ _ _] _ _ _].
    assert (label (Dbscan.initial points) i = (-1)%Z) as ->; [|lia].
    unfold label, label_at; simpl. destruct (decide (i < n)) as [Hi|Hi].
    + by rewrite lookup_replicate_2.
    + by rewrite lookup_ge_None_2 by (rewrite length_replicate; lia).
  - intros c Hc. lia.
Qed.

(** ** Validation *)

(** X8.  [dbscan] checks its parameters before anything else, the radius
    first: with [eps <= 0] it throws the message about [eps], whatever
    [minPts] is; with a positive [eps] and [minPts < 1] it throws the
    message about [minPts]; otherwise it returns a cluster list. *)
Theorem dbscan_validation :
  ((Dbscan.eps options <= 0)%Q →
   Dbscan.dbscan Math_sqrt points options = Thrown "eps must be > 0") ∧
  ((0 < Dbscan.eps options)%Q → (Dbscan.minPts options < 1)%Q →
   Dbscan.dbscan Math_sqrt points options = Thrown "minPts must be >= 1") ∧
  ((0 < Dbscan.eps options)%Q → (1 <= Dbscan.minPts options)%Q →
   ∃ clusters, Dbscan.dbscan Math_sqrt points options = Returned clusters).
Proof.
  split_and!.
  - intros Heps. unfold Dbscan.dbscan, Dbscan.Qlt_bool.
    apply Qle_bool_iff in Heps. by rewrite Heps.
  - intros Heps Hmin. unfold Dbscan.dbscan.
    rewrite (Qlt_bool_true _ _ Heps). simpl.
    destruct (Qle_bool 1 (Dbscan.minPts options)) eqn:Hle; [|done].
    apply Qle_bool_iff in Hle. by apply Qlt_not_le in Hmin.
  - intros Heps Hmin.
    destruct (dbscan_returns_label_classes Math_sqrt points options Heps Hmin)
      as (_ & _ & _ & clusters & _ & _ & ? & _). by exists clusters.
Qed.

(** ** The neighbor cache *)

Lemma set_cache_out_of_range st i res :
  length (Dbscan.neighborsCache st) ≤ i → Dbscan.set_cache i res st = st.
Proof.
  intros Hi. destruct st. unfold Dbscan.set_cache; simpl in *.
  by rewrite list_insert_ge.
Qed.

(** X9.  Memoization is invisible: in a state whose cache holds only
    neighbor lists, [regionQuery(i)] returns the neighbor list of [i]
    whether or not it was cached, it changes nothing but the cache, and
    asking again returns the same list and changes nothing at all. *)
Theorem regionQuery_memoized st i :
  sized st →
  ∃ st',
    regionQuery i st = (N i, st') ∧
    regionQuery i st' = (N i, st') ∧
    Dbscan.visited st' = Dbscan.visited st ∧
    Dbscan.labels st' = Dbscan.labels st ∧
    Dbscan.corePoints st' = Dbscan.corePoints st ∧
    Dbscan.clusters st' = Dbscan.clusters st.
Proof.
  intros Hs. unfold Dbscan.regionQuery at 1.
  destruct (Dbscan.neighborsCache st !! i) as [[res|]|] eqn:Hc.
  - exists st. rewrite (cache_ok _ _ _ _ Hs _ _ Hc) in Hc |- *.
    split; [done|]. split; [|done]. unfold Dbscan.regionQuery. by rewrite Hc.
  - eexists. split; [reflexivity|]. split; [|done].
    unfold Dbscan.regionQuery; simpl.
    rewrite list_lookup_insert_eq by (by apply lookup_lt_Some in Hc). done.
  - apply lookup_ge_None in Hc.
    exists st. rewrite set_cache_out_of_range by done.
    split; [done|]. split; [|done]. unfold Dbscan.regionQuery.
    rewrite lookup_ge_None_2 by done. by rewrite set_cache_out_of_range.
Qed.

(** ** Core, border and noise *)

Lemma scanned_core_dense cid st i :
  scanned cid n st → i < n → core st i = dense i.
Proof.
  intros [[_ _ _ Hcore _] _ _ Hdone] Hi. apply eq_true_iff_eq.
  rewrite Hcore. specialize (Hdone i Hi). tauto.
Qed.

Lemma neighbor_source_lt p i : i ∈ N p → p < n.
Proof.
  intros [Hi Hw]%elem_of_neighbors. unfold Dbscan.within_eps in Hw.
  destruct (Nat.eqb_spec p i) as [->|_]; [done|].
  destruct (points !! p) eqn:Hp; [|done]. by apply lookup_lt_Some in Hp.
Qed.

(** X10.  After the run every point has exactly one role.  Its core flag
    is set exactly when it passes the density test; its border flag, as the
    pass after the main loop computes it, exactly when it carries a cluster
    label without passing the test; it is in the noise list exactly when
    its label is -1; and a point that passes the test always carries a
    cluster label. *)
Theorem final_roles :
  ∃ st cid,
    Dbscan.scan Math_sqrt points options n = Some (st, cid) ∧
    ∀ i, i < n →
      core st i = dense i ∧
      Dbscan.borderPoints st !! i
        = Some (Z.leb 0 (label st i) && negb (dense i)) ∧
      (i ∈ Dbscan.noise points st ↔ label st i = (-1)%Z) ∧
      (label st i = (-1)%Z ∨ (0 ≤ label st i < Z.of_nat cid)%Z) ∧
      (dense i = true → (0 ≤ label st i)%Z).
Proof.
  destruct (scan_scanned Math_sqrt points options) as (st & cid & Hscan & Hsc).
  exists st, cid. split; [done|]. intros i Hi.
  pose proof (scanned_core_dense cid st i Hsc Hi) as Hcd.
  destruct Hsc as [[Hs Hrange _ _ Hcl] _ _ _].
  assert (i < length (Dbscan.labels st)) as Hil by (destruct Hs; lia).
  split; [done|]. split; [|split; [|split]].
  - unfold Dbscan.borderPoints. rewrite list_lookup_imap.
    destruct (lookup_lt_is_Some_2 _ _ Hil) as [l Hl]. rewrite Hl. simpl.
    fold (core st i). rewrite Hcd. unfold label, label_at. by rewrite Hl.
  - unfold Dbscan.noise. rewrite list_elem_of_In, filter_In, in_seq.
    rewrite is_unlabeled_label by done. rewrite Z.eqb_eq. intuition lia.
  - destruct (Hrange i); [by left|right; lia].
  - intros Hd. apply Hcl. by rewrite Hcd.
Qed.

(** X11.  A point ends in a cluster exactly when it passes the density
    test or lies within [eps] of a point that does; every other point is
    noise.  A clustered point that does not pass the test (a border point)
    is within [eps] of a core point of its own cluster. *)
Theorem clustered_iff_reached :
  ∃ st cid,
    Dbscan.scan Math_sqrt points options n = Some (st, cid) ∧
    ∀ i, i < n →
      ((0 ≤ label st i)%Z ↔ dense i = true ∨ ∃ p, dense p = true ∧ i ∈ N p) ∧
      ((0 ≤ label st i)%Z → dense i = false →
       ∃ p, dense p = true ∧ i ∈ N p ∧ label st p = label st i).
Proof.
  destruct scan_settled as (st & cid & Hscan & Hsc & Hjust & _).
  exists st, cid. split; [done|]. intros i Hi.
  assert (∀ p, core st p = true → p < n ∧ dense p = true) as Hcore_dense.
  { intros p Hp. assert (p < n) as Hpn.
    { destruct Hsc as [[[_ _ Hlen _ _] _ _ _ _] _ _ _].
      unfold core in Hp. destruct (Dbscan.corePoints st !! p) eqn:Hl; [|done].
      apply lookup_lt_Some in Hl. lia. }
    split; [done|]. by rewrite <- (scanned_core_dense cid st p Hsc Hpn). }
  assert ((0 ≤ label st i)%Z → dense i = false →
          ∃ p, dense p = true ∧ i ∈ N p ∧ label st p = label st i) as Hborder.
  { intros Hl Hd. destruct (Hjust i Hl) as [Hc|(p & Hp & Hpl & Hin)].
    - apply Hcore_dense in Hc as [_ Hc]. congruence.
    - exists p. by apply Hcore_dense in Hp as [_ ?]. }
  split; [|exact Hborder]. split.
  - intros Hl. destruct (dense i) eqn:Hd; [by left|right].
    destruct (Hborder Hl eq_refl) as (p & ? & ? & _). by exists p.
  - intros [Hd|(p & Hd & Hin)].
    + pose proof (scanned_core_dense cid st i Hsc Hi) as Hcd.
      destruct Hsc as [[_ _ _ _ Hcl] _ _ _]. apply Hcl. by rewrite Hcd.
    + pose proof (neighbor_source_lt p i Hin) as Hp.
      by destruct (scanned_absorbs _ _ _ cid st p i Hsc Hp Hd Hin).
Qed.

(** ** The numbering of the clusters *)

Lemma seeded_distinct cid st c :
  seeded cid st → c ≤ cid →
  ∃ l, length l = c ∧ NoDup l ∧
       ∀ x, x ∈ l → x < n ∧ (0 ≤ label st x < Z.of_nat c)%Z.
Proof.
  intros Hseed. induction c as [|c IH]; intros Hc.
  - exists []. split; [done|]. split; [constructor|].
    intros x Hx. by apply elem_of_nil in Hx.
  - destruct IH as (l & Hlen & Hnd & Hl); [lia|].
    destruct (Hseed c) as (s & Hs & _ & Hsl); [lia|].
    exists (s :: l). split; [simpl; lia|]. split.
    + apply NoDup_cons. split; [|done]. intros Hin. apply Hl in Hin. lia.
    + intros x [->|Hx]%elem_of_cons; [lia|]. apply Hl in Hx. lia.
Qed.

Lemma Sorted_of_nat_seq i k : Sorted Z.le (Z.of_nat <$> seq i k).
Proof.
  revert i. induction k as [|k IH]; intros i; simpl; constructor; [apply IH|].
  destruct k; simpl; constructor. lia.
Qed.

Lemma select_nonempty {A : Type} (items : list A) (l : list nat) x :
  x ∈ l → x < length items → select items l ≠ [].
Proof.
  intros Hx Hlt Hnil. destruct (lookup_lt_is_Some_2 _ _ Hlt) as [v Hv].
  assert (v ∈ select items l) as Hin.
  { unfold select. apply list_elem_of_omap. by exists x. }
  rewrite Hnil in Hin. by apply elem_of_nil in Hin.
Qed.

(** X12.  With valid options the returned list has one cluster per
    cluster id the main loop handed out, in that order: there are
    [clusterId] clusters, at most as many as points; the cluster at
    position [k] has id [k] as a decimal string, holds exactly the points
    whose final label is [k], in input order, and is not empty. *)
Theorem clusters_numbered :
  (0 < Dbscan.eps options)%Q → (1 <= Dbscan.minPts options)%Q →
  ∃ st cid clusters,
    Dbscan.scan Math_sqrt points options n = Some (st, cid) ∧
    Dbscan.dbscan Math_sqrt points options = Returned clusters ∧
    length clusters = cid ∧
    cid ≤ n ∧
    ∀ k : nat, k < cid →
      ∃ c, clusters !! k = Some c ∧
           c_id c = pretty k ∧
           c_points c = select points (members points st (Z.of_nat k)) ∧
           c_points c ≠ [].
Proof.
  intros Heps Hmin. destruct scan_settled as (st & cid & Hscan & Hsc & _ & Hseed).
  destruct (groupByCluster_spec points (Dbscan.labels st))
    as (ks & Hnd & Hsorted & Hks & Hgroups).
  assert (ks = Z.of_nat <$> seq 0 cid) as ->.
  { apply (Sorted_unique Z.le); [done|apply Sorted_of_nat_seq|].
    apply NoDup_Permutation; [done|apply (NoDup_fmap_2 _), NoDup_seq|].
    intros k. rewrite Hks, list_elem_of_fmap. split.
    - intros [Hk (j & Hj & Hl)]. exists (Z.to_nat k).
      destruct Hsc as [[_ Hrange _ _ _] _ _ _].
      fold (label st j) in Hl. split; [lia|].
      apply elem_of_seq. destruct (Hrange j); lia.
    - intros (c & -> & Hc%elem_of_seq). split; [lia|].
      destruct (Hseed c) as (s & Hs & _ & Hsl); [lia|]. by exists s. }
  exists st, cid. eexists. split; [done|].
  split; [rewrite dbscan_valid by done; by rewrite Hscan|].
  rewrite Hgroups. split; [by rewrite length_imap, length_map, length_fmap, length_seq|].
  split.
  { destruct (seeded_distinct cid st cid Hseed) as (l & <- & Hnd' & Hl); [done|].
    apply NoDup_bounded_length; [done|]. intros x Hx. by apply Hl. }
  intros k Hk. eexists. split.
  { rewrite list_lookup_imap. unfold fmap at 1. rewrite list_lookup_fmap.
    rewrite list_lookup_fmap, lookup_seq_lt by done. simpl. reflexivity. }
  split; [done|]. split; [done|]. simpl.
  destruct (Hseed k Hk) as (s & Hs & _ & Hsl).
  apply (select_nonempty points _ s); [|done].
  unfold labelled. apply list_elem_of_In, filter_In. split.
  - apply in_seq. lia.
  - apply Z.eqb_eq. exact Hsl.
Qed.

(** X13.  With [minPts <= 2] nothing is ever noise.  Every point is its
    own neighbor, so its neighbor count plus one is at least 2: every
    point passes the density test and ends in a cluster as a core point. *)
Theorem no_noise_for_small_minPts :
  (0 < Dbscan.eps options)%Q → (Dbscan.minPts options <= 2)%Q →
  ∃ st cid,
    Dbscan.scan Math_sqrt points options n = Some (st, cid) ∧
    Dbscan.noise points st = [] ∧
    ∀ i, i < n → core st i = true ∧ (0 ≤ label st i)%Z.
Proof.
  intros Heps Hmin.
  destruct (scan_scanned Math_sqrt points options) as (st & cid & Hscan & Hsc).
  exists st, cid. split; [done|].
  assert (∀ i, i < n → dense i = true) as Hdense.
  { intros i Hi. apply dense_iff. eapply Qle_trans; [exact Hmin|].
    assert (i ∈ N i) as Hin.
    { apply elem_of_neighbors. split; [done|]. unfold Dbscan.within_eps.
      rewrite Nat.eqb_refl. apply Qle_bool_iff. by apply Qlt_le_weak. }
    assert (1 ≤ length (N i)) as Hlen.
    { destruct (N i); [by apply elem_of_nil in Hin|simpl; lia]. }
    unfold length_number. change 2%Q with (inject_Z 1 + 1)%Q.
    apply Qplus_le_l. rewrite <- Zle_Qle. lia. }
  assert (∀ i, i < n → core st i = true ∧ (0 ≤ label st i)%Z) as Hall.
  { intros i Hi. pose proof (scanned_core_dense cid st i Hsc Hi) as Hcd.
    rewrite Hdense in Hcd by done. split; [done|].
    destruct Hsc as [[_ _ _ _ Hcl] _ _ _]. by apply Hcl. }
  split; [|exact Hall].
  destruct (Dbscan.noise points st) as [|x l] eqn:Hnoise; [done|].
  assert (In x (Dbscan.noise points st)) as Hx by (rewrite Hnoise; by left).
  unfold Dbscan.noise in Hx. apply filter_In in Hx as [Hx%in_seq Hun].
  destruct Hsc as [[Hs _ _ _ _] _ _ _].
  rewrite is_unlabeled_label in Hun by (destruct Hs; lia).
  apply Z.eqb_eq in Hun. destruct (Hall x) as [_ ?]; lia.
Qed.

(** ** Clusters and density-connectedness *)

(** X14.  For a symmetric distance the clusters cut the core points into
    the components of the neighbor graph: two points that pass the density
    test carry the same final label exactly when a chain of such points,
    each within [eps] of the next, leads from one to the other. *)
Theorem core_clusters_are_components :
  (∀ a b, (Dbscan.buildDistance Math_sqrt options a b ==
           Dbscan.buildDistance Math_sqrt options b a)%Q) →
  ∃ st cid,
    Dbscan.scan Math_sqrt points options n = Some (st, cid) ∧
    ∀ p p', p < n → p' < n → dense p = true → dense p' = true →
      (label st p = label st p' ↔ rtsc (edge Math_sqrt points options) p p').
Proof.
  intros Hsym.
  destruct (scan_scanned Math_sqrt points options) as (st & cid & Hscan & Hsc).
  exists st, cid. split; [done|]. intros p p' Hp Hp' Hd Hd'. split.
  - intros Hlab. destruct Hsc as [[_ Hrange _ Hcore Hcl] _ Hlink Hdone].
    assert (core st p = true) as Hc by (apply Hcore; auto).
    assert (core st p' = true) as Hc' by (apply Hcore; auto).
    apply (Hlink p p' Hc Hc' Hlab). apply Hcl in Hc. destruct (Hrange p); lia.
  - by apply (linked_same_label Math_sqrt points options cid st).
Qed.

(** X15.  A border point goes to the earliest cluster that reaches it:
    among the points that pass the density test and have it within [eps],
    one carries its label and none carries a smaller one. *)
Theorem border_joins_earliest_cluster :
  ∃ st cid,
    Dbscan.scan Math_sqrt points options n = Some (st, cid) ∧
    ∀ q, q < n → (0 ≤ label st q)%Z → dense q = false →
      (∃ p, dense p = true ∧ q ∈ N p ∧ label st p = label st q) ∧
      (∀ p, dense p = true → q ∈ N p → (label st q ≤ label st p)%Z).
Proof.
  destruct scan_settled as (st & cid & Hscan & Hsc & Hjust & _).
  exists st, cid. split; [done|]. intros q Hq Hl Hd. split.
  - destruct (Hjust q Hl) as [Hc|(p & Hp & Hpl & Hin)].
    + rewrite (scanned_core_dense cid st q Hsc Hq) in Hc. congruence.
    + exists p. split; [|done].
      pose proof (neighbor_source_lt p q Hin) as Hpn.
      by rewrite <- (scanned_core_dense cid st p Hsc Hpn).
  - intros p Hp Hin. pose proof (neighbor_source_lt p q Hin) as Hpn.
    destruct (scanned_absorbs _ _ _ cid st p q Hsc Hpn Hp Hin). lia.
Qed.

(** ** The default distance *)

Lemma squares_symmetric (a b : list Q) (acc acc' : Q) :
  (acc == acc')%Q →
  (fold_left (λ sum ab, let d := (ab.1 - ab.2)%Q in (sum + d * d)%Q) (zip a b) acc ==
   fold_left (λ sum ab, let d := (ab.1 - ab.2)%Q in (sum + d * d)%Q) (zip b a) acc')%Q.
Proof.
  revert b acc acc'. induction a as [|x a IH]; intros [|y b] acc acc' Hacc;
    simpl; try done.
  apply IH. rewrite Hacc. ring.
Qed.

(** X16.  The default distance is symmetric whenever the square root
    maps equal numbers to equal numbers: without a custom [distance],
    [buildDistance] gives the same number for [(a, b)] and for [(b, a)]. *)
Theorem default_distance_symmetric :
  Dbscan.distance options = None →
  (∀ x y, (x == y)%Q → (Math_sqrt x == Math_sqrt y)%Q) →
  ∀ a b, (Dbscan.buildDistance Math_sqrt options a b ==
          Dbscan.buildDistance Math_sqrt options b a)%Q.
Proof.
  intros Hnone Hsqrt a b. unfold Dbscan.buildDistance. rewrite Hnone.
  unfold Dbscan.euclidean. by apply Hsqrt, squares_symmetric.
Qed.

(** X17.  The default distance looks at the common prefix of the two
    vectors only: components one vector has beyond the length of the other
    do not count. *)
Theorem euclidean_common_prefix (a b : list Q) :
  Dbscan.euclidean Math_sqrt a b =
  Dbscan.euclidean Math_sqrt
    (take (length a `min` length b) a) (take (length a `min` length b) b).
Proof.
  unfold Dbscan.euclidean. f_equal. f_equal.
  revert b. induction a as [|x a IH]; intros [|y b]; simpl; try done.
  f_equal. apply IH.
Qed.

End dbscan_more.

(** ** The queue *)

(** X18.  Enqueueing the neighbors of a core point never removes or
    reorders what is queued: the queue grows at its end by exactly the
    neighbors that were not in it, each once. *)
Theorem enqueue_new_appends_missing (queue l : list nat) :
  ∃ added,
    Dbscan.enqueue_new queue l = queue ++ added ∧
    NoDup added ∧
    ∀ x, x ∈ added ↔ x ∈ l ∧ x ∉ queue.
Proof.
  unfold Dbscan.enqueue_new. revert queue.
  induction l as [|nb l IH]; intros queue; simpl.
  - exists []. rewrite app_nil_r. split; [done|]. split; [constructor|].
    intros x. split; [intros Hx; by apply elem_of_nil in Hx|].
    intros [Hx _]. by apply elem_of_nil in Hx.
  - destruct (Dbscan.queueIncludes queue nb) eqn:Hinc.
    + apply queueIncludes_spec in Hinc.
      destruct (IH queue) as (added & -> & Hnd & Hadded).
      exists added. split; [done|]. split; [done|].
      intros x. rewrite Hadded, elem_of_cons. split; [tauto|].
      intros [[->|Hx] Hq]; [done|tauto].
    + assert (nb ∉ queue) as Hnb.
      { intros Hin. apply queueIncludes_spec in Hin. congruence. }
      destruct (IH (queue ++ [nb])) as (added & -> & Hnd & Hadded).
      exists (nb :: added). rewrite <- (assoc_L (++)). split; [done|]. split.
      * apply NoDup_cons. split; [|done]. intros Hin%Hadded.
        destruct Hin as [_ Hno]. apply Hno, elem_of_app. right.
        by apply list_elem_of_singleton.
      * intros x. rewrite !elem_of_cons, Hadded, elem_of_app, list_elem_of_singleton.
        destruct (decide (x = nb)) as [->|Hne]; [tauto|]. tauto.
Qed.

(** ** Grouping by label *)

(** X19.  [groupByCluster] with a label for every item: there is one
    group per non-negative label that occurs, the groups come in
    ascending order of their labels, each holds the items of its label in
    input order and none is empty; items with a negative label are in no
    group. *)
Theorem groupByCluster_classes {A : Type} (items : list A) (labels : list Z) :
  length items ≤ length labels →
  ∃ ks,
    NoDup ks ∧ Sorted Z.le ks ∧
    (∀ k, k ∈ ks ↔ (0 ≤ k)%Z ∧ ∃ j, j < length items ∧ labels !! j = Some k) ∧
    Dbscan.groupByCluster items labels
      = map (λ k, select items (labelled labels k (length items))) ks ∧
    Forall (λ group, group ≠ []) (Dbscan.groupByCluster items labels).
Proof.
  intros Hlen.
  destruct (groupByCluster_spec items labels) as (ks & Hnd & Hsorted & Hks & Hgroups).
  assert (∀ j k, j < length items → label_at labels j = k ↔ labels !! j = Some k)
    as Hat.
  { intros j k Hj. unfold label_at.
    destruct (lookup_lt_is_Some_2 labels j) as [l Hl]; [lia|].
    rewrite Hl. simpl. split; congruence. }
  exists ks. split_and!; try done.
  - intros k. rewrite Hks. split.
    + intros [Hk (j & Hj & Hl)]. split; [done|]. exists j. split; [done|].
      by apply Hat.
    + intros [Hk (j & Hj & Hl)]. split; [done|]. exists j. split; [done|].
      by apply Hat.
  - rewrite Hgroups. apply Forall_forall. intros group Hin.
    apply list_elem_of_fmap in Hin as (k & -> & Hk).
    apply Hks in Hk as [_ (j & Hj & Hl)].
    apply (select_nonempty items _ j); [|done].
    unfold labelled. apply list_elem_of_In, filter_In. split.
    + apply in_seq. lia.
    + by apply Z.eqb_eq.
Qed.

(** ** The extra statements on concrete runs *)

Lemma dbscan_validation_witness :
  Dbscan.dbscan sqrt_floor bridge_points (line_options 0 5) = Thrown "eps must be > 0" ∧
  Dbscan.dbscan sqrt_floor bridge_points (line_options 2 (1 # 2))
    = Thrown "minPts must be >= 1" ∧
  ∃ clusters,
    Dbscan.dbscan sqrt_floor bridge_points (line_options 2 5) = Returned clusters.
Proof.
  split_and!.
  - apply (proj1 (dbscan_validation sqrt_floor bridge_points (line_options 0 5))).
    by vm_compute.
  - apply (proj1 (proj2
             (dbscan_validation sqrt_floor bridge_points (line_options 2 (1 # 2)))));
      by vm_compute.
  - apply (proj2 (proj2 (dbscan_validation sqrt_floor bridge_points (line_options 2 5))));
      by vm_compute.
Defined.

Lemma regionQuery_memoized_witness :
  ∃ st',
    Dbscan.regionQuery sqrt_floor bridge_points (line_options 2 5) 3
      (Dbscan.initial bridge_points)
      = (neighbors sqrt_floor bridge_points (line_options 2 5) 3, st') ∧
    Dbscan.regionQuery sqrt_floor bridge_points (line_options 2 5) 3 st'
      = (neighbors sqrt_floor bridge_points (line_options 2 5) 3, st') ∧
    Dbscan.visited st' = Dbscan.visited (Dbscan.initial bridge_points) ∧
    Dbscan.labels st' = Dbscan.labels (Dbscan.initial bridge_points) ∧
    Dbscan.corePoints st' = Dbscan.corePoints (Dbscan.initial bridge_points) ∧
    Dbscan.clusters st' = Dbscan.clusters (Dbscan.initial bridge_points).
Proof.
  apply (regionQuery_memoized sqrt_floor bridge_points (line_options 2 5)).
  apply sc_consistent with (cid := 0) (i := 0), initial_scanned.
Defined.

Lemma clusters_numbered_witness :
  ∃ st cid clusters,
    Dbscan.scan sqrt_floor bridge_points (line_options 2 5) (length bridge_points)
      = Some (st, cid) ∧
    Dbscan.dbscan sqrt_floor bridge_points (line_options 2 5) = Returned clusters ∧
    length clusters = cid ∧
    cid ≤ length bridge_points ∧
    ∀ k : nat, k < cid →
      ∃ c, clusters !! k = Some c ∧
           c_id c = pretty k ∧
           c_points c = select bridge_points (members bridge_points st (Z.of_nat k)) ∧
           c_points c ≠ [].
Proof.
  apply (clusters_numbered sqrt_floor bridge_points (line_options 2 5));
    by vm_compute.
Defined.

Lemma no_noise_for_small_minPts_witness :
  ∃ st cid,
    Dbscan.scan sqrt_floor bridge_points (line_options 2 2) (length bridge_points)
      = Some (st, cid) ∧
    Dbscan.noise bridge_points st = [] ∧
    ∀ i, i < length bridge_points → core st i = true ∧ (0 ≤ label st i)%Z.
Proof.
  apply (no_noise_for_small_minPts sqrt_floor bridge_points (line_options 2 2));
    by vm_compute.
Defined.

Lemma core_clusters_are_components_witness :
  ∃ st cid,
    Dbscan.scan sqrt_floor bridge_points (line_options 2 5) (length bridge_points)
      = Some (st, cid) ∧
    ∀ p p', p < length bridge_points → p' < length bridge_points →
      dense sqrt_floor bridge_points (line_options 2 5) p = true →
      dense sqrt_floor bridge_points (line_options 2 5) p' = true →
      (label st p = label st p'
       ↔ rtsc (edge sqrt_floor bridge_points (line_options 2 5)) p p').
Proof.
  apply (core_clusters_are_components sqrt_floor bridge_points (line_options 2 5)).
  apply line_distance_symmetric.
Defined.

Lemma default_distance_symmetric_witness :
  (Dbscan.buildDistance sqrt_floor (line_options 2 5) 1 4 ==
   Dbscan.buildDistance sqrt_floor (line_options 2 5) 4 1)%Q.
Proof.
  apply (default_distance_symmetric sqrt_floor (line_options 2 5)).
  - reflexivity.
  - intros x y Hxy. by rewrite (sqrt_floor_proper x y Hxy).
Defined.

Lemma groupByCluster_classes_witness :
  ∃ ks,
    NoDup ks ∧ Sorted Z.le ks ∧
    (∀ k, k ∈ ks ↔
          (0 ≤ k)%Z ∧ ∃ j, j < length scenario3_points ∧
                           [1; -1; 0; 1]%Z !! j = Some k) ∧
    Dbscan.groupByCluster scenario3_points [1; -1; 0; 1]%Z
      = map (λ k, select scenario3_points
                    (labelled [1; -1; 0; 1]%Z k (length scenario3_points))) ks ∧
    Forall (λ group, group ≠ [])
      (Dbscan.groupByCluster scenario3_points [1; -1; 0; 1]%Z).
Proof.
  apply (groupByCluster_classes scenario3_points [1; -1; 0; 1]%Z).
  simpl. lia.
Defined.

(** * More of the marker layer *)

Section layer_more.
Context {T : Type} `{Located T} {Node : Type}.
Variable template_firstChild : string → option Node.
Variable nodeType : Node → nat.

Implicit Types (w : Layer.World Node) (map : Layer.HostMap T)
  (options : Layer.Options T) (c : Layer.Controller T).

Local Abbreviation add_marker := (Layer.add_marker template_firstChild nodeType).
Local Abbreviation add_markers := (Layer.add_markers template_firstChild nodeType).
Local Abbreviation recompute := (Layer.recompute template_firstChild nodeType).
Local Abbreviation compute := (Layer.compute template_firstChild nodeType).
Local Abbreviation addClusteredLayer :=
  (Layer.addClusteredLayer template_firstChild nodeType).
Local Abbreviation marker_for := (marker_for template_firstChild nodeType).
Local Abbreviation rejected := (rejected template_firstChild nodeType).

Lemma add_marker_spec map options group w w' r :
  add_marker map options group w = (w', r) →
  (r = Returned tt ∧
   ∃ marker,
     marker_for options marker group ∧
     Layer.marker_id marker = Layer.created w ∧
     Layer.markers w' = Layer.markers w ++ [marker] ∧
     Layer.on_map w' = Layer.on_map w ++ [(Layer.map_id map, marker)] ∧
     Layer.created w' = S (Layer.created w) ∧
     Layer.zoom_handlers w' = Layer.zoom_handlers w ∧
     Layer.installed w' = Layer.installed w) ∨
  (w' = w ∧ rejected options group ∧
   r = Thrown "Provided HTML must represent a single HTML element.").
Proof.
  unfold Layer.add_marker, marker_for, rejected, html_of.
  destruct (Layer.clusterHTML options) as [f|];
    [destruct (f (c_points group)) as [[|ch s]|] eqn:Hhtml|].
  1,3,4: intros [= <- <-]; left; split; [done|];
    eexists (Layer.Build_Marker _ _ _ _); by split_and!.
  unfold Layer.htmlToElement.
  destruct (template_firstChild (String ch s)) as [node|] eqn:Hnode;
    [destruct (Nat.eqb (nodeType node) Layer.ELEMENT_NODE) eqn:Htype|].
  - intros [= <- <-]. left. split; [done|].
    eexists (Layer.Build_Marker _ _ _ _). split_and!; try done.
    simpl. by exists node.
  - intros [= <- <-]. right. split; [done|]. split; [|done].
    exists (String ch s). by rewrite Hnode, Htype.
  - intros [= <- <-]. right. split; [done|]. split; [|done].
    exists (String ch s). by rewrite Hnode.
Qed.

Lemma add_markers_spec map options groups w w' r :
  add_markers map options groups w = (w', r) →
  ∃ k built,
    k ≤ length groups ∧
    Forall2 (marker_for options) built (take k groups) ∧
    Layer.marker_id <$> built = seq (Layer.created w) k ∧
    Layer.markers w' = Layer.markers w ++ built ∧
    Layer.on_map w' = Layer.on_map w ++ (pair (Layer.map_id map) <$> built) ∧
    Layer.created w' = Layer.created w + k ∧
    Layer.zoom_handlers w' = Layer.zoom_handlers w ∧
    Layer.installed w' = Layer.installed w ∧
    match r with
    | Returned _ => k = length groups
    | Thrown message =>
        message = "Provided HTML must represent a single HTML element."%string ∧
        ∃ group, groups !! k = Some group ∧ rejected options group
    | Unfinished => False
    end.
Proof.
  revert w. induction groups as [|group groups IH]; intros w Hrun; simpl in Hrun.
  - injection Hrun as <- <-. exists 0, []. rewrite !app_nil_r.
    split_and!; try done; try constructor; lia.
  - destruct (add_marker map options group w) as [w1 r1] eqn:Hstep.
    apply add_marker_spec in Hstep
      as [[-> (marker & Hfor & Hid & Hmk & Hon & Hcr & Hzh & Hin)]|(-> & Hrej & ->)].
    + apply IH in Hrun
        as (k & built & Hk & Hall & Hids & Hmk' & Hon' & Hcr' & Hzh' & Hin' & Hr).
      exists (S k), (marker :: built). split_and!.
      * simpl; lia.
      * by constructor.
      * by rewrite fmap_cons, Hid, Hids, Hcr.
      * by rewrite Hmk', Hmk, <- (assoc_L (++)).
      * by rewrite Hon', Hon, <- (assoc_L (++)).
      * lia.
      * congruence.
      * congruence.
      * destruct r as [[]|message|]; [simpl; lia|exact Hr|done].
    + injection Hrun as <- <-. exists 0, []. rewrite !app_nil_r.
      split_and!; try done; try (simpl; lia); try constructor.
      by exists group.
Qed.

Lemma clearMarkers_tracked w :
  tracked w → Layer.on_map (Layer.clearMarkers w) = [].
Proof.
  unfold tracked, Layer.clearMarkers; simpl.
  induction (Layer.on_map w) as [|e l IH]; intros Hall; [done|].
  apply Forall_cons in Hall as [He Hall]. simpl.
  assert (Layer.recorded w (Layer.marker_id e.2) = true) as ->.
  { apply recorded_spec. apply list_elem_of_fmap. by exists e.2. }
  simpl. by apply IH.
Qed.

Lemma recompute_cases map data options w w' r :
  recompute map data options w = (w', r) →
  match Layer.getBounds map with
  | None => w' = Layer.clearMarkers w ∧ r = Returned tt
  | Some bounds =>
      ∃ groups,
        layer_groups map bounds data = Returned groups ∧
        add_markers map options groups (Layer.clearMarkers w) = (w', r)
  end.
Proof.
  unfold Layer.recompute. destruct (Layer.getBounds map) as [bounds|].
  - intros Hrun. eexists. split; [reflexivity|]. exact Hrun.
  - by intros [= <- <-].
Qed.

Lemma recompute_on_map map data options w w' r :
  tracked w → recompute map data options w = (w', r) →
  Layer.on_map w' = pair (Layer.map_id map) <$> Layer.markers w'.
Proof.
  intros Htr Hrun. apply recompute_cases in Hrun.
  destruct (Layer.getBounds map) as [bounds|].
  - destruct Hrun as (groups & _ & Hrun).
    apply add_markers_spec in Hrun as (k & built & _ & _ & _ & Hmk & Hon & _).
    rewrite Hon, Hmk, clearMarkers_tracked by done. done.
  - destruct Hrun as [-> _]. by rewrite clearMarkers_tracked.
Qed.

Lemma on_map_tracked (m : nat) w :
  Layer.on_map w = pair m <$> Layer.markers w → tracked w.
Proof.
  intros Hon. unfold tracked. rewrite Hon. apply Forall_fmap, Forall_forall.
  by intros marker Hin.
Qed.

Lemma recompute_handlers map data options w w' r :
  recompute map data options w = (w', r) →
  Layer.zoom_handlers w' = Layer.zoom_handlers w ∧
  Layer.installed w' = Layer.installed w.
Proof.
  intros Hrun. apply recompute_cases in Hrun.
  destruct (Layer.getBounds map) as [bounds|].
  - destruct Hrun as (groups & _ & Hrun).
    by apply add_markers_spec in Hrun as (k & built & _ & _ & _ & _ & _ & _ & ? & ? & _).
  - by destruct Hrun as [-> _].
Qed.

Lemma filter_pairs {A : Type} (m m' : nat) (l : list A) :
  (List.filter (λ e : nat * A, Nat.eqb e.1 m) (pair m' <$> l)).*2
  = if Nat.eqb m m' then l else [].
Proof.
  induction l as [|a l IH]; [by destruct (Nat.eqb m m')|].
  rewrite fmap_cons. cbn [List.filter fst]. rewrite (Nat.eqb_sym m' m).
  destruct (Nat.eqb m m') eqn:Hm.
  - rewrite fmap_cons. cbn [snd]. f_equal. exact IH.
  - exact IH.
Qed.

Lemma filter_fresh_handlers (m h : nat) (l : list (nat * nat)) :
  Forall (λ e, e.2 < h) l →
  List.filter (λ e : nat * nat, negb (Nat.eqb e.1 m && Nat.eqb e.2 h)) l = l.
Proof.
  induction l as [|e l IH]; intros Hall; [done|].
  apply Forall_cons in Hall as [He Hl]. cbn [List.filter].
  assert (Nat.eqb e.2 h = false) as -> by (apply Nat.eqb_neq; lia).
  rewrite andb_false_r. cbn [negb]. f_equal. by apply IH.
Qed.

Lemma addClusteredLayer_handlers now map data options w c w' r :
  addClusteredLayer now map data options w = (c, (w', r)) →
  Layer.zoom_handlers w'
    = Layer.zoom_handlers w ++ [(Layer.map_id map, Layer.installed w)] ∧
  Layer.installed w' = S (Layer.installed w) ∧
  Layer.handler c = Layer.installed w ∧
  Layer.layer_map c = Layer.map_id map.
Proof.
  unfold Layer.addClusteredLayer, Layer.compute. simpl.
  destruct (Qle_bool _ _).
  - destruct (Layer.recompute _ _ _ _ _ _) as [w1 r1] eqn:Hrun.
    intros [= <- <- <-]. by apply recompute_handlers in Hrun as [Hzh Hin].
  - by intros [= <- <- <-].
Qed.

Lemma marker_for_not_rejected options marker group :
  marker_for options marker group → rejected options group → False.
Proof.
  intros [_ Hel] (html & Hhtml & Hne & Hthrown). rewrite Hhtml in Hel.
  destruct html as [|ch s]; [done|]. destruct Hel as (node & Hret & _). congruence.
Qed.

(** ** What one invocation builds *)

(** X20.  An invocation that finds bounds and returns normally has built
    one marker per cluster of the grid over the points inside the bounds,
    in the order of the clusters: each sits at the center of its cluster
    and carries the element its cluster's HTML parses to (none when there
    is no HTML or it is the empty string), the identities are the next
    unused ones in order, the module's list holds exactly these markers,
    and all of them were added to the map of the invocation. *)
Theorem recompute_builds_one_marker_per_cluster map bounds data options w w' :
  Layer.getBounds map = Some bounds →
  recompute map data options w = (w', Returned tt) →
  ∃ groups,
    layer_groups map bounds data = Returned groups ∧
    Forall2 (marker_for options) (Layer.markers w') groups ∧
    Layer.marker_id <$> Layer.markers w'
      = seq (Layer.created w) (length groups) ∧
    Layer.created w' = Layer.created w + length groups ∧
    Layer.on_map w'
      = Layer.on_map (Layer.clearMarkers w)
        ++ (pair (Layer.map_id map) <$> Layer.markers w').
Proof.
  intros Hb Hrun. apply recompute_cases in Hrun. rewrite Hb in Hrun.
  destruct Hrun as (groups & Hgrid & Hrun). exists groups. split; [done|].
  apply add_markers_spec in Hrun
    as (k & built & _ & Hall & Hids & Hmk & Hon & Hcr & _ & _ & ->).
  simpl in Hmk. rewrite firstn_all in Hall. rewrite Hmk, Hon. by split_and!.
Qed.

(** X21.  When [htmlToElement] refuses the HTML of a cluster and has
    accepted that of every cluster before it, an invocation whose
    callbacks return throws the error of [htmlToElement] and stops the
    loop there: the clusters before the refused one have their markers,
    recorded in the module's list and added to the map, and no marker was
    built for the refused cluster or for any after it. *)
Theorem recompute_failure_keeps_earlier_markers map bounds data options w
    groups k group :
  Layer.getBounds map = Some bounds →
  layer_groups map bounds data = Returned groups →
  groups !! k = Some group →
  rejected options group →
  (∀ j g, j < k → groups !! j = Some g → ¬ rejected options g) →
  ∃ w',
    recompute map data options w
      = (w', Thrown "Provided HTML must represent a single HTML element.") ∧
    Forall2 (marker_for options) (Layer.markers w') (take k groups) ∧
    Layer.marker_id <$> Layer.markers w' = seq (Layer.created w) k ∧
    Layer.created w' = Layer.created w + k ∧
    Layer.on_map w'
      = Layer.on_map (Layer.clearMarkers w)
        ++ (pair (Layer.map_id map) <$> Layer.markers w').
Proof.
  intros Hb Hgrid Hk Hrej Hfirst.
  destruct (recompute map data options w) as [w' r] eqn:Hrun.
  apply recompute_cases in Hrun. rewrite Hb in Hrun.
  destruct Hrun as (groups' & Hgrid' & Hrun).
  assert (groups' = groups) as -> by congruence.
  apply add_markers_spec in Hrun
    as (k' & built & Hk' & Hall & Hids & Hmk & Hon & Hcr & _ & _ & Hr).
  simpl in Hmk.
  assert (∀ i, i < k' → groups !! i = Some group → False) as Hbuilt.
  { intros i Hi Hgi.
    assert (take k' groups !! i = Some group) as Hti by (by rewrite lookup_take_lt).
    destruct (Forall2_lookup_r _ _ _ _ _ Hall Hti) as (marker & _ & Hfor).
    by apply (marker_for_not_rejected options marker group). }
  destruct r as [[]|message|]; [| |done].
  - exfalso. apply (Hbuilt k); [|done]. subst k'. by apply lookup_lt_Some in Hk.
  - destruct Hr as (-> & group' & Hk'g & Hrej').
    assert (k' = k) as ->.
    { destruct (Nat.lt_trichotomy k' k) as [Hlt|[Heq|Hgt]]; [|done|].
      - by destruct (Hfirst k' group' Hlt Hk'g).
      - by destruct (Hbuilt k Hgt Hk). }
    exists w'. rewrite Hmk, Hon. by split_and!.
Qed.

(** ** The module's list and the maps *)

(** X22.  Once every marker on a map is in the module's list, as in the
    empty world, it stays so: installing a layer, a zoom event handled by
    any controller and disposing a controller all keep it. *)
Theorem markers_stay_tracked w :
  tracked w →
  (∀ now map data options,
     tracked (addClusteredLayer now map data options w).2.1) ∧
  (∀ now map c, tracked (compute now map c w).2.1) ∧
  (∀ c, tracked (Layer.dispose c w)).
Proof.
  intros Htr.
  assert (∀ now map c w0, tracked w0 → tracked (compute now map c w0).2.1) as Hcompute.
  { intros now map c w0 Htr0. unfold Layer.compute.
    destruct (Qle_bool _ _); [|done]. simpl.
    destruct (recompute map (Layer.data c) (Layer.options c) w0) as [w' r] eqn:Hrun.
    eapply on_map_tracked, recompute_on_map; done. }
  split_and!.
  - intros now map data options. unfold Layer.addClusteredLayer.
    match goal with |- context [compute now map ?c ?w0] =>
      pose proof (Hcompute now map c w0 Htr) as Hc;
      destruct (compute now map c w0) as [[c' ran] res] end.
    exact Hc.
  - intros now map c. by apply Hcompute.
  - intros c. exact Htr.
Qed.

(** X23.  With every marker on a map tracked by the module's list, an
    invocation leaves on the maps the markers it built itself and nothing
    else: its own map renders exactly the module's list and every other
    map renders nothing, whether the invocation returned or raised. *)
Theorem recompute_shows_only_its_markers map data options w w' r :
  tracked w →
  recompute map data options w = (w', r) →
  ∀ m, Layer.rendered w' m
       = if Nat.eqb m (Layer.map_id map) then Layer.markers w' else [].
Proof.
  intros Htr Hrun m. unfold Layer.rendered.
  rewrite (recompute_on_map _ _ _ _ _ _ Htr Hrun). apply filter_pairs.
Qed.

(** ** Throttling *)

(** X24.  After a call of the throttled handler that ran the computation
    at time [now1], the next call runs it exactly when at least the
    throttle interval has passed since [now1]; a call that comes earlier
    changes neither the controller nor the world.  The interval counts
    from the start of the last computation, also when that one raised. *)
Theorem throttle_spacing now1 now2 map1 map2 c w1 c1 r1 w2 t :
  Layer.throttle (Layer.options c) = Some t →
  compute now1 map1 c w1 = (c1, true, r1) →
  ((compute now2 map2 c1 w2).1.2 = true ↔ (t <= now2 - now1)%Q) ∧
  ((now2 - now1 < t)%Q →
   compute now2 map2 c1 w2 = (c1, false, (w2, Returned tt))).
Proof.
  intros Ht Hfirst. unfold Layer.compute in Hfirst. rewrite Ht in Hfirst.
  destruct (Qle_bool _ (now1 - Layer.lastTime c)); [|done].
  injection Hfirst as <- _. unfold Layer.compute. simpl. rewrite Ht.
  assert (Qle_bool (if Qeq_bool t 0 then 0%Q else t) (now2 - now1) = true
          ↔ (t <= now2 - now1)%Q) as Hiff.
  { rewrite Qle_bool_iff. destruct (Qeq_bool t 0) eqn:Hz; [|done].
    apply Qeq_bool_iff in Hz. by rewrite Hz. }
  destruct (Qle_bool _ (now2 - now1)) eqn:Hle; simpl.
  - split; [exact Hiff|]. intros Hlt. exfalso.
    apply (Qlt_not_le _ _ Hlt). by apply Hiff.
  - split; [exact Hiff|done].
Qed.

(** ** Installing and disposing *)

(** X25.  Installing a layer registers one new zoom handler on its map
    and, when the first computation returns, the disposer undoes exactly
    that: the registered handlers are those from before the installation.
    The disposer touches no marker: what the layer drew stays on the map
    and in the module's list. *)
Theorem dispose_undoes_registration now map data options w c w' :
  fresh_handlers w →
  addClusteredLayer now map data options w = (c, (w', Returned tt)) →
  Layer.zoom_handlers w'
    = Layer.zoom_handlers w ++ [(Layer.map_id map, Layer.installed w)] ∧
  Layer.zoom_handlers (Layer.dispose c w') = Layer.zoom_handlers w ∧
  Layer.markers (Layer.dispose c w') = Layer.markers w' ∧
  Layer.on_map (Layer.dispose c w') = Layer.on_map w' ∧
  fresh_handlers (Layer.dispose c w').
Proof.
  intros Hfresh Hrun.
  destruct (addClusteredLayer_handlers _ _ _ _ _ _ _ _ Hrun) as (Hzh & Hin & Hh & Hm).
  assert (Layer.zoom_handlers (Layer.dispose c w') = Layer.zoom_handlers w) as Hback.
  { unfold Layer.dispose; simpl. rewrite Hzh, Hh, Hm, List.filter_app.
    rewrite filter_fresh_handlers by exact Hfresh.
    cbn [List.filter fst snd]. rewrite !Nat.eqb_refl. simpl. apply app_nil_r. }
  split_and!; try done.
  unfold fresh_handlers. rewrite Hback. simpl. rewrite Hin.
  eapply Forall_impl; [exact Hfresh|]. simpl. lia.
Qed.

End layer_more.

(** ** The extra statements on the demo layer *)

Lemma recompute_builds_one_marker_per_cluster_witness :
  ∃ groups,
    layer_groups (demo_map 0 true) (λ _, true) demo_data = Returned groups ∧
    Forall2 (marker_for demo_firstChild demo_nodeType (Layer.merge_options demo_options))
      (Layer.markers demo_first_run.1) groups ∧
    Layer.marker_id <$> Layer.markers demo_first_run.1
      = seq (Layer.created (@Layer.empty_world string)) (length groups) ∧
    Layer.created demo_first_run.1
      = Layer.created (@Layer.empty_world string) + length groups ∧
    Layer.on_map demo_first_run.1
      = Layer.on_map (Layer.clearMarkers (@Layer.empty_world string))
        ++ (pair (Layer.map_id (demo_map 0 true)) <$> Layer.markers demo_first_run.1).
Proof.
  apply (recompute_builds_one_marker_per_cluster demo_firstChild demo_nodeType
           (demo_map 0 true) (λ _, true) demo_data (Layer.merge_options demo_options)
           Layer.empty_world demo_first_run.1).
  - reflexivity.
  - reflexivity.
Defined.

Lemma recompute_failure_keeps_earlier_markers_witness :
  demo_mixed_groups !! 1 = Some demo_refused_group ∧
  ∃ w',
    Layer.recompute text_firstChild text_nodeType (demo_map 0 true) demo_mixed_data
      (Layer.merge_options demo_options) Layer.empty_world
      = (w', Thrown "Provided HTML must represent a single HTML element.") ∧
    Forall2
      (marker_for text_firstChild text_nodeType (Layer.merge_options demo_options))
      (Layer.markers w') (take 1 demo_mixed_groups) ∧
    Layer.marker_id <$> Layer.markers w'
      = seq (Layer.created (@Layer.empty_world string)) 1 ∧
    Layer.created w' = Layer.created (@Layer.empty_world string) + 1 ∧
    Layer.on_map w'
      = Layer.on_map (Layer.clearMarkers (@Layer.empty_world string))
        ++ (pair (Layer.map_id (demo_map 0 true)) <$> Layer.markers w').
Proof.
  split; [reflexivity|].
  apply (recompute_failure_keeps_earlier_markers text_firstChild text_nodeType
           (demo_map 0 true) (λ _, true) demo_mixed_data
           (Layer.merge_options demo_options) Layer.empty_world
           demo_mixed_groups 1 demo_refused_group).
  - reflexivity.
  - reflexivity.
  - reflexivity.
  - eexists. split; [vm_compute; reflexivity|]. split; [done|]. reflexivity.
  - intros j g Hj Hg (html & Hhtml & _).
    destruct j as [|j]; [|lia]. vm_compute in Hg. injection Hg as <-.
    vm_compute in Hhtml. discriminate.
Defined.

Lemma markers_stay_tracked_witness :
  tracked demo_installed.2 ∧
  tracked demo_zoomed_without_bounds.2 ∧
  tracked (Layer.dispose demo_installed.1 demo_installed.2).
Proof.
  assert (tracked (@Layer.empty_world string)) as Hempty by constructor.
  assert (tracked demo_installed.2) as Hinstalled.
  { apply (proj1 (markers_stay_tracked demo_firstChild demo_nodeType
                    Layer.empty_world Hempty)
             1000%Q (demo_map 0 true) demo_data demo_options). }
  split_and!.
  - exact Hinstalled.
  - apply (proj1 (proj2 (markers_stay_tracked demo_firstChild demo_nodeType
                           demo_installed.2 Hinstalled))
             2000%Q (demo_map 0 false) demo_installed.1).
  - apply (proj2 (proj2 (markers_stay_tracked demo_firstChild demo_nodeType
                           demo_installed.2 Hinstalled))).
Defined.

Lemma recompute_shows_only_its_markers_witness :
  Layer.rendered demo_second_run.1 0 = [] ∧
  Layer.rendered demo_second_run.1 1 = Layer.markers demo_second_run.1.
Proof.
  assert (tracked demo_first_run.1) as Htracked.
  { unfold tracked. vm_compute. repeat constructor. }
  split.
  - apply (recompute_shows_only_its_markers demo_firstChild demo_nodeType
             (demo_map 1 true) demo_data (Layer.merge_options demo_options)
             demo_first_run.1 demo_second_run.1 demo_second_run.2 Htracked eq_refl 0).
  - apply (recompute_shows_only_its_markers demo_firstChild demo_nodeType
             (demo_map 1 true) demo_data (Layer.merge_options demo_options)
             demo_first_run.1 demo_second_run.1 demo_second_run.2 Htracked eq_refl 1).
Defined.

Lemma throttle_spacing_witness :
  ((Layer.compute demo_firstChild demo_nodeType 1100 (demo_map 0 true)
      (Layer.compute demo_firstChild demo_nodeType 1000 (demo_map 0 true)
         demo_controller Layer.empty_world).1.1
      demo_first_run.1).1.2 = true
   ↔ (200 <= 1100 - 1000)%Q) ∧
  Layer.compute demo_firstChild demo_nodeType 1100 (demo_map 0 true)
    (Layer.compute demo_firstChild demo_nodeType 1000 (demo_map 0 true)
       demo_controller Layer.empty_world).1.1
    demo_first_run.1
  = ((Layer.compute demo_firstChild demo_nodeType 1000 (demo_map 0 true)
        demo_controller Layer.empty_world).1.1,
     false, (demo_first_run.1, Returned tt)).
Proof.
  destruct (throttle_spacing demo_firstChild demo_nodeType 1000 1100
              (demo_map 0 true) (demo_map 0 true) demo_controller Layer.empty_world
              (Layer.compute demo_firstChild demo_nodeType 1000 (demo_map 0 true)
                 demo_controller Layer.empty_world).1.1
              (Layer.compute demo_firstChild demo_nodeType 1000 (demo_map 0 true)
                 demo_controller Layer.empty_world).2
              demo_first_run.1 200%Q eq_refl eq_refl) as [Hran Hdropped].
  split; [exact Hran|]. apply Hdropped. reflexivity.
Defined.

Lemma dispose_undoes_registration_witness :
  Layer.zoom_handlers demo_installed.2
    = Layer.zoom_handlers (@Layer.empty_world string)
      ++ [(Layer.map_id (demo_map 0 true), Layer.installed (@Layer.empty_world string))] ∧
  Layer.zoom_handlers (Layer.dispose demo_installed.1 demo_installed.2)
    = Layer.zoom_handlers (@Layer.empty_world string) ∧
  Layer.markers (Layer.dispose demo_installed.1 demo_installed.2)
    = Layer.markers demo_installed.2 ∧
  Layer.on_map (Layer.dispose demo_installed.1 demo_installed.2)
    = Layer.on_map demo_installed.2 ∧
  fresh_handlers (Layer.dispose demo_installed.1 demo_installed.2).
Proof.
  apply (dispose_undoes_registration demo_firstChild demo_nodeType 1000
           (demo_map 0 true) demo_data demo_options Layer.empty_world
           demo_installed.1 demo_installed.2).
  - constructor.
  - reflexivity.
Defined.
